(** * Discord voice manager: a shallow embedding and its properties

    The development follows [discord/voice/manager.ts]: the audio container
    builder ([buildWavBuffer]), the duration estimate, the per-session task
    queues (promise chains), speaker capture ([handleSpeakingStart]), the
    processing pipeline ([processSegment]) and the session registry of
    [DiscordVoiceManager] ([join], [leave], [autoJoin], [destroy]).

    Conventions.
    - A JavaScript string is the list of its UTF-16 code units.
    - A [Buffer] is a list of bytes.
    - A JavaScript number that holds a length or a header field is a [Z];
      the duration estimate is a binary64 [float], as in the source.
    - An [async] function is cut at its [await]s: one definition per
      synchronous stretch, the answer of the awaited collaborator being an
      argument of the next stretch.  The composition of the stretches of one
      call, run without anything in between, is given under the source's name.
    - Session objects live in a store and are named by references, because
      closures registered on the connection keep a session object alive and
      mutate it after it has left the registry. *)

From Stdlib Require Import ZArith QArith Floats Uint63 Ascii String.
From Stdlib.Strings Require Import Byte.
From stdpp Require Import gmap list.

Open Scope Z_scope.

(** ** Outcomes of calls *)

(** What a call ends with: a value, or a thrown error (its text). *)
Inductive Completion (A : Type) : Type :=
  | Returned (a : A)
  | Threw (err : list N).  (* the error as [String(err)] shows it *)
Arguments Returned {A} a.
Arguments Threw {A} err.

Definition cbind {A B} (c : Completion A) (k : A -> Completion B) : Completion B :=
  match c with
  | Returned a => k a
  | Threw e => Threw e
  end.

Notation "'let!' x ':=' c 'in' k" := (cbind c (fun x => k))
  (at level 10, x name, c at level 100, k at level 200).

(** What an awaited promise settles to. *)
Inductive Settled (A : Type) : Type :=
  | Fulfilled (a : A)
  | Rejected (err : list N).
Arguments Fulfilled {A} a.
Arguments Rejected {A} err.

(** [promise.catch(() => v)] *)
Definition catch_with {A} (p : Settled A) (v : A) : A :=
  match p with
  | Fulfilled a => a
  | Rejected _ => v
  end.

(** ** JavaScript strings *)

Abbreviation jsstr := (list N) (only parsing).

Definition str (s : string) : jsstr :=
  map N_of_ascii (list_ascii_of_string s).

(** [WhiteSpace] and [LineTerminator] code units, the ones [trim] strips. *)
Definition isWhiteSpace (c : N) : bool :=
  existsb (N.eqb c)
    [9; 10; 11; 12; 13; 32; 160; 5760; 8192; 8193; 8194; 8195; 8196; 8197;
     8198; 8199; 8200; 8201; 8202; 8232; 8233; 8239; 8287; 12288; 65279]%N.

Fixpoint trimStart (s : jsstr) : jsstr :=
  match s with
  | [] => []
  | c :: s' => if isWhiteSpace c then trimStart s' else s
  end.

Definition trimEnd (s : jsstr) : jsstr := rev (trimStart (rev s)).

Definition trim (s : jsstr) : jsstr := trimEnd (trimStart s).

(** Truthiness of a string: every string but the empty one. *)
Definition truthy (s : jsstr) : bool :=
  match s with
  | [] => false
  | _ :: _ => true
  end.

(** Truthiness of [string | undefined]. *)
Definition truthy_opt (o : option jsstr) : bool :=
  match o with
  | Some s => truthy s
  | None => false
  end.

Definition jsstr_eqb (a b : jsstr) : bool := bool_decide (a = b).

Fixpoint startsWith (needle hay : jsstr) : bool :=
  match needle, hay with
  | [], _ => true
  | _ :: _, [] => false
  | a :: n', b :: h' => N.eqb a b && startsWith n' h'
  end.

(** [hay.includes(needle)] *)
Fixpoint includes (needle hay : jsstr) : bool :=
  startsWith needle hay ||
  match hay with
  | [] => false
  | _ :: h' => includes needle h'
  end.

(** [parts.join(sep)] *)
Fixpoint join_with (sep : jsstr) (parts : list jsstr) : jsstr :=
  match parts with
  | [] => []
  | [p] => p
  | p :: rest => p ++ sep ++ join_with sep rest
  end.

(** ** Buffers *)

Abbreviation Buffer := (list byte).

Definition RangeError : jsstr := str "RangeError".

Definition byte_of_Z (z : Z) : byte :=
  match Byte.of_N (Z.to_N z) with
  | Some b => b
  | None => x00
  end.

Definition Z_of_byte (b : byte) : Z := Z.of_N (Byte.to_N b).

(** [Buffer.alloc(n)] *)
Definition Buffer_alloc (n : nat) : Buffer := repeat x00 n.

(** Overwrite [buf] from [offset] on with [bytes], as far as they fit. *)
Definition splice (offset : nat) (bytes : Buffer) (buf : Buffer) : Buffer :=
  let n := Nat.min (length bytes) (length buf - offset) in
  firstn offset buf ++ firstn n bytes ++ skipn (offset + n) buf.

(** [buf.write(s, offset)] for a string of ASCII characters. *)
Definition buf_write (s : string) (offset : nat) (buf : Buffer) : Buffer :=
  splice offset (list_byte_of_string s) buf.

(** The [width] low bytes of [v], least significant first. *)
Definition le_bytes (width : nat) (v : Z) : Buffer :=
  map (fun i => byte_of_Z (Z.land (Z.shiftr v (8 * Z.of_nat i)) 255)) (seq 0 width).

Fixpoint le_value (bytes : Buffer) : Z :=
  match bytes with
  | [] => 0
  | b :: rest => Z_of_byte b + 256 * le_value rest
  end.

(** [buf.writeUIntLE]: Node raises a range error when the value does not fit
    the field or the field does not fit the buffer. *)
Definition writeUIntLE (width : nat) (v : Z) (offset : nat) (buf : Buffer)
  : Completion Buffer :=
  if (0 <=? v) && (v <? 2 ^ (8 * Z.of_nat width))
     && (offset + width <=? length buf)%nat
  then Returned (splice offset (le_bytes width v) buf)
  else Threw RangeError.

Definition writeUInt32LE := writeUIntLE 4.
Definition writeUInt16LE := writeUIntLE 2.

Definition slice (from to : nat) (buf : Buffer) : Buffer :=
  firstn (to - from) (skipn from buf).

Definition readUIntLE (width : nat) (offset : nat) (buf : Buffer) : option Z :=
  if (offset + width <=? length buf)%nat
  then Some (le_value (slice offset (offset + width) buf))
  else None.

Definition readUInt32LE := readUIntLE 4.
Definition readUInt16LE := readUIntLE 2.

(** ** The audio container *)

Definition SAMPLE_RATE : Z := 48000.
Definition CHANNELS : Z := 2.
Definition BIT_DEPTH : Z := 16.
Definition SILENCE_DURATION_MS : Z := 1000.
Definition PLAYBACK_READY_TIMEOUT_MS : Z := 15000.
Definition SPEAKING_READY_TIMEOUT_MS : Z := 60000.

Definition buildWavBuffer (pcm : Buffer) : Completion Buffer :=
  let blockAlign := (CHANNELS * BIT_DEPTH) / 8 in
  let byteRate := SAMPLE_RATE * blockAlign in
  let pcm_length := Z.of_nat (length pcm) in
  let header := Buffer_alloc 44 in
  let header := buf_write "RIFF" 0 header in
  let! header := writeUInt32LE (36 + pcm_length) 4 header in
  let header := buf_write "WAVE" 8 header in
  let header := buf_write "fmt " 12 header in
  let! header := writeUInt32LE 16 16 header in
  let! header := writeUInt16LE 1 20 header in
  let! header := writeUInt16LE CHANNELS 22 header in
  let! header := writeUInt32LE SAMPLE_RATE 24 header in
  let! header := writeUInt32LE byteRate 28 header in
  let! header := writeUInt16LE blockAlign 32 header in
  let! header := writeUInt16LE BIT_DEPTH 34 header in
  let header := buf_write "data" 36 header in
  let! header := writeUInt32LE pcm_length 40 header in
  Returned (header ++ pcm).

(** ** The duration estimate *)

(** A length or a constant as a JavaScript number. *)
Definition num (z : Z) : float := PrimFloat.of_uint63 (Uint63.of_Z z).

(** The literal [0.35]: the binary64 value nearest to 35/100. *)
Definition MIN_SEGMENT_SECONDS : float := 0x1.6666666666666p-2%float.

Definition estimateDurationSeconds (pcm : Buffer) : float :=
  let bytesPerSample := PrimFloat.mul (PrimFloat.div (num BIT_DEPTH) (num 8)) (num CHANNELS) in
  if PrimFloat.leb bytesPerSample (num 0) then num 0
  else PrimFloat.div (num (Z.of_nat (length pcm)))
                     (PrimFloat.mul bytesPerSample (num SAMPLE_RATE)).

(** ** Per-session task queues

    [entry.processingQueue] and [entry.playbackQueue] hold a promise.
    [enqueueProcessing] and [enqueuePlayback] replace it by
    [queue.then(task).catch(warn)].  A queue is the list of the links made so
    far, oldest first; each link records the state of its two promises. *)

Section TaskQueue.

Context {T : Type}.

(** The promise [queue.then(task)]: waiting for the queue's promise, then
    following the promise the task returned. *)
Inductive ThenState : Type :=
  | TWaiting
  | TRunning
  | TFulfilled
  | TRejected (err : jsstr).

(** The promise [(...).catch(warn)], which the queue field holds next. *)
Inductive CatchState : Type :=
  | CPending
  | CFulfilled
  | CRejected (err : jsstr).

Record Link : Type := {
  task : T;
  then_state : ThenState;
  catch_state : CatchState;
}.

Definition with_then (s : ThenState) (l : Link) : Link :=
  {| task := task l; then_state := s; catch_state := catch_state l |}.

Definition with_catch (s : CatchState) (l : Link) : Link :=
  {| task := task l; then_state := then_state l; catch_state := s |}.

(** The promise link [k] was chained on: [Promise.resolve()] for the first
    link, the [catch] promise of the link before for the others. *)
Definition queue_before (q : list Link) (k : nat) : CatchState :=
  match k with
  | O => CFulfilled
  | S j =>
      match q !! j with
      | Some l => catch_state l
      | None => CPending
      end
  end.

(** [entry.queue = entry.queue.then(task).catch(warn)] *)
Definition enqueue (q : list Link) (t : T) : list Link :=
  q ++ [{| task := t; then_state := TWaiting; catch_state := CPending |}].

Inductive QEvent : Type :=
  | Enqueued (k : nat)
  | Started (k : nat)                   (* the task function is called *)
  | Skipped (k : nat)                   (* [then] passes a rejection on *)
  | Completed (k : nat)                 (* the task's promise fulfils *)
  | FailedWith (k : nat) (err : jsstr)  (* the task's promise rejects *)
  | Passed (k : nat)                    (* [catch] passes a fulfilment on *)
  | Warned (k : nat) (err : jsstr).     (* [catch] runs [logger.warn] *)

(** One reaction of the promise machinery, or one thing a task does. *)
Inductive qstep : list Link -> QEvent -> list Link -> Prop :=
  | qs_enqueue q t :
      qstep q (Enqueued (length q)) (enqueue q t)
  | qs_start q k l :
      q !! k = Some l -> then_state l = TWaiting ->
      queue_before q k = CFulfilled ->
      qstep q (Started k) (<[k := with_then TRunning l]> q)
  | qs_skip q k l err :
      q !! k = Some l -> then_state l = TWaiting ->
      queue_before q k = CRejected err ->
      qstep q (Skipped k) (<[k := with_then (TRejected err) l]> q)
  | qs_complete q k l :
      q !! k = Some l -> then_state l = TRunning ->
      qstep q (Completed k) (<[k := with_then TFulfilled l]> q)
  | qs_fail q k l err :
      q !! k = Some l -> then_state l = TRunning ->
      qstep q (FailedWith k err) (<[k := with_then (TRejected err) l]> q)
  | qs_pass q k l :
      q !! k = Some l -> then_state l = TFulfilled ->
      catch_state l = CPending ->
      qstep q (Passed k) (<[k := with_catch CFulfilled l]> q)
  | qs_warn q k l err :
      q !! k = Some l -> then_state l = TRejected err ->
      catch_state l = CPending ->
      qstep q (Warned k err) (<[k := with_catch CFulfilled l]> q).

(** The runs of a queue from [Promise.resolve()], with what happened. *)
Inductive qrun : list QEvent -> list Link -> Prop :=
  | qrun_nil : qrun [] []
  | qrun_step tr q ev q' : qrun tr q -> qstep q ev q' -> qrun (tr ++ [ev]) q'.

(** The task of link [k] is over: it completed or it failed. *)
Definition task_over (q : list Link) (k : nat) : Prop :=
  exists l, q !! k = Some l /\
    (then_state l = TFulfilled \/ exists err, then_state l = TRejected err).

Definition running (q : list Link) (k : nat) : Prop :=
  exists l, q !! k = Some l /\ then_state l = TRunning.

End TaskQueue.

Arguments Link : clear implicits.
Arguments QEvent : clear implicits.

(** ** The data of the voice manager *)

Abbreviation Ref := nat (only parsing).     (* a session object in the store *)
Abbreviation Conn := nat (only parsing).    (* a [VoiceConnection] of the voice library *)
Abbreviation Player := nat (only parsing).  (* an [AudioPlayer] of the voice library *)

Record VoiceOperationResult : Type := {
  ok : bool;
  message : jsstr;
  res_channelId : option jsstr;
  res_guildId : option jsstr;
}.

(** [ReturnType<typeof resolveAgentRoute>], as far as the manager reads it. *)
Record Route : Type := {
  agentId : jsstr;
  sessionKey : jsstr;
}.

(** The closure [enqueueProcessing] receives: the arguments of the
    [processSegment] call it makes. *)
Record ProcessingTask : Type := {
  seg_wavPath : jsstr;
  seg_userId : jsstr;
  seg_durationSeconds : float;
}.

(** The closure [enqueuePlayback] receives: it plays [ttsResult.audioPath]. *)
Record PlaybackTask : Type := {
  play_audioPath : jsstr;
}.

Record VoiceSessionEntry : Type := {
  guildId : jsstr;
  channelId : jsstr;
  route : Route;
  connection : Conn;
  player : Player;
  playbackQueue : list (Link PlaybackTask);
  processingQueue : list (Link ProcessingTask);
  activeSpeakers : gset jsstr;
}.

Inductive VoiceConnectionStatus : Type :=
  | Signalling | Connecting | Ready | Disconnected | Destroyed.

Inductive AudioPlayerStatus : Type :=
  | Idle | Buffering | Playing | Paused | AutoPaused.

#[global] Instance VoiceConnectionStatus_eq_dec : EqDecision VoiceConnectionStatus.
Proof. solve_decision. Defined.

#[global] Instance AudioPlayerStatus_eq_dec : EqDecision AudioPlayerStatus.
Proof. solve_decision. Defined.

(** A connection of the voice library with the listeners [join] put on it.
    A listener is kept as what its closure captured. *)
Record VoiceConnection : Type := {
  status : VoiceConnectionStatus;
  on_speaking_start : list Ref;   (* [speakingHandler]: the entry *)
  on_disconnected : list jsstr;   (* the guild id, and this connection *)
  on_destroyed : list jsstr;      (* the guild id *)
}.

Record AutoJoinEntry : Type := {
  auto_guildId : jsstr;
  auto_channelId : jsstr;
}.

Record VoiceConfig : Type := {
  enabled : option bool;
  autoJoin_entries : option (list AutoJoinEntry);
}.

Record DiscordAccountConfig : Type := {
  voice : option VoiceConfig;
}.

(** Calls on the collaborators, in the order they are made. *)
Inductive Call : Type :=
  | CallFetchChannel (channel : jsstr)
  | CallJoinVoiceChannel (guild channel : jsstr)
  | CallConnectionDestroy (c : Conn)
  | CallConnectionSubscribe (c : Conn) (p : Player)
  | CallReceiverSubscribe (c : Conn) (user : jsstr)
  | CallPlayerStop (p : Player) (force : bool)
  | CallPlayerPlay (p : Player) (audio : jsstr)
  | CallWriteFile (file : jsstr)
  | CallScheduleTempCleanup (dir : jsstr) (delayMs : Z)
  | CallTranscribe (file : jsstr)
  | CallAgentCommand (prompt session agent : jsstr)
  | CallTextToSpeech (text : jsstr)
  | CallWarn (text : jsstr).

Record State : Type := {
  (* the fields of [DiscordVoiceManager] *)
  sessions : gmap jsstr Ref;
  botUserId : option jsstr;
  voiceEnabled : bool;
  autoJoinTask : bool;               (* whether a run of [autoJoin] is in flight *)
  discordConfig : DiscordAccountConfig;
  (* the objects the manager and its closures hold *)
  store : list VoiceSessionEntry;
  connections : gmap Conn VoiceConnection;
  players : gmap Player AudioPlayerStatus;
  calls : list Call;
}.

Definition set_sessions (f : gmap jsstr Ref -> gmap jsstr Ref) (st : State) : State :=
  {| sessions := f (sessions st); botUserId := botUserId st;
     voiceEnabled := voiceEnabled st; autoJoinTask := autoJoinTask st;
     discordConfig := discordConfig st; store := store st;
     connections := connections st; players := players st; calls := calls st |}.

Definition set_botUserId (id : option jsstr) (st : State) : State :=
  {| sessions := sessions st; botUserId := id;
     voiceEnabled := voiceEnabled st; autoJoinTask := autoJoinTask st;
     discordConfig := discordConfig st; store := store st;
     connections := connections st; players := players st; calls := calls st |}.

Definition set_autoJoinTask (b : bool) (st : State) : State :=
  {| sessions := sessions st; botUserId := botUserId st;
     voiceEnabled := voiceEnabled st; autoJoinTask := b;
     discordConfig := discordConfig st; store := store st;
     connections := connections st; players := players st; calls := calls st |}.

Definition set_store (f : list VoiceSessionEntry -> list VoiceSessionEntry)
  (st : State) : State :=
  {| sessions := sessions st; botUserId := botUserId st;
     voiceEnabled := voiceEnabled st; autoJoinTask := autoJoinTask st;
     discordConfig := discordConfig st; store := f (store st);
     connections := connections st; players := players st; calls := calls st |}.

Definition set_connections
  (f : gmap Conn VoiceConnection -> gmap Conn VoiceConnection) (st : State) : State :=
  {| sessions := sessions st; botUserId := botUserId st;
     voiceEnabled := voiceEnabled st; autoJoinTask := autoJoinTask st;
     discordConfig := discordConfig st; store := store st;
     connections := f (connections st); players := players st; calls := calls st |}.

Definition set_players
  (f : gmap Player AudioPlayerStatus -> gmap Player AudioPlayerStatus) (st : State) : State :=
  {| sessions := sessions st; botUserId := botUserId st;
     voiceEnabled := voiceEnabled st; autoJoinTask := autoJoinTask st;
     discordConfig := discordConfig st; store := store st;
     connections := connections st; players := f (players st); calls := calls st |}.

Definition call (c : Call) (st : State) : State :=
  {| sessions := sessions st; botUserId := botUserId st;
     voiceEnabled := voiceEnabled st; autoJoinTask := autoJoinTask st;
     discordConfig := discordConfig st; store := store st;
     connections := connections st; players := players st; calls := calls st ++ [c] |}.

(** Mutation of a session object through a reference to it. *)
Definition update_entry (r : Ref) (f : VoiceSessionEntry -> VoiceSessionEntry)
  (st : State) : State :=
  set_store (fun s => match s !! r with
                      | Some e => <[r := f e]> s
                      | None => s
                      end) st.

Definition with_activeSpeakers (f : gset jsstr -> gset jsstr) (e : VoiceSessionEntry)
  : VoiceSessionEntry :=
  {| guildId := guildId e; channelId := channelId e; route := route e;
     connection := connection e; player := player e;
     playbackQueue := playbackQueue e; processingQueue := processingQueue e;
     activeSpeakers := f (activeSpeakers e) |}.

Definition with_processingQueue
  (f : list (Link ProcessingTask) -> list (Link ProcessingTask)) (e : VoiceSessionEntry)
  : VoiceSessionEntry :=
  {| guildId := guildId e; channelId := channelId e; route := route e;
     connection := connection e; player := player e;
     playbackQueue := playbackQueue e; processingQueue := f (processingQueue e);
     activeSpeakers := activeSpeakers e |}.

Definition with_playbackQueue
  (f : list (Link PlaybackTask) -> list (Link PlaybackTask)) (e : VoiceSessionEntry)
  : VoiceSessionEntry :=
  {| guildId := guildId e; channelId := channelId e; route := route e;
     connection := connection e; player := player e;
     playbackQueue := f (playbackQueue e); processingQueue := processingQueue e;
     activeSpeakers := activeSpeakers e |}.

(** [Boolean(voice) && voice?.enabled !== false] *)
Definition config_enabled (cfg : DiscordAccountConfig) : bool :=
  match voice cfg with
  | Some v => negb (bool_decide (enabled v = Some false))
  | None => false
  end.

(** [new DiscordVoiceManager(params)] *)
Definition new_manager (cfg : DiscordAccountConfig) (bot : option jsstr) : State :=
  {| sessions := ∅;
     botUserId := bot;
     voiceEnabled := config_enabled cfg;
     autoJoinTask := false;
     discordConfig := cfg;
     store := [];
     connections := ∅;
     players := ∅;
     calls := [] |}.

(** [setBotUserId(id)] *)
Definition setBotUserId (id : option jsstr) (st : State) : State :=
  if truthy_opt id then set_botUserId id st else st.

(** [this.sessions.get(guildId)], with the object the reference names. *)
Definition sessions_get (g : jsstr) (st : State) : option (Ref * VoiceSessionEntry) :=
  match sessions st !! g with
  | Some r =>
      match store st !! r with
      | Some e => Some (r, e)
      | None => None
      end
  | None => None
  end.

(** ** The voice library *)

Definition with_status (s : VoiceConnectionStatus) (c : VoiceConnection) : VoiceConnection :=
  {| status := s; on_speaking_start := on_speaking_start c;
     on_disconnected := on_disconnected c; on_destroyed := on_destroyed c |}.

(** The connection moves to [Destroyed] and its [Destroyed] listeners run at
    once: each does [this.sessions.delete(guildId)].  A connection that is
    unknown or destroyed already emits nothing. *)
Definition connection_destroyed (c : Conn) (st : State) : State :=
  match connections st !! c with
  | Some co =>
      match status co with
      | Destroyed => st
      | _ =>
          let st := set_connections (insert c (with_status Destroyed co)) st in
          foldl (fun st g => set_sessions (delete g) st) st (on_destroyed co)
      end
  | None => st
  end.

(** [connection.destroy()] *)
Definition connection_destroy (c : Conn) (st : State) : State :=
  connection_destroyed c (call (CallConnectionDestroy c) st).

(** [player.stop(force)] *)
Definition player_stop (p : Player) (force : bool) (st : State) : State :=
  set_players (fun ps => match ps !! p with
                         | Some _ => <[p := Idle]> ps
                         | None => ps
                         end)
    (call (CallPlayerStop p force) st).

(** [entry.stop()] *)
Definition stop (entry : VoiceSessionEntry) (st : State) : State :=
  let st := player_stop (player entry) false st in
  connection_destroy (connection entry) st.

Definition conn_live (c : Conn) (st : State) : Prop :=
  exists co, connections st !! c = Some co /\ status co <> Destroyed.

(** A session object is live while its connection is not destroyed: its
    listeners on the connection can still fire. *)
Definition live (r : Ref) (st : State) : Prop :=
  exists e, store st !! r = Some e /\ conn_live (connection e) st.

(** ** leave, join, autoJoin, destroy *)

Definition failure (text : jsstr) : VoiceOperationResult :=
  {| ok := false; message := text; res_channelId := None; res_guildId := None |}.

Record LeaveParams : Type := {
  leave_guildId : jsstr;
  leave_channelId : option jsstr;
}.

(** [leave] has no [await]: it runs in one stretch. *)
Definition leave (params : LeaveParams) (st : State) : VoiceOperationResult * State :=
  let guildId := trim (leave_guildId params) in
  match sessions_get guildId st with
  | None => (failure (str "Not connected to a voice channel."), st)
  | Some (_, entry) =>
      if truthy_opt (leave_channelId params)
         && negb (bool_decide (leave_channelId params = Some (channelId entry)))
      then (failure (str "Not connected to that voice channel."), st)
      else
        let st := stop entry st in
        let st := set_sessions (delete guildId) st in
        ({| ok := true;
            message := str "Left <#" ++ channelId entry ++ str ">.";
            res_channelId := Some (channelId entry);
            res_guildId := Some guildId |}, st)
  end.

(** [ChannelType] is the library's enumeration; the numbers are Discord's. *)
Abbreviation ChannelType := N (only parsing).
Definition GuildVoice : ChannelType := 2%N.
Definition GuildStageVoice : ChannelType := 13%N.

Definition isVoiceChannel (type : ChannelType) : bool :=
  N.eqb type GuildVoice || N.eqb type GuildStageVoice.

(** What [client.fetchChannel] resolves to, as far as [join] looks at it:
    [None] stands for a property that the object does not have. *)
Record ChannelInfo : Type := {
  info_type : option ChannelType;
  info_guildId : option jsstr;
}.

Record JoinParams : Type := {
  join_guildId : jsstr;
  join_channelId : jsstr;
}.

(** A stretch of an [async] function ends the call, or suspends it with
    what the next stretch needs. *)
Inductive Stretch (A W : Type) : Type :=
  | Done (result : Completion A)
  | Await (w : W).
Arguments Done {A W} result.
Arguments Await {A W} w.

(** [join], up to [await this.leave({ guildId })].  [leave] has no [await]
    of its own, so the old session is torn down in this stretch; the call is
    then suspended, and other things can happen before it goes on.  [Await]
    is also the answer when there is no session to leave: the call then goes
    on at once. *)
Definition join_teardown (params : JoinParams) (st : State)
  : Stretch VoiceOperationResult (jsstr * jsstr) * State :=
  if negb (voiceEnabled st) then
    (Done (Returned
       (failure (str "Discord voice is disabled (channels.discord.voice.enabled)."))), st)
  else
    let guildId := trim (join_guildId params) in
    let channelId' := trim (join_channelId params) in
    if negb (truthy guildId) || negb (truthy channelId') then
      (Done (Returned (failure (str "Missing guildId or channelId."))), st)
    else
      let existing := sessions_get guildId st in
      match existing with
      | Some (_, e) =>
          if bool_decide (channelId e = channelId') then
            (Done (Returned
               {| ok := true;
                  message := str "Already connected to <#" ++ channelId' ++ str ">.";
                  res_channelId := Some channelId';
                  res_guildId := Some guildId |}), st)
          else
            let st := snd (leave {| leave_guildId := guildId; leave_channelId := None |} st) in
            (Await (guildId, channelId'), st)
      | None => (Await (guildId, channelId'), st)
      end.

(** [join], from there to [await ... fetchChannel(channelId)]: the request
    is made. *)
Definition join_lookup (channelId : jsstr) (st : State) : State :=
  call (CallFetchChannel channelId) st.

(** [join], up to [await ... fetchChannel(channelId)], when nothing happens
    while the call waits for [this.leave]: [join_teardown], then
    [join_lookup] (see [join_begin_stretches]). *)
Definition join_begin (params : JoinParams) (st : State)
  : Stretch VoiceOperationResult (jsstr * jsstr) * State :=
  if negb (voiceEnabled st) then
    (Done (Returned
       (failure (str "Discord voice is disabled (channels.discord.voice.enabled)."))), st)
  else
    let guildId := trim (join_guildId params) in
    let channelId' := trim (join_channelId params) in
    if negb (truthy guildId) || negb (truthy channelId') then
      (Done (Returned (failure (str "Missing guildId or channelId."))), st)
    else
      let existing := sessions_get guildId st in
      match existing with
      | Some (_, e) =>
          if bool_decide (channelId e = channelId') then
            (Done (Returned
               {| ok := true;
                  message := str "Already connected to <#" ++ channelId' ++ str ">.";
                  res_channelId := Some channelId';
                  res_guildId := Some guildId |}), st)
          else
            let st := snd (leave {| leave_guildId := guildId; leave_channelId := None |} st) in
            (Await (guildId, channelId'),
             call (CallFetchChannel channelId') st)
      | None =>
          (Await (guildId, channelId'),
           call (CallFetchChannel channelId') st)
      end.

(** [joinVoiceChannel] hands out a connection: a new one, or one it has
    already (the library keeps one connection per guild while it lives). *)
Definition joinVoiceChannel (c : Conn) (guild channel : jsstr) (st : State) : State :=
  let st := call (CallJoinVoiceChannel guild channel) st in
  match connections st !! c with
  | Some _ => st
  | None =>
      set_connections
        (insert c {| status := Signalling; on_speaking_start := [];
                     on_disconnected := []; on_destroyed := [] |}) st
  end.

(** [join], from the answer of [fetchChannel] to [await entersState(...)].
    [voicePlugin] is what [client.getPlugin("voice")] gives; [joined] is what
    [joinVoiceChannel] does. *)
Definition join_fetched (guildId channelId : jsstr)
  (fetched : Settled (option ChannelInfo)) (voicePlugin : bool)
  (joined : Completion Conn) (st : State)
  : Stretch VoiceOperationResult Conn * State :=
  let channelInfo := catch_with fetched None in
  match channelInfo with
  | None =>
      (Done (Returned (failure
         (str "Channel " ++ channelId ++ str " is not a voice channel."))), st)
  | Some info =>
      if match info_type info with
         | Some type => negb (isVoiceChannel type)
         | None => false
         end
      then
        (Done (Returned (failure
           (str "Channel " ++ channelId ++ str " is not a voice channel."))), st)
      else
        let channelGuildId := info_guildId info in
        if truthy_opt channelGuildId && negb (bool_decide (channelGuildId = Some guildId))
        then (Done (Returned (failure (str "Voice channel is not in this guild."))), st)
        else if negb voicePlugin
        then (Done (Returned (failure (str "Discord voice plugin is not available."))), st)
        else
          match joined with
          | Threw err => (Done (Threw err), call (CallJoinVoiceChannel guildId channelId) st)
          | Returned c =>
              (Await c, joinVoiceChannel c guildId channelId st)
          end
  end.

Definition set_status (c : Conn) (s : VoiceConnectionStatus) (st : State) : State :=
  set_connections (fun cs => match cs !! c with
                             | Some co => <[c := with_status s co]> cs
                             | None => cs
                             end) st.

Definition add_listeners (c : Conn) (r : Ref) (guild : jsstr) (st : State) : State :=
  set_connections (fun cs =>
    match cs !! c with
    | Some co =>
        <[c := {| status := status co;
                  on_speaking_start := on_speaking_start co ++ [r];
                  on_disconnected := on_disconnected co ++ [guild];
                  on_destroyed := on_destroyed co ++ [guild] |}]> cs
    | None => cs
    end) st.

(** [join], from the outcome of [entersState(connection, Ready, ...)] to the
    end.  The new session object takes the next place of the store, and its
    player, made by [createAudioPlayer()], carries the same number. *)
Definition join_ready (guildId channelId : jsstr) (c : Conn)
  (ready : Settled unit) (route : Route) (st : State)
  : Completion VoiceOperationResult * State :=
  match ready with
  | Rejected err =>
      let st := connection_destroy c st in
      (Returned (failure (str "Failed to join voice channel: " ++ err)), st)
  | Fulfilled _ =>
      let st := set_status c Ready st in
      let r := length (store st) in
      let st := set_players (insert r Idle) st in
      let st := call (CallConnectionSubscribe c r) st in
      let entry :=
        {| guildId := guildId; channelId := channelId; route := route;
           connection := c; player := r;
           playbackQueue := []; processingQueue := [];
           activeSpeakers := ∅ |} in
      let st := set_store (fun s => s ++ [entry]) st in
      let st := add_listeners c r guildId st in
      let st := set_sessions (insert guildId r) st in
      (Returned {| ok := true;
                   message := str "Joined <#" ++ channelId ++ str ">.";
                   res_channelId := Some channelId;
                   res_guildId := Some guildId |}, st)
  end.

(** What the collaborators answer during one call of [join]. *)
Record JoinEnv : Type := {
  fetchChannel_result : Settled (option ChannelInfo);
  getPlugin_result : bool;
  joinVoiceChannel_result : Completion Conn;
  entersState_result : Settled unit;
  resolveAgentRoute_result : Route;
}.

(** [join], run from the call to its end with nothing in between. *)
Definition join (env : JoinEnv) (params : JoinParams) (st : State)
  : Completion VoiceOperationResult * State :=
  match join_begin params st with
  | (Done res, st) => (res, st)
  | (Await (g, ch), st) =>
      match join_fetched g ch (fetchChannel_result env) (getPlugin_result env)
              (joinVoiceChannel_result env) st with
      | (Done res, st) => (res, st)
      | (Await c, st) =>
          join_ready g ch c (entersState_result env) (resolveAgentRoute_result env) st
      end
  end.

(** The loop of [autoJoin]; [env i] answers the [join] made for entry [i]. *)
Fixpoint autoJoin_loop (entries : list AutoJoinEntry) (i : nat)
  (seenGuilds : gset jsstr) (env : nat -> JoinEnv) (st : State) : State :=
  match entries with
  | [] => st
  | entry :: rest =>
      let guildId := trim (auto_guildId entry) in
      if negb (truthy guildId) then autoJoin_loop rest (S i) seenGuilds env st
      else if bool_decide (guildId ∈ seenGuilds) then
        autoJoin_loop rest (S i) seenGuilds env
          (call (CallWarn (str "discord voice: autoJoin has multiple entries for guild "
                           ++ guildId ++ str "; skipping")) st)
      else
        match join (env i) {| join_guildId := auto_guildId entry;
                              join_channelId := auto_channelId entry |} st with
        | (Returned _, st) => autoJoin_loop rest (S i) ({[guildId]} ∪ seenGuilds) env st
        | (Threw _, st) => st
        end
  end.

(** [autoJoin], run from the call to its end with nothing in between. *)
Definition autoJoin (env : nat -> JoinEnv) (st : State) : State :=
  if negb (voiceEnabled st) then st
  else if autoJoinTask st then st
  else
    let entries :=
      match voice (discordConfig st) with
      | Some v => default [] (autoJoin_entries v)
      | None => []
      end in
    let st := set_autoJoinTask true st in
    let st := autoJoin_loop entries 0 ∅ env st in
    set_autoJoinTask false st.

(** [status()].  (A [Map] is visited in insertion order; the order is not
    kept here, only what the list holds.) *)
Definition status_of (st : State) : list VoiceOperationResult :=
  omap (fun gr =>
          match store st !! gr.2 with
          | Some session =>
              Some {| ok := true;
                      message := str "connected: guild " ++ guildId session
                                 ++ str " channel " ++ channelId session;
                      res_channelId := Some (channelId session);
                      res_guildId := Some (guildId session) |}
          | None => None
          end)
       (map_to_list (sessions st)).

(** [destroy()]: the loop visits the entries that are still in the map when
    their turn comes.  (A [Map] is visited in insertion order; the order is
    not kept here.) *)
Definition destroy (st : State) : State :=
  let st :=
    foldl (fun st gr =>
             match sessions st !! gr.1 with
             | Some r =>
                 match store st !! r with
                 | Some entry => stop entry st
                 | None => st
                 end
             | None => st
             end) st (map_to_list (sessions st)) in
  set_sessions (fun _ => ∅) st.

(** ** What the transport does on its own *)

(** The library destroys a connection. *)
Definition on_connection_destroyed (c : Conn) (st : State) : State :=
  connection_destroyed c st.

(** The connection drops: the [Disconnected] listeners start waiting for
    [Signalling] or [Connecting]. *)
Definition on_connection_disconnected (c : Conn) (st : State) : State :=
  match connections st !! c with
  | Some co =>
      match status co with
      | Destroyed => st
      | _ => set_status c Disconnected st
      end
  | None => st
  end.

(** A [Disconnected] listener, from the outcome of its [Promise.race]. *)
Definition disconnected_settled (c : Conn) (guildId : jsstr)
  (recovered : Settled VoiceConnectionStatus) (st : State) : State :=
  match recovered with
  | Fulfilled s => set_status c s st
  | Rejected _ =>
      let st := set_sessions (delete guildId) st in
      connection_destroy c st
  end.

(** The player changes state on its own (a resource starts or ends). *)
Definition on_player_status (p : Player) (s : AudioPlayerStatus) (st : State) : State :=
  set_players (fun ps => match ps !! p with
                         | Some _ => <[p := s]> ps
                         | None => ps
                         end) st.

(** ** Speaker capture *)

Definition enqueueProcessing (r : Ref) (t : ProcessingTask) (st : State) : State :=
  update_entry r (with_processingQueue (fun q => enqueue q t)) st.

Definition enqueuePlayback (r : Ref) (t : PlaybackTask) (st : State) : State :=
  update_entry r (with_playbackQueue (fun q => enqueue q t)) st.

(** What the audio stream of a speaker yields: a chunk ([None] when it is
    not a [Buffer]), or an error that ends the iteration. *)
Inductive StreamItem : Type :=
  | StreamChunk (chunk : option Buffer)
  | StreamError (err : jsstr).

(** [decoder.decode]: [None] stands for a result that is falsy ([null],
    [undefined]), which the test [decoded && ...] passes over; [Some bytes]
    for a result that is not, [bytes] being what [Buffer.from] makes of it:
    the bytes of the [Buffer] the decoder returns (of a [Uint8Array] as
    well).  The source does not ask whether the result is a [Buffer]. *)
Abbreviation Decoder := (Buffer -> Completion (option Buffer)).

Fixpoint decode_loop (decode : Decoder) (items : list StreamItem) (chunks : list Buffer)
  : list Buffer :=
  match items with
  | [] => chunks
  | StreamError _ :: _ => chunks
  | StreamChunk None :: rest => decode_loop decode rest chunks
  | StreamChunk (Some chunk) :: rest =>
      if (length chunk =? 0)%nat then decode_loop decode rest chunks
      else
        match decode chunk with
        | Threw _ => chunks
        | Returned (Some decoded) =>
            if (0 <? length decoded)%nat
            then decode_loop decode rest (chunks ++ [decoded])
            else decode_loop decode rest chunks
        | Returned None => decode_loop decode rest chunks
        end
  end.

(** [decodeOpusStream]: [new OpusDecoder] is outside the [try]. *)
Definition decodeOpusStream (new_decoder : Completion Decoder) (items : list StreamItem)
  : Completion Buffer :=
  let! decode := new_decoder in
  let chunks := decode_loop decode items [] in
  Returned (if (0 <? length chunks)%nat then concat chunks else Buffer_alloc 0).

(** What the file system answers during one [writeWavFile]. *)
Record FsEnv : Type := {
  tmpDir : jsstr;               (* [resolvePreferredOpenClawTmpDir()] *)
  mkdtemp_result : Settled jsstr;
  randomUUID_result : jsstr;
  writeFile_result : Settled unit;
}.

Definition path_join (a b : jsstr) : jsstr := a ++ str "/" ++ b.

Definition writeWavFile (fs : FsEnv) (pcm : Buffer) (st : State)
  : Completion (jsstr * float) * State :=
  match mkdtemp_result fs with
  | Rejected err => (Threw err, st)
  | Fulfilled tempDir =>
      let filePath :=
        path_join tempDir (str "segment-" ++ randomUUID_result fs ++ str ".wav") in
      match buildWavBuffer pcm with
      | Threw err => (Threw err, st)
      | Returned wav =>
          let st := call (CallWriteFile filePath) st in
          match writeFile_result fs with
          | Rejected err => (Threw err, st)
          | Fulfilled _ =>
              let st := call (CallScheduleTempCleanup tempDir (30 * 60 * 1000)) st in
              (Returned (filePath, estimateDurationSeconds pcm), st)
          end
      end
  end.

Definition player_status (p : Player) (st : State) : option AudioPlayerStatus :=
  players st !! p.

(** The [finally] of [handleSpeakingStart]. *)
Definition speaker_done (r : Ref) (userId : jsstr) (st : State) : State :=
  update_entry r (with_activeSpeakers (fun s => s ∖ {[userId]})) st.

(** [handleSpeakingStart(entry, userId)] up to [await decodeOpusStream(stream)],
    when [player.stop(true)] and [receiver.subscribe] return.
    [Done]: the signal is dropped.  [Await]: the capture runs. *)
Definition handleSpeakingStart_begin (r : Ref) (userId : jsstr) (st : State)
  : Stretch unit unit * State :=
  match store st !! r with
  | None => (Done (Returned tt), st)
  | Some entry =>
      if negb (truthy userId) || bool_decide (userId ∈ activeSpeakers entry) then
        (Done (Returned tt), st)
      else if truthy_opt (botUserId st) && bool_decide (Some userId = botUserId st) then
        (Done (Returned tt), st)
      else
        let st := update_entry r (with_activeSpeakers (fun s => s ∪ {[userId]})) st in
        let st :=
          if bool_decide (player_status (player entry) st = Some Playing)
          then player_stop (player entry) true st
          else st in
        let st := call (CallReceiverSubscribe (connection entry) userId) st in
        (Await tt, st)
  end.

(** What the voice library does when the handler calls it before its
    [try]: [entry.player.stop(true)] and [receiver.subscribe] return, or
    throw. *)
Record SubscribeEnv : Type := {
  player_stop_result : Completion unit;
  receiver_subscribe_result : Completion unit;
}.

(** [handleSpeakingStart(entry, userId)] up to [await decodeOpusStream(stream)],
    with what the voice library does.  The speaker is added and the two
    calls are made before the [try]: when one of them throws, the handler
    ends there and its [finally] does not run.  [handleSpeakingStart_begin]
    is the stretch when both return (see [handleSpeakingStart_setup_returns]). *)
Definition handleSpeakingStart_setup (lib : SubscribeEnv) (r : Ref) (userId : jsstr)
  (st : State) : Stretch unit unit * State :=
  match store st !! r with
  | None => (Done (Returned tt), st)
  | Some entry =>
      if negb (truthy userId) || bool_decide (userId ∈ activeSpeakers entry) then
        (Done (Returned tt), st)
      else if truthy_opt (botUserId st) && bool_decide (Some userId = botUserId st) then
        (Done (Returned tt), st)
      else
        let st := update_entry r (with_activeSpeakers (fun s => s ∪ {[userId]})) st in
        let stopped : Completion State :=
          if bool_decide (player_status (player entry) st = Some Playing)
          then
            match player_stop_result lib with
            | Returned _ => Returned (player_stop (player entry) true st)
            | Threw err => Threw err
            end
          else Returned st in
        match stopped with
        | Threw err => (Done (Threw err), call (CallPlayerStop (player entry) true) st)
        | Returned st =>
            let st := call (CallReceiverSubscribe (connection entry) userId) st in
            match receiver_subscribe_result lib with
            | Returned _ => (Await tt, st)
            | Threw err => (Done (Threw err), st)
            end
        end
  end.

(** From the outcome of [decodeOpusStream] to [await writeWavFile(pcm)]. *)
Definition handleSpeakingStart_decoded (r : Ref) (userId : jsstr)
  (decoded : Completion Buffer) (st : State) : Stretch unit Buffer * State :=
  match decoded with
  | Threw err => (Done (Threw err), speaker_done r userId st)
  | Returned pcm =>
      if (length pcm =? 0)%nat
      then (Done (Returned tt), speaker_done r userId st)
      else (Await pcm, st)
  end.

(** From [writeWavFile(pcm)] to the end. *)
Definition handleSpeakingStart_written (r : Ref) (userId : jsstr) (pcm : Buffer)
  (fs : FsEnv) (st : State) : Completion unit * State :=
  match writeWavFile fs pcm st with
  | (Threw err, st) => (Threw err, speaker_done r userId st)
  | (Returned (wavPath, durationSeconds), st) =>
      if PrimFloat.ltb durationSeconds MIN_SEGMENT_SECONDS
      then (Returned tt, speaker_done r userId st)
      else
        let st :=
          enqueueProcessing r
            {| seg_wavPath := wavPath; seg_userId := userId;
               seg_durationSeconds := durationSeconds |} st in
        (Returned tt, speaker_done r userId st)
  end.

(** What the collaborators answer during one capture. *)
Record CaptureEnv : Type := {
  new_decoder : Completion Decoder;
  stream_items : list StreamItem;
  fs_env : FsEnv;
}.

(** The capture once it has begun, to its end. *)
Definition capture (env : CaptureEnv) (r : Ref) (userId : jsstr) (st : State)
  : Completion unit * State :=
  match handleSpeakingStart_decoded r userId
          (decodeOpusStream (new_decoder env) (stream_items env)) st with
  | (Done res, st) => (res, st)
  | (Await pcm, st) => handleSpeakingStart_written r userId pcm (fs_env env) st
  end.

(** [handleSpeakingStart], run from the signal to its end with nothing in
    between, when [player.stop(true)] and [receiver.subscribe] return;
    [handleSpeakingStart_run] below has the other cases as well. *)
Definition handleSpeakingStart (env : CaptureEnv) (r : Ref) (userId : jsstr) (st : State)
  : Completion unit * State :=
  match handleSpeakingStart_begin r userId st with
  | (Done res, st) => (res, st)
  | (Await _, st) => capture env r userId st
  end.

(** [handleSpeakingStart] with what the voice library does, run from the
    signal to its end with nothing in between. *)
Definition handleSpeakingStart_run (lib : SubscribeEnv) (env : CaptureEnv) (r : Ref)
  (userId : jsstr) (st : State) : Completion unit * State :=
  match handleSpeakingStart_setup lib r userId st with
  | (Done res, st) => (res, st)
  | (Await _, st) => capture env r userId st
  end.

(** ** The processing pipeline *)

Record CapabilityOutput : Type := {
  out_kind : jsstr;
  out_text : option jsstr;
}.

Record DiscordUser : Type := {
  globalName : option jsstr;
  username : option jsstr;
}.

Record GuildMember : Type := {
  nickname : option jsstr;
  member_user : option DiscordUser;
}.

(** A payload of the agent: [None] when [text] is not a string. *)
Record AgentPayload : Type := {
  payload_text : option jsstr;
}.

Record TtsDirective : Type := {
  override_ttsText : option jsstr;   (* [directive.overrides.ttsText] *)
  cleanedText : jsstr;
}.

Record TtsResult : Type := {
  success : bool;
  audioPath : option jsstr;
  tts_error : option jsstr;
}.

(** What the collaborators answer during one [processSegment].
    [parseTtsDirectives] is the function of [tts/tts-core], applied to the
    reply text with the model overrides of the configuration. *)
Record SegmentEnv : Type := {
  attachments_length : nat;      (* [normalizeMediaAttachments(ctx).length] *)
  runCapability_result : Settled (list CapabilityOutput);
  fetchMember_result : Settled GuildMember;
  fetchUser_result : Settled DiscordUser;
  agentCommand_result : Settled (option (list AgentPayload));
  parseTtsDirectives : jsstr -> TtsDirective;
  textToSpeech_result : Settled TtsResult;
}.

(** [a ?? b] *)
Definition nullish {A} (a : option A) (b : option A) : option A :=
  match a with
  | Some _ => a
  | None => b
  end.

Definition transcribeAudio (env : SegmentEnv) : Completion (option jsstr) :=
  if (attachments_length env =? 0)%nat then Returned None
  else
    match runCapability_result env with
    | Rejected err => Threw err
    | Fulfilled outputs =>
        let output :=
          find (fun entry => bool_decide (out_kind entry = str "audio.transcription"))
               outputs in
        let text :=
          match output with
          | Some o => trim <$> out_text o
          | None => None
          end in
        Returned (if truthy_opt text then text else None)
    end.

Definition resolveSpeakerLabel (env : SegmentEnv) (userId : jsstr) : jsstr :=
  match fetchMember_result env with
  | Fulfilled member =>
      default userId
        (nullish (nickname member)
           (nullish (member_user member ≫= globalName)
                    (member_user member ≫= username)))
  | Rejected _ =>
      match fetchUser_result env with
      | Fulfilled user => default userId (nullish (globalName user) (username user))
      | Rejected _ => userId
      end
  end.

(** The reply text: the texts that are strings and not blank, joined by a
    line feed, trimmed. *)
Definition replyText_of (payloads : option (list AgentPayload)) : jsstr :=
  trim (join_with [10%N]
          (omap (fun p => match payload_text p with
                          | Some text => if truthy (trim text) then Some text else None
                          | None => None
                          end)
                (default [] payloads))).

Definition speakText_of (directive : TtsDirective) : jsstr :=
  match override_ttsText directive with
  | Some text => text
  | None => trim (cleanedText directive)
  end.

(** [processSegment].  Its only writes to the manager's objects are the
    [enqueuePlayback] at its end, so its stretches are given as one. *)
Definition processSegment (env : SegmentEnv) (r : Ref) (seg : ProcessingTask) (st : State)
  : Completion unit * State :=
  match store st !! r with
  | None => (Returned tt, st)
  | Some entry =>
      let st := call (CallTranscribe (seg_wavPath seg)) st in
      match transcribeAudio env with
      | Threw err => (Threw err, st)
      | Returned transcript =>
          if negb (truthy_opt transcript) then (Returned tt, st)
          else
            let transcript := default [] transcript in
            let speakerLabel := resolveSpeakerLabel env (seg_userId seg) in
            let prompt :=
              if truthy speakerLabel
              then speakerLabel ++ str ": " ++ transcript
              else transcript in
            let st :=
              call (CallAgentCommand prompt (sessionKey (route entry))
                      (agentId (route entry))) st in
            match agentCommand_result env with
            | Rejected err => (Threw err, st)
            | Fulfilled payloads =>
                let replyText := replyText_of payloads in
                if negb (truthy replyText) then (Returned tt, st)
                else
                  let directive := parseTtsDirectives env replyText in
                  let speakText := speakText_of directive in
                  if negb (truthy speakText) then (Returned tt, st)
                  else
                    let st := call (CallTextToSpeech speakText) st in
                    match textToSpeech_result env with
                    | Rejected err => (Threw err, st)
                    | Fulfilled ttsResult =>
                        if negb (success ttsResult) || negb (truthy_opt (audioPath ttsResult))
                        then
                          (Returned tt,
                           call (CallWarn (str "discord voice: TTS failed: "
                                           ++ default (str "unknown error")
                                                (tts_error ttsResult))) st)
                        else
                          (Returned tt,
                           enqueuePlayback r
                             {| play_audioPath := default [] (audioPath ttsResult) |} st)
                    end
            end
      end
  end.

(** The task [processSegment] puts on the playback queue, up to its first
    [await]: [entry.player.play(resource)]. *)
Definition playback_begin (r : Ref) (t : PlaybackTask) (st : State) : State :=
  match store st !! r with
  | None => st
  | Some entry =>
      let st := call (CallPlayerPlay (player entry) (play_audioPath t)) st in
      on_player_status (player entry) Buffering st
  end.

(** ** What can happen to a manager *)

(** One thing that happens: a stretch of a call, a whole call, or something
    the transport, a player or the promise machinery does. *)
Inductive Op : Type :=
  | OpSetBotUserId (id : option jsstr)
  (* calls, run from start to end with nothing in between *)
  | OpJoin (env : JoinEnv) (params : JoinParams)
  | OpLeave (params : LeaveParams)
  | OpAutoJoin (env : nat -> JoinEnv)
  | OpDestroy
  (* the stretches of [join], for calls that overlap or are overtaken by
     an event; [OpJoinBegin] is [OpJoinTeardown] and [OpJoinLookup] with
     nothing in between *)
  | OpJoinBegin (params : JoinParams)
  | OpJoinFetched (guildId channelId : jsstr) (fetched : Settled (option ChannelInfo))
      (voicePlugin : bool) (joined : Completion Conn)
  | OpJoinReady (guildId channelId : jsstr) (c : Conn) (ready : Settled unit)
      (route : Route)
  (* the transport and the players *)
  | OpConnectionDestroyed (c : Conn)
  | OpConnectionDisconnected (c : Conn)
  | OpDisconnectedSettled (c : Conn) (guildId : jsstr)
      (recovered : Settled VoiceConnectionStatus)
  | OpPlayerStatus (p : Player) (s : AudioPlayerStatus)
  (* capture and pipeline *)
  | OpSpeakingBegin (r : Ref) (userId : jsstr)
  | OpSpeakingDecoded (r : Ref) (userId : jsstr) (decoded : Completion Buffer)
  | OpSpeakingWritten (r : Ref) (userId : jsstr) (pcm : Buffer) (fs : FsEnv)
  | OpProcessSegment (env : SegmentEnv) (r : Ref) (seg : ProcessingTask)
  | OpPlaybackBegin (r : Ref) (t : PlaybackTask)
  (* a reaction of the promises of a queue: its links afterwards *)
  | OpProcessingQueue (r : Ref) (q' : list (Link ProcessingTask))
  | OpPlaybackQueue (r : Ref) (q' : list (Link PlaybackTask))
  (* [join] across its wait for [this.leave] *)
  | OpJoinTeardown (params : JoinParams)
  | OpJoinLookup (channelId : jsstr)
  (* the first stretch of a capture, with what the voice library does *)
  | OpSpeakingSetup (lib : SubscribeEnv) (r : Ref) (userId : jsstr).

Definition run (op : Op) (st : State) : State :=
  match op with
  | OpSetBotUserId id => setBotUserId id st
  | OpJoin env params => snd (join env params st)
  | OpLeave params => snd (leave params st)
  | OpAutoJoin env => autoJoin env st
  | OpDestroy => destroy st
  | OpJoinBegin params => snd (join_begin params st)
  | OpJoinFetched g ch fetched plugin joined =>
      snd (join_fetched g ch fetched plugin joined st)
  | OpJoinReady g ch c ready route => snd (join_ready g ch c ready route st)
  | OpConnectionDestroyed c => on_connection_destroyed c st
  | OpConnectionDisconnected c => on_connection_disconnected c st
  | OpDisconnectedSettled c g recovered => disconnected_settled c g recovered st
  | OpPlayerStatus p s => on_player_status p s st
  | OpSpeakingBegin r u => snd (handleSpeakingStart_begin r u st)
  | OpSpeakingDecoded r u decoded => snd (handleSpeakingStart_decoded r u decoded st)
  | OpSpeakingWritten r u pcm fs => snd (handleSpeakingStart_written r u pcm fs st)
  | OpProcessSegment env r seg => snd (processSegment env r seg st)
  | OpPlaybackBegin r t => playback_begin r t st
  | OpProcessingQueue r q' => update_entry r (with_processingQueue (fun _ => q')) st
  | OpPlaybackQueue r q' => update_entry r (with_playbackQueue (fun _ => q')) st
  | OpJoinTeardown params => snd (join_teardown params st)
  | OpJoinLookup ch => join_lookup ch st
  | OpSpeakingSetup lib r u => snd (handleSpeakingStart_setup lib r u st)
  end.

(** An id as [join] keeps it: trimmed and not empty. *)
Definition trimmed (s : jsstr) : Prop := trim s = s /\ s <> [].

Definition has_listener (c : Conn) (g : jsstr) (st : State) : Prop :=
  exists co, connections st !! c = Some co /\
             (g ∈ on_destroyed co \/ g ∈ on_disconnected co).

(** What holds of a stretch that resumes a call: the call has been through
    the stretches before it.  Calls may overlap freely. *)
Definition admissible (op : Op) (st : State) : Prop :=
  match op with
  | OpJoinFetched g ch _ _ _ => voiceEnabled st = true /\ trimmed g /\ trimmed ch
  | OpJoinReady g ch c ready _ =>
      voiceEnabled st = true /\ trimmed g /\ trimmed ch /\
      (forall u, ready = Fulfilled u -> conn_live c st)
  | OpDisconnectedSettled c g recovered =>
      has_listener c g st /\
      (forall s, recovered = Fulfilled s -> s = Signalling \/ s = Connecting)
  | OpProcessingQueue r q' =>
      exists e ev, store st !! r = Some e /\ qstep (processingQueue e) ev q'
  | OpPlaybackQueue r q' =>
      exists e ev, store st !! r = Some e /\ qstep (playbackQueue e) ev q'
  | OpJoinLookup ch => voiceEnabled st = true /\ trimmed ch
  | _ => True
  end.

(** The connections [joinVoiceChannel] hands out during a run of the loop of
    [autoJoin] are new ones. *)
Fixpoint autoJoin_fresh (entries : list AutoJoinEntry) (i : nat)
  (seenGuilds : gset jsstr) (env : nat -> JoinEnv) (st : State) : Prop :=
  match entries with
  | [] => True
  | entry :: rest =>
      let guildId := trim (auto_guildId entry) in
      if negb (truthy guildId) then autoJoin_fresh rest (S i) seenGuilds env st
      else if bool_decide (guildId ∈ seenGuilds) then
        autoJoin_fresh rest (S i) seenGuilds env
          (call (CallWarn (str "discord voice: autoJoin has multiple entries for guild "
                           ++ guildId ++ str "; skipping")) st)
      else
        (forall c, joinVoiceChannel_result (env i) = Returned c ->
                   connections st !! c = None) /\
        match join (env i) {| join_guildId := auto_guildId entry;
                              join_channelId := auto_channelId entry |} st with
        | (Returned _, st) =>
            autoJoin_fresh rest (S i) ({[guildId]} ∪ seenGuilds) env st
        | (Threw _, _) => True
        end
  end.

(** An undisturbed step.  Three things are asked, none of which the code
    enforces:
    - a call of [join] or [autoJoin] runs from start to end before anything
      else happens to the manager: no other call, no event of the transport
      and no timer falls into one of its waits (the stretches on their own
      are not steps);
    - [joinVoiceChannel] hands out a connection it has not handed out
      before;
    - the wait of a [Disconnected] listener ends, by a recovery or by its
      5 s timeout, while its connection is still [Disconnected].  In the
      code the timeout also fires after the connection has been destroyed
      by a later [leave] or [join], and then deletes whatever the registry
      holds for the guild at that time (see [late_timeout_two_live]). *)
Definition undisturbed (op : Op) (st : State) : Prop :=
  match op with
  | OpJoin env _ =>
      forall c, joinVoiceChannel_result env = Returned c -> connections st !! c = None
  | OpAutoJoin env =>
      voiceEnabled st = true -> autoJoinTask st = false ->
      autoJoin_fresh
        (match voice (discordConfig st) with
         | Some v => default [] (autoJoin_entries v)
         | None => []
         end) 0 ∅ env (set_autoJoinTask true st)
  | OpJoinBegin _ | OpJoinFetched _ _ _ _ _ | OpJoinReady _ _ _ _ _
  | OpJoinTeardown _ | OpJoinLookup _ => False
  | OpDisconnectedSettled c g recovered =>
      has_listener c g st /\
      (exists co, connections st !! c = Some co /\ status co = Disconnected) /\
      (forall s, recovered = Fulfilled s -> s = Signalling \/ s = Connecting)
  | OpProcessingQueue r q' =>
      exists e ev, store st !! r = Some e /\ qstep (processingQueue e) ev q'
  | OpPlaybackQueue r q' =>
      exists e ev, store st !! r = Some e /\ qstep (playbackQueue e) ev q'
  | _ => True
  end.

(** The states a manager gets into when every step satisfies [allowed]. *)
Inductive reach (allowed : Op -> State -> Prop) : State -> Prop :=
  | reach_new cfg bot : reach allowed (new_manager cfg bot)
  | reach_run op st : reach allowed st -> allowed op st -> reach allowed (run op st).

Definition reachable : State -> Prop := reach admissible.
Definition reachable_undisturbed : State -> Prop := reach undisturbed.

(** ** Notions the properties are stated with *)

(** A string that does not begin with white space. *)
Definition no_lead (s : jsstr) : Prop :=
  match s with
  | [] => True
  | c :: _ => isWhiteSpace c = false
  end.

(** The 44 bytes of the header, field by field. *)
Definition wav_header (n : Z) : Buffer :=
  list_byte_of_string "RIFF" ++ le_bytes 4 (36 + n)
  ++ list_byte_of_string "WAVE" ++ list_byte_of_string "fmt "
  ++ le_bytes 4 16 ++ le_bytes 2 1 ++ le_bytes 2 2 ++ le_bytes 4 48000
  ++ le_bytes 4 192000 ++ le_bytes 2 4 ++ le_bytes 2 16
  ++ list_byte_of_string "data" ++ le_bytes 4 n.

(** [f] holds of the [fuel] integers from [z] on. *)
Fixpoint all_from (fuel : nat) (z : Z) (f : Z -> bool) : bool :=
  match fuel with
  | O => true
  | S k => f z && all_from k (z + 1) f
  end.

(** The test of [handleSpeakingStart] on a buffer of [n] bytes. *)
Definition below_threshold (n : Z) : bool :=
  PrimFloat.ltb (PrimFloat.div (num n) (num 192000)) MIN_SEGMENT_SECONDS.

Definition then_settled (s : ThenState) : Prop :=
  s = TFulfilled \/ exists err, s = TRejected err.

(** What the [catch] at the end of every link buys: the promise a queue
    holds is never rejected, it is fulfilled only when the task before is
    over, and a task has left [TWaiting] only when every promise before it
    is fulfilled. *)
Definition queue_inv {T} (q : list (Link T)) : Prop :=
  (forall k l, q !! k = Some l ->
     catch_state l = CPending \/ catch_state l = CFulfilled) /\
  (forall k l, q !! k = Some l -> catch_state l = CFulfilled ->
     then_settled (then_state l)) /\
  (forall a k la lk, (a < k)%nat -> q !! a = Some la -> q !! k = Some lk ->
     then_state lk <> TWaiting -> catch_state la = CFulfilled).

(** What the trace remembers of the links. *)
Definition trace_inv {T} (tr : list QEvent) (q : list (Link T)) : Prop :=
  forall k l, q !! k = Some l ->
    (then_state l = TFulfilled -> Completed k ∈ tr) /\
    (forall err, then_state l = TRejected err -> FailedWith k err ∈ tr).

(** A queue that is a run of the promise machinery stays one. *)
Definition queue_rel {T} (q q' : list (Link T)) : Prop :=
  (exists tr, qrun tr q) -> exists tr', qrun tr' q'.

(** What a step keeps of a session object: the fields that are never
    written after [join], and that its queues are runs. *)
Definition entry_same (e e' : VoiceSessionEntry) : Prop :=
  guildId e' = guildId e /\ channelId e' = channelId e /\
  connection e' = connection e /\ player e' = player e /\
  queue_rel (processingQueue e) (processingQueue e') /\
  queue_rel (playbackQueue e) (playbackQueue e').

(** What holds of the registry however calls overlap. *)
Definition wf (st : State) : Prop :=
  voiceEnabled st = config_enabled (discordConfig st) /\
  (forall g r, sessions st !! g = Some r ->
     exists e, store st !! r = Some e /\ guildId e = g) /\
  (forall r e, store st !! r = Some e ->
     voiceEnabled st = true /\ trimmed (guildId e) /\ trimmed (channelId e)) /\
  (forall r e, store st !! r = Some e ->
     (exists tr, qrun tr (processingQueue e)) /\ (exists tr, qrun tr (playbackQueue e))).

(** A step that registers nothing and makes no session object. *)
Definition wf_frame (st st' : State) : Prop :=
  (forall g r, sessions st' !! g = Some r -> sessions st !! g = Some r) /\
  voiceEnabled st' = voiceEnabled st /\
  discordConfig st' = discordConfig st /\
  Forall2 entry_same (store st) (store st').

Definition already_connected (g ch : jsstr) : VoiceOperationResult :=
  {| ok := true;
     message := str "Already connected to <#" ++ ch ++ str ">.";
     res_channelId := Some ch;
     res_guildId := Some g |}.

Definition left_channel (g ch : jsstr) : VoiceOperationResult :=
  {| ok := true;
     message := str "Left <#" ++ ch ++ str ">.";
     res_channelId := Some ch;
     res_guildId := Some g |}.

(** A channel id is given when the argument is a string that is not empty. *)
Definition channel_given (ch : option jsstr) : Prop :=
  exists s, ch = Some s /\ s <> [].

Definition voice_disabled : VoiceOperationResult :=
  failure (str "Discord voice is disabled (channels.discord.voice.enabled).").

Definition missing_ids : VoiceOperationResult :=
  failure (str "Missing guildId or channelId.").

Definition not_a_voice_channel (ch : jsstr) : VoiceOperationResult :=
  failure (str "Channel " ++ ch ++ str " is not a voice channel.").

Definition not_in_this_guild : VoiceOperationResult :=
  failure (str "Voice channel is not in this guild.").

(** The channel is not there, or is not of a voice type. *)
Definition no_voice_channel (fetched : Settled (option ChannelInfo)) : Prop :=
  (exists err, fetched = Rejected err) \/
  fetched = Fulfilled None \/
  (exists info type, fetched = Fulfilled (Some info) /\
     info_type info = Some type /\ isVoiceChannel type = false).

(** The channel is of a voice type (or has none) and belongs to a guild
    other than [g]. *)
Definition channel_of_other_guild (fetched : Settled (option ChannelInfo)) (g : jsstr)
  : Prop :=
  exists info g',
    fetched = Fulfilled (Some info) /\
    (forall type, info_type info = Some type -> isVoiceChannel type = true) /\
    info_guildId info = Some g' /\ g' <> [] /\ g' <> g.

(** The call gets as far as looking the channel up: voice is enabled, both
    ids are there, and the guild is not on that channel already. *)
Definition looks_channel_up (params : JoinParams) (st : State) : Prop :=
  voiceEnabled st = true /\
  trim (join_guildId params) <> [] /\
  trim (join_channelId params) <> [] /\
  forall r e, sessions_get (trim (join_guildId params)) st = Some (r, e) ->
              channelId e <> trim (join_channelId params).

(** The setting [channels.discord.voice] is absent, or says [enabled: false]. *)
Definition voice_disabled_in (cfg : DiscordAccountConfig) : Prop :=
  voice cfg = None \/ exists v, voice cfg = Some v /\ enabled v = Some false.

Definition blank (s : jsstr) : Prop := forallb isWhiteSpace s = true.

(** Speaker [u] is in the active set of session object [r]. *)
Definition capturing (r : nat) (u : jsstr) (st : State) : Prop :=
  exists e, store st !! r = Some e /\ u ∈ activeSpeakers e.

(** The signals [handleSpeakingStart] drops. *)
Definition signal_dropped (u : jsstr) (e : VoiceSessionEntry) (st : State) : Prop :=
  u = [] \/ u ∈ activeSpeakers e \/ botUserId st = Some u.

(** The voice library lets the handler through to its [try]:
    [player.stop(true)], which is called when the player is playing, and
    [receiver.subscribe] return. *)
Definition setup_returns (lib : SubscribeEnv) (e : VoiceSessionEntry) (st : State) : Prop :=
  (players st !! player e = Some Playing -> player_stop_result lib = Returned tt) /\
  receiver_subscribe_result lib = Returned tt.

(** One of the two calls throws [err]: [player.stop(true)], or, after it
    has returned or was not called, [receiver.subscribe]. *)
Definition setup_throws (lib : SubscribeEnv) (e : VoiceSessionEntry) (st : State)
  (err : jsstr) : Prop :=
  (players st !! player e = Some Playing /\ player_stop_result lib = Threw err) \/
  ((players st !! player e = Some Playing -> player_stop_result lib = Returned tt) /\
   receiver_subscribe_result lib = Threw err).

(** The session object [e] with speaker [u] in its active set. *)
Definition with_speaker (u : jsstr) (e : VoiceSessionEntry) : VoiceSessionEntry :=
  with_activeSpeakers (fun s => s ∪ {[u]}) e.


(** A voice library whose [receiver.subscribe] throws. *)
Definition subscribe_fails : SubscribeEnv :=
  {| player_stop_result := Returned tt;
     receiver_subscribe_result := Threw (str "Error: receiver destroyed") |}.

Definition processing_queue_of (r : nat) (st : State) : option (list (Link ProcessingTask)) :=
  processingQueue <$> store st !! r.

Definition playback_queue_of (r : nat) (st : State) : option (list (Link PlaybackTask)) :=
  playbackQueue <$> store st !! r.

Definition is_player_call (c : Call) : bool :=
  match c with
  | CallPlayerStop _ _ | CallPlayerPlay _ _ => true
  | _ => false
  end.

(** Everything [processSegment] asks for before it puts a reply on the
    playback queue. *)
Definition reply_synthesized (env : SegmentEnv) (path : jsstr) : Prop :=
  exists transcript payloads tts,
    transcribeAudio env = Returned (Some transcript) /\ transcript <> [] /\
    agentCommand_result env = Fulfilled payloads /\
    replyText_of payloads <> [] /\
    speakText_of (parseTtsDirectives env (replyText_of payloads)) <> [] /\
    textToSpeech_result env = Fulfilled tts /\
    success tts = true /\ audioPath tts = Some path /\ path <> [].

(** What holds of the registry after undisturbed steps: a live
    session object is the one registered for its guild, a listener on a
    connection belongs to a session object on that connection, and the
    connection of a session object is known. *)
Definition seq_inv (st : State) : Prop :=
  wf st /\
  (forall r e, store st !! r = Some e -> conn_live (connection e) st ->
     sessions st !! guildId e = Some r) /\
  (forall c g, has_listener c g st ->
     exists r e, store st !! r = Some e /\ connection e = c /\ guildId e = g) /\
  (forall r e, store st !! r = Some e -> is_Some (connections st !! connection e)).

(** A step that leaves the registry and the connections alone. *)
Definition quiet (st st' : State) : Prop :=
  sessions st' = sessions st /\ connections st' = connections st /\
  voiceEnabled st' = voiceEnabled st /\ discordConfig st' = discordConfig st /\
  Forall2 entry_same (store st) (store st').

Abbreviation deletes gs st0 := (foldl (fun s g => set_sessions (delete g) s) st0 gs).

(** The loop of [destroy]. *)
Definition destroy_loop (l : list (list N * nat)) (st : State) : State :=
  foldl (fun st gr =>
           match sessions st !! gr.1 with
           | Some r =>
               match store st !! r with
               | Some entry => stop entry st
               | None => st
               end
           | None => st
           end) st l.

(** A connection just handed out: it lives, nothing listens on it, and no
    session object is on it. *)
Definition new_connection (c : nat) (st : State) : Prop :=
  (exists co, connections st !! c = Some co /\ status co <> Destroyed /\
              on_disconnected co = [] /\ on_destroyed co = []) /\
  (forall r e, store st !! r = Some e -> connection e <> c).

Definition example_config : DiscordAccountConfig :=
  {| voice := Some {| enabled := None; autoJoin_entries := None |} |}.

Definition example_route : Route :=
  {| agentId := str "main"; sessionKey := str "agent:main:voice" |}.

Definition voice_channel_of (guild : list N) : ChannelInfo :=
  {| info_type := Some GuildVoice; info_guildId := Some guild |}.

(** The collaborators let the call through and hand out connection [c]. *)
Definition example_join_env (guild : list N) (c : nat) : JoinEnv :=
  {| fetchChannel_result := Fulfilled (Some (voice_channel_of guild));
     getPlugin_result := true;
     joinVoiceChannel_result := Returned c;
     entersState_result := Fulfilled tt;
     resolveAgentRoute_result := example_route |}.

(** The collaborators of a call of [join] for a channel that is not there:
    [fetchChannel] rejects. *)
Definition gone_channel_env : JoinEnv :=
  {| fetchChannel_result := Rejected (str "404");
     getPlugin_result := true;
     joinVoiceChannel_result := Returned 2%nat;
     entersState_result := Fulfilled tt;
     resolveAgentRoute_result := example_route |}.

Definition join_params (guild channel : string) : JoinParams :=
  {| join_guildId := str guild; join_channelId := str channel |}.

(** [join g1 c1] on a new manager. *)
Definition example_joined : State :=
  run (OpJoin (example_join_env (str "g1") 1) (join_params "g1" "c1"))
      (new_manager example_config None).

(** Then [join g1 c2], after the first call has returned. *)
Definition example_rejoined : State :=
  run (OpJoin (example_join_env (str "g1") 2) (join_params "g1" "c2")) example_joined.


(** [join g1 c0]; the connection drops; [join g1 c1], made after the first
    call has returned, tears the session down and makes a new one on
    connection 2; then the 5 s timeout of the [Disconnected] listener of the
    old connection fires. *)
Definition example_late_timeout : State :=
  let st := new_manager example_config None in
  let st := run (OpJoin (example_join_env (str "g1") 1) (join_params "g1" "c0")) st in
  let st := run (OpConnectionDisconnected 1) st in
  let st := run (OpJoin (example_join_env (str "g1") 2) (join_params "g1" "c1")) st in
  run (OpDisconnectedSettled 1 (str "g1") (Rejected (str "timeout"))) st.

(** Session object [r] is live, for guild [g] on channel [ch]. *)
Definition live_session (r : nat) (g ch : list N) (st : State) : Prop :=
  exists e, store st !! r = Some e /\ guildId e = g /\ channelId e = ch /\
            conn_live (connection e) st.

(** The four facts of a run of a queue. *)
Definition runs_in_order {T} (tr : list QEvent) (q : list (Link T)) : Prop :=
  (forall i b, tr !! i = Some (Started b) ->
     forall a, (a < b)%nat ->
     exists j, (j < i)%nat /\
       (tr !! j = Some (Completed a) \/ exists err, tr !! j = Some (FailedWith a err))) /\
  (forall a b, running q a -> running q b -> a = b) /\
  (forall k, Skipped k ∉ tr) /\
  (forall b lb, q !! b = Some lb -> then_state lb = TWaiting ->
     (forall a, (a < b)%nat -> task_over q a) ->
     exists q1 q2,
       (q1 = q \/ exists ev, qstep q ev q1 /\
                   match ev with Passed _ | Warned _ _ => True | _ => False end) /\
       qstep q1 (Started b) q2).

(** A run: two tasks are put on the queue, the first fails and is logged,
    the second starts. *)
Definition example_trace : list QEvent :=
  [Enqueued 0; Enqueued 1; Started 0; FailedWith 0 (str "boom");
   Warned 0 (str "boom"); Started 1].

Definition example_queue : list (Link nat) :=
  [{| task := 10%nat; then_state := TRejected (str "boom"); catch_state := CFulfilled |};
   {| task := 11%nat; then_state := TRunning; catch_state := CPending |}].

(** The collaborators of one [processSegment]: the transcript is "hello",
    the agent replies "hi", the synthesis answers [tts]. *)
Definition example_segment_env (tts : TtsResult) : SegmentEnv :=
  {| attachments_length := 1;
     runCapability_result :=
       Fulfilled [{| out_kind := str "audio.transcription";
                     out_text := Some (str " hello ") |}];
     fetchMember_result := Rejected (str "unknown member");
     fetchUser_result := Rejected (str "unknown user");
     agentCommand_result := Fulfilled (Some [{| payload_text := Some (str "hi") |}]);
     parseTtsDirectives := fun text => {| override_ttsText := None; cleanedText := text |};
     textToSpeech_result := Fulfilled tts |}.

Definition tts_failed : TtsResult :=
  {| success := false; audioPath := None; tts_error := Some (str "quota") |}.

Definition example_segment : ProcessingTask :=
  {| seg_wavPath := str "/tmp/segment.wav"; seg_userId := str "u1";
     seg_durationSeconds := 1%float |}.

Definition disabled_config : DiscordAccountConfig :=
  {| voice := Some {| enabled := Some false; autoJoin_entries := None |} |}.

(** ** More notions, and the callers *)

(** The stream and the decoder let the item through: it is not an error of
    the stream, and [decode] does not throw on it when it is given to it. *)
Definition item_ok (decode : Decoder) (item : StreamItem) : bool :=
  match item with
  | StreamError _ => false
  | StreamChunk None => true
  | StreamChunk (Some chunk) =>
      (length chunk =? 0)%nat ||
      match decode chunk with
      | Returned _ => true
      | Threw _ => false
      end
  end.

(** The bytes an item adds to the capture. *)
Definition decoded_of (decode : Decoder) (item : StreamItem) : Buffer :=
  match item with
  | StreamChunk (Some chunk) =>
      if (length chunk =? 0)%nat then []
      else
        match decode chunk with
        | Returned (Some decoded) => decoded
        | _ => []
        end
  | _ => []
  end.

(** A decoder that fails on the chunk [[x02]] and doubles every other. *)
Definition doubling_decoder : Decoder :=
  fun chunk =>
    match chunk with
    | [x02] => Threw (str "corrupted")
    | _ => Returned (Some (chunk ++ chunk))
    end.

(** The file system lets [writeWavFile] through, in directory [dir]. *)
Definition fs_ok (fs : FsEnv) (dir : jsstr) : Prop :=
  mkdtemp_result fs = Fulfilled dir /\ writeFile_result fs = Fulfilled tt.

(** The name [writeWavFile] gives the file of a segment. *)
Definition segment_file (fs : FsEnv) (dir : jsstr) : jsstr :=
  path_join dir (str "segment-" ++ randomUUID_result fs ++ str ".wav").

Definition example_fs : FsEnv :=
  {| tmpDir := str "/tmp/openclaw";
     mkdtemp_result := Fulfilled (str "/tmp/openclaw/discord-voice-a1");
     randomUUID_result := str "0000";
     writeFile_result := Fulfilled tt |}.

(** [example_joined] while the reply of its session is playing. *)
Definition example_playing : State := run (OpPlayerStatus 0 Playing) example_joined.

(** The task the handler puts on the processing queue for a segment. *)
Definition segment_task (file u : jsstr) (pcm : Buffer) : ProcessingTask :=
  {| seg_wavPath := file; seg_userId := u;
     seg_durationSeconds := estimateDurationSeconds pcm |}.

(** The stretches of the capture of speaker [u] on session object [r]. *)
Definition capture_step (r : nat) (u : jsstr) (op : Op) : Prop :=
  op = OpSpeakingBegin r u \/
  (exists decoded, op = OpSpeakingDecoded r u decoded) \/
  (exists pcm fs, op = OpSpeakingWritten r u pcm fs).

(** A decoder that hands back what it is given. *)
Definition example_decoder : Decoder := fun chunk => Returned (Some chunk).

(** A segment of 67200 bytes: 0.35 s. *)
Definition example_pcm : Buffer := repeat x00 (Z.to_nat 67200).

Definition example_capture : CaptureEnv :=
  {| new_decoder := Returned example_decoder;
     stream_items := [StreamChunk (Some example_pcm)];
     fs_env := example_fs |}.

(** A payload that adds nothing to the reply: its text is not a string, or
    is blank. *)
Definition payload_silent (p : AgentPayload) : Prop :=
  match payload_text p with
  | Some text => blank text
  | None => True
  end.

(** The prompt [processSegment] gives the agent. *)
Definition prompt_of (env : SegmentEnv) (userId transcript : jsstr) : jsstr :=
  let speakerLabel := resolveSpeakerLabel env userId in
  if truthy speakerLabel then speakerLabel ++ str ": " ++ transcript else transcript.

Definition is_agent_call (c : Call) : bool :=
  match c with
  | CallAgentCommand _ _ _ => true
  | _ => false
  end.

Definition is_tts_call (c : Call) : bool :=
  match c with
  | CallTextToSpeech _ => true
  | _ => false
  end.

(** What the trace says of the links: a task that has started has left
    [TWaiting], a task that has failed stays rejected with that error, and
    the [catch] of a rejected task is fulfilled only by the warning. *)
Definition log_inv {T} (tr : list QEvent) (q : list (Link T)) : Prop :=
  (forall k, Started k ∈ tr ->
     exists l, q !! k = Some l /\ then_state l <> TWaiting) /\
  (forall k err, FailedWith k err ∈ tr ->
     exists l, q !! k = Some l /\ then_state l = TRejected err) /\
  (forall k l err, q !! k = Some l -> then_state l = TRejected err ->
     catch_state l = CFulfilled -> Warned k err ∈ tr) /\
  (forall k err, Warned k err ∈ tr -> FailedWith k err ∈ tr) /\
  (forall k, (k < length q)%nat -> Enqueued k ∈ tr).

(** The channel is there, is of a voice type if it has a type, and is of
    guild [g] if it names a guild. *)
Definition channel_accepted (fetched : Settled (option ChannelInfo)) (g : jsstr) : Prop :=
  exists info,
    fetched = Fulfilled (Some info) /\
    (forall type, info_type info = Some type -> isVoiceChannel type = true) /\
    (forall g', info_guildId info = Some g' -> g' = [] \/ g' = g).

Definition joined_channel (g ch : jsstr) : VoiceOperationResult :=
  {| ok := true;
     message := str "Joined <#" ++ ch ++ str ">.";
     res_channelId := Some ch;
     res_guildId := Some g |}.

(** The session object [join] makes. *)
Definition new_session (g ch : jsstr) (route : Route) (c r : nat) : VoiceSessionEntry :=
  {| guildId := g; channelId := ch; route := route;
     connection := c; player := r;
     playbackQueue := []; processingQueue := [];
     activeSpeakers := ∅ |}.

Definition plugin_unavailable : VoiceOperationResult :=
  failure (str "Discord voice plugin is not available.").

Definition failed_to_join (err : jsstr) : VoiceOperationResult :=
  failure (str "Failed to join voice channel: " ++ err).

(** Every session object has its three listeners on its connection. *)
Definition listening (st : State) : Prop :=
  forall r e, store st !! r = Some e ->
    exists co, connections st !! connection e = Some co /\
               r ∈ on_speaking_start co /\
               guildId e ∈ on_disconnected co /\
               guildId e ∈ on_destroyed co.

(** The connection of a registered session is not destroyed. *)
Definition registered_live (st : State) : Prop :=
  forall g r e, sessions st !! g = Some r -> store st !! r = Some e ->
    conn_live (connection e) st.

Definition listening_inv (st : State) : Prop := listening st /\ registered_live st.

(** What [status()] says of a session. *)
Definition connected_result (session : VoiceSessionEntry) : VoiceOperationResult :=
  {| ok := true;
     message := str "connected: guild " ++ guildId session
                ++ str " channel " ++ channelId session;
     res_channelId := Some (channelId session);
     res_guildId := Some (guildId session) |}.

(** The entries [autoJoin] reads: [discordConfig.voice?.autoJoin ?? []]. *)
Definition autoJoin_entries_of (st : State) : list AutoJoinEntry :=
  match voice (discordConfig st) with
  | Some v => default [] (autoJoin_entries v)
  | None => []
  end.

(** The first entry of the list for guild [g]. *)
Definition first_entry_for (g : jsstr) (entries : list AutoJoinEntry)
  : option AutoJoinEntry :=
  find (fun entry => bool_decide (trim (auto_guildId entry) = g)) entries.

(** The session objects of [st] are still there in [st'], with the fields
    [join] gave them. *)
Definition store_extends (st st' : State) : Prop :=
  forall r e, store st !! r = Some e ->
    exists e', store st' !! r = Some e' /\ entry_same e e'.

(** A configuration whose [autoJoin] names guild g1 twice. *)
Definition autoJoin_config : DiscordAccountConfig :=
  {| voice :=
       Some {| enabled := Some true;
               autoJoin_entries :=
                 Some [{| auto_guildId := str "g1"; auto_channelId := str "c1" |};
                       {| auto_guildId := str " g1 "; auto_channelId := str "c2" |}] |} |}.

(** ** The commands ([discord/voice/command.ts]) *)
(** What [authorizeVoiceCommand] resolves to. *)
Record VoiceCommandAccess : Type := {
  access_ok : bool;
  access_message : option jsstr;
  access_guildId : option jsstr;
}.

(** The channel option of the interaction, as far as [JoinCommand] looks at
    it: [None] stands for a property that the object does not have. *)
Record ChannelOption : Type := {
  option_id : option jsstr;
  option_type : ChannelType;
  option_guildId : option jsstr;
}.

Definition isVoiceChannelType (type : ChannelType) : bool :=
  N.eqb type GuildVoice || N.eqb type GuildStageVoice.

(** [access.message ?? "Not authorized."] *)
Definition refusal (access : VoiceCommandAccess) : jsstr :=
  default (str "Not authorized.") (access_message access).

(** [JoinCommand.run]: what it replies, and the manager afterwards.
    [channel] is what [interaction.options.getChannel] resolves to,
    [manager] says whether [getManager()] gives the manager. *)
Definition JoinCommand_run (access : VoiceCommandAccess) (channel : option ChannelOption)
  (manager : bool) (env : JoinEnv) (st : State) : Completion jsstr * State :=
  if negb (access_ok access) then (Returned (refusal access), st)
  else
    match channel with
    | None => (Returned (str "Voice channel not found."), st)
    | Some channel =>
        match option_id channel with
        | None => (Returned (str "Voice channel not found."), st)
        | Some id =>
            if negb (isVoiceChannelType (option_type channel))
            then (Returned (str "That is not a voice channel."), st)
            else
              let guildId := nullish (access_guildId access) (option_guildId channel) in
              if negb (truthy_opt guildId)
              then (Returned (str "Unable to resolve guild for this voice channel."), st)
              else if negb manager
              then (Returned (str "Voice manager is not available yet."), st)
              else
                match join env {| join_guildId := default [] guildId;
                                  join_channelId := id |} st with
                | (Returned result, st) => (Returned (message result), st)
                | (Threw err, st) => (Threw err, st)
                end
        end
    end.

(** [LeaveCommand.run] *)
Definition LeaveCommand_run (access : VoiceCommandAccess) (manager : bool) (st : State)
  : jsstr * State :=
  if negb (access_ok access) then (refusal access, st)
  else
    let guildId := access_guildId access in
    if negb (truthy_opt guildId)
    then (str "Unable to resolve guild for this command.", st)
    else if negb manager then (str "Voice manager is not available yet.", st)
    else
      let (result, st) :=
        leave {| leave_guildId := default [] guildId; leave_channelId := None |} st in
      (message result, st).

(** A template slot for a value that may be [undefined]. *)
Definition shown (s : option jsstr) : jsstr := default (str "undefined") s.

(** The characters the line of a session begins with, as the source has
    them. *)
Definition line_lead : jsstr := [226; 8364; 162]%N.

Definition status_line (entry : VoiceOperationResult) : jsstr :=
  line_lead ++ str " <#" ++ shown (res_channelId entry)
  ++ str "> (guild " ++ shown (res_guildId entry) ++ str ")".

(** [StatusCommand.run] *)
Definition StatusCommand_run (access : VoiceCommandAccess) (manager : bool) (st : State)
  : jsstr :=
  if negb (access_ok access) then refusal access
  else if negb manager then str "Voice manager is not available yet."
  else
    let sessions := status_of st in
    if (length sessions =? 0)%nat then str "No active voice sessions."
    else join_with [10%N] (map status_line sessions).

(** The user may use the command, in guild [g]. *)
Definition authorized_in (access : VoiceCommandAccess) (g : jsstr) : Prop :=
  access_ok access = true /\ access_guildId access = Some g /\ g <> [].

(** A user who may use the commands, in guild g1. *)
Definition example_access : VoiceCommandAccess :=
  {| access_ok := true; access_message := None; access_guildId := Some (str "g1") |}.

(** The operation does not give the manager a bot id: it is not
    [setBotUserId], or it is [setBotUserId] with nothing or the empty
    string. *)
Definition keeps_bot_id (op : Op) : Prop :=
  forall id, op = OpSetBotUserId id -> truthy_opt id = false.

(** The manager after the operations [ops], in that order. *)
Definition run_all (ops : list Op) (st : State) : State :=
  foldl (fun s op => run op s) st ops.

Definition not_connected : VoiceOperationResult :=
  failure (str "Not connected to a voice channel.").

(** * Properties *)

(** *** Strings *)





Lemma trimStart_no_lead s : no_lead (trimStart s).
Proof.
  induction s as [|c s IH]; simpl; [done|].
  destruct (isWhiteSpace c) eqn:E; [exact IH | exact E].
Qed.

Lemma trimStart_id s : no_lead s -> trimStart s = s.
Proof. destruct s as [|c s]; simpl; [done|]. by intros ->. Qed.

Lemma trimStart_suffix s : exists ws, s = ws ++ trimStart s /\ forallb isWhiteSpace ws = true.
Proof.
  induction s as [|c s (ws & E & H)]; simpl.
  - by exists [].
  - destruct (isWhiteSpace c) eqn:Ec.
    + exists (c :: ws). simpl. rewrite Ec, H. split; [by f_equal | done].
    + by exists [].
Qed.

Lemma trimStart_nil s : trimStart s = [] <-> forallb isWhiteSpace s = true.
Proof.
  induction s as [|c s IH]; simpl; [done|].
  destruct (isWhiteSpace c); simpl; [exact IH | done].
Qed.

Lemma trimEnd_prefix s : exists ws, s = trimEnd s ++ ws /\ forallb isWhiteSpace ws = true.
Proof.
  destruct (trimStart_suffix (rev s)) as (ws & E & H).
  exists (rev ws). split.
  - unfold trimEnd. rewrite <- rev_app_distr, <- E. by rewrite rev_involutive.
  - rewrite forallb_forall in *. intros x Hx. apply H. by apply in_rev.
Qed.

Lemma trimEnd_id s : no_lead (rev s) -> trimEnd s = s.
Proof. intros H. unfold trimEnd. rewrite trimStart_id by done. apply rev_involutive. Qed.

Lemma trimEnd_no_trail s : no_lead (rev (trimEnd s)).
Proof. unfold trimEnd. rewrite rev_involutive. apply trimStart_no_lead. Qed.

Lemma trimEnd_no_lead s : no_lead s -> no_lead (trimEnd s).
Proof.
  intros H. destruct (trimEnd_prefix s) as (ws & E & _).
  destruct (trimEnd s) as [|c t]; [done|].
  rewrite E in H. exact H.
Qed.

Lemma trim_idem s : trim (trim s) = trim s.
Proof.
  unfold trim at 1.
  rewrite (trimStart_id (trim s)).
  - apply trimEnd_id. apply trimEnd_no_trail.
  - apply trimEnd_no_lead, trimStart_no_lead.
Qed.

Lemma trimEnd_nil s : no_lead s -> trimEnd s = [] -> s = [].
Proof.
  intros Hl E. destruct (trimEnd_prefix s) as (ws & Es & Hws).
  rewrite E in Es. simpl in Es. subst ws.
  destruct s as [|c s]; [done|]. simpl in *. rewrite Hl in Hws. done.
Qed.

Lemma trim_nil s : trim s = [] <-> forallb isWhiteSpace s = true.
Proof.
  rewrite <- trimStart_nil. split.
  - intros E. apply trimEnd_nil in E; [done | apply trimStart_no_lead].
  - unfold trim. by intros ->.
Qed.

Lemma trimmed_trim s : trim s <> [] -> trimmed (trim s).
Proof. intros H. split; [apply trim_idem | done]. Qed.

Lemma truthy_true s : truthy s = true <-> s <> [].
Proof. by destruct s. Qed.

Lemma truthy_false s : truthy s = false <-> s = [].
Proof. by destruct s. Qed.

Lemma startsWith_app n b : startsWith n (n ++ b) = true.
Proof. induction n as [|a n IH]; simpl; [done|]. by rewrite N.eqb_refl, IH. Qed.

Lemma includes_unfold n h :
  includes n h = startsWith n h || match h with [] => false | _ :: h' => includes n h' end.
Proof. by destruct h. Qed.

Lemma includes_app n a b : includes n (a ++ n ++ b) = true.
Proof.
  induction a as [|x a IH].
  - rewrite includes_unfold. simpl. by rewrite startsWith_app.
  - rewrite includes_unfold. simpl. rewrite IH. apply orb_true_r.
Qed.


(** *** The audio container *)

Lemma Z_of_byte_of_Z z : 0 <= z < 256 -> Z_of_byte (byte_of_Z z) = z.
Proof.
  intros H. unfold Z_of_byte, byte_of_Z.
  destruct (Byte.of_N (Z.to_N z)) as [b|] eqn:E.
  - apply Byte.to_of_N in E. rewrite E. lia.
  - apply Byte.of_N_None_iff in E. lia.
Qed.

Lemma le_bytes_S w v :
  le_bytes (S w) v = byte_of_Z (Z.land v 255) :: le_bytes w (Z.shiftr v 8).
Proof.
  unfold le_bytes. simpl seq. rewrite <- seq_shift. cbn [map]. rewrite map_map. f_equal.
  apply map_ext. intros i. rewrite Z.shiftr_shiftr by lia.
  do 3 f_equal. lia.
Qed.

Lemma le_value_le_bytes w : forall v,
  0 <= v < 2 ^ (8 * Z.of_nat w) -> le_value (le_bytes w v) = v.
Proof.
  induction w as [|w IH]; intros v Hv.
  - simpl in *. lia.
  - rewrite le_bytes_S. simpl le_value.
    change 255 with (Z.ones 8). rewrite Z.land_ones by lia.
    rewrite Z_of_byte_of_Z by (apply Z.mod_pos_bound; lia).
    rewrite Z.shiftr_div_pow2 by lia.
    rewrite IH.
    + change (2 ^ 8) with 256. pose proof (Z.div_mod v 256). lia.
    + replace (8 * Z.of_nat (S w)) with (8 + 8 * Z.of_nat w) in Hv by lia.
      rewrite Z.pow_add_r in Hv by lia. change (2 ^ 8) with 256 in *.
      split; [apply Z.div_pos; lia | apply Z.div_lt_upper_bound; lia].
Qed.

Lemma length_le_bytes w v : length (le_bytes w v) = w.
Proof. unfold le_bytes. by rewrite length_map, length_seq. Qed.

Lemma writeUIntLE_ok w v offset buf :
  0 <= v < 2 ^ (8 * Z.of_nat w) -> (offset + w <= length buf)%nat ->
  writeUIntLE w v offset buf = Returned (splice offset (le_bytes w v) buf).
Proof.
  intros [H1 H2] H3. unfold writeUIntLE.
  apply Z.leb_le in H1. apply Z.ltb_lt in H2. apply Nat.leb_le in H3.
  by rewrite H1, H2, H3.
Qed.

Lemma length_splice offset bytes buf : length (splice offset bytes buf) = length buf.
Proof.
  unfold splice. rewrite !length_app, !length_firstn, length_skipn. lia.
Qed.

Lemma length_buf_write s offset buf : length (buf_write s offset buf) = length buf.
Proof. apply length_splice. Qed.

Ltac write_field w v :=
  rewrite (writeUIntLE_ok w v);
  [ cbn [cbind]
  | first [ simpl; lia | vm_compute; split; [discriminate | reflexivity] ]
  | repeat first [rewrite length_splice | rewrite length_buf_write]; simpl; lia ].

Lemma buildWavBuffer_fits pcm :
  36 + Z.of_nat (length pcm) <= 4294967295 ->
  buildWavBuffer pcm = Returned (wav_header (Z.of_nat (length pcm)) ++ pcm).
Proof.
  intros H. unfold buildWavBuffer.
  set (n := Z.of_nat (length pcm)) in *.
  assert (Hn : 0 <= n) by (subst n; lia).
  clearbody n.
  unfold writeUInt32LE, writeUInt16LE.
  write_field 4%nat (36 + n).
  write_field 4%nat 16.
  write_field 2%nat 1.
  write_field 2%nat CHANNELS.
  write_field 4%nat SAMPLE_RATE.
  write_field 4%nat (SAMPLE_RATE * (CHANNELS * BIT_DEPTH / 8)).
  write_field 2%nat (CHANNELS * BIT_DEPTH / 8).
  write_field 2%nat BIT_DEPTH.
  write_field 4%nat n.
  reflexivity.
Qed.

Lemma length_wav_header n : length (wav_header n) = 44%nat.
Proof. unfold wav_header. by rewrite !length_app, !length_le_bytes. Qed.

Lemma slice_app pre mid post off :
  length pre = off ->
  slice off (off + length mid) (pre ++ mid ++ post) = mid.
Proof.
  intros <-. unfold slice. rewrite drop_app_length.
  replace (length pre + length mid - length pre)%nat with (length mid) by lia.
  apply take_app_length.
Qed.

Lemma readUIntLE_field w v pre post off :
  0 <= v < 2 ^ (8 * Z.of_nat w) -> length pre = off ->
  readUIntLE w off (pre ++ le_bytes w v ++ post) = Some v.
Proof.
  intros Hv Hoff. unfold readUIntLE.
  replace (off + w <=? length (pre ++ le_bytes w v ++ post))%nat with true.
  - rewrite <- (length_le_bytes w v) at 1. rewrite slice_app by done.
    by rewrite le_value_le_bytes.
  - symmetry. apply Nat.leb_le. rewrite !length_app, length_le_bytes. lia.
Qed.

(** C9 (as amended).  For a PCM buffer of N bytes with 36 + N within an
    unsigned 32-bit field, [buildWavBuffer] returns 44 + N bytes: the header
    with "RIFF", chunk size 36 + N, "WAVE", "fmt ", subchunk size 16, format
    tag 1, 2 channels, sample rate 48000, byte rate 192000, block align 4,
    bit depth 16, "data" and the payload length N, then the payload as it
    is.  Reading the payload length back gives N. *)
Theorem buildWavBuffer_container (pcm : Buffer) :
  36 + Z.of_nat (length pcm) <= 4294967295 ->
  exists wav,
    buildWavBuffer pcm = Returned wav /\
    length wav = (44 + length pcm)%nat /\
    slice 0 4 wav = list_byte_of_string "RIFF" /\
    readUInt32LE 4 wav = Some (36 + Z.of_nat (length pcm)) /\
    slice 8 12 wav = list_byte_of_string "WAVE" /\
    slice 12 16 wav = list_byte_of_string "fmt " /\
    readUInt32LE 16 wav = Some 16 /\
    readUInt16LE 20 wav = Some 1 /\
    readUInt16LE 22 wav = Some 2 /\
    readUInt32LE 24 wav = Some 48000 /\
    readUInt32LE 28 wav = Some 192000 /\
    readUInt16LE 32 wav = Some 4 /\
    readUInt16LE 34 wav = Some 16 /\
    slice 36 40 wav = list_byte_of_string "data" /\
    readUInt32LE 40 wav = Some (Z.of_nat (length pcm)) /\
    skipn 44 wav = pcm.
Proof.
  intros H. rewrite buildWavBuffer_fits by done.
  set (n := Z.of_nat (length pcm)) in *.
  assert (Hn : 0 <= n) by (subst n; lia).
  clearbody n.
  eexists. split; [reflexivity|].
  split; [by rewrite length_app, length_wav_header|].
  split; [reflexivity|].
  split.
  { change (wav_header n ++ pcm)
      with (firstn 4 (wav_header n) ++ le_bytes 4 (36 + n) ++ skipn 8 (wav_header n) ++ pcm).
    apply readUIntLE_field; [simpl; lia | reflexivity]. }
  split; [reflexivity|].
  split; [reflexivity|].
  split; [reflexivity|].
  split; [reflexivity|].
  split; [reflexivity|].
  split; [reflexivity|].
  split; [reflexivity|].
  split; [reflexivity|].
  split; [reflexivity|].
  split; [reflexivity|].
  split; [|reflexivity].
  change (wav_header n ++ pcm)
    with (firstn 40 (wav_header n) ++ le_bytes 4 n ++ pcm).
  apply readUIntLE_field; [simpl; lia | reflexivity].
Qed.

Lemma buildWavBuffer_container_witness :
  exists wav, buildWavBuffer [x01; x02; x03; x04] = Returned wav /\
              readUInt32LE 40 wav = Some 4 /\ skipn 44 wav = [x01; x02; x03; x04].
Proof.
  destruct (buildWavBuffer_container [x01; x02; x03; x04]) as (wav & H); [simpl; lia|].
  exists wav. tauto.
Defined.

(** When 36 + N exceeds the chunk size field, the first [writeUInt32LE]
    raises. *)
Lemma buildWavBuffer_too_long pcm :
  4294967295 < 36 + Z.of_nat (length pcm) -> buildWavBuffer pcm = Threw RangeError.
Proof.
  intros H. unfold buildWavBuffer, writeUInt32LE, writeUIntLE at 1.
  replace (36 + Z.of_nat (length pcm) <? 2 ^ (8 * Z.of_nat 4)) with false.
  - by rewrite andb_false_r.
  - symmetry. apply Z.ltb_ge. change (2 ^ (8 * Z.of_nat 4)) with 4294967296. lia.
Qed.

(** C9 as stated fails on a buffer of 4294967260 bytes: nothing is
    returned. *)
Lemma buildWavBuffer_range_error :
  buildWavBuffer (repeat x00 (Z.to_nat 4294967260)) = Threw RangeError.
Proof.
  apply buildWavBuffer_too_long. rewrite repeat_length, Z2Nat.id; lia.
Qed.

(** *** The duration estimate *)

Lemma all_from_spec fuel f : forall z,
  all_from fuel z f = true -> forall k, z <= k < z + Z.of_nat fuel -> f k = true.
Proof.
  induction fuel as [|fuel IH]; intros z H k Hk; [lia|].
  cbn [all_from] in H. apply andb_prop in H as [H1 H2].
  destruct (Z.eq_dec k z) as [->|Hne]; [done|].
  apply (IH (z + 1)); [done | lia].
Qed.

Lemma below_threshold_all : all_from (Z.to_nat 67200) 0 below_threshold = true.
Proof. vm_compute. reflexivity. Qed.

Lemma below_threshold_spec n : 0 <= n < 67200 -> below_threshold n = true.
Proof.
  intros H. apply (all_from_spec _ _ 0 below_threshold_all). rewrite Z2Nat.id; lia.
Qed.

Lemma estimateDurationSeconds_eq pcm :
  estimateDurationSeconds pcm =
  PrimFloat.div (num (Z.of_nat (length pcm))) (num 192000).
Proof. reflexivity. Qed.

Lemma short_duration (n : Z) :
  0 <= n -> (inject_Z n / inject_Z 192000 < 35 # 100)%Q -> n < 67200.
Proof.
  intros Hn H. unfold Qlt, Qdiv, Qmult, Qinv, inject_Z in H. simpl in H. lia.
Qed.

(** *** Task queues *)

Section QueueFacts.
Context {T : Type}.
Implicit Types (q : list (Link T)) (l : Link T).

Lemma lookup_update q k l l' j lj :
  q !! k = Some l -> <[k := l']> q !! j = Some lj ->
  (j = k /\ lj = l') \/ (j <> k /\ q !! j = Some lj).
Proof.
  intros Hk Hj. destruct (decide (j = k)) as [->|Hne].
  - rewrite list_lookup_insert_eq in Hj by (by eapply lookup_lt_Some).
    left. by inversion Hj.
  - rewrite list_lookup_insert_ne in Hj by done. by right.
Qed.

Lemma lookup_enqueue q t j lj :
  enqueue q t !! j = Some lj ->
  q !! j = Some lj \/
  (j = length q /\ lj = {| task := t; then_state := TWaiting; catch_state := CPending |}).
Proof.
  unfold enqueue. intros H. apply lookup_app_Some in H as [H|[H1 H2]]; [by left|].
  right. destruct (j - length q)%nat as [|n] eqn:E; simpl in H2; [|by destruct n].
  inversion H2. split; [lia | done].
Qed.

Lemma queue_before_fulfilled q b lb :
  queue_inv q -> q !! b = Some lb -> queue_before q b = CFulfilled ->
  forall a, (a < b)%nat -> task_over q a.
Proof.
  intros (I1 & I2 & I3) Hb Hq a Hab.
  destruct b as [|b]; [lia|]. simpl in Hq.
  assert (is_Some (q !! b)) as [lb' Hb'].
  { apply lookup_lt_is_Some. apply lookup_lt_Some in Hb. lia. }
  rewrite Hb' in Hq.
  pose proof (I2 _ _ Hb' Hq) as Hs.
  destruct (decide (a = b)) as [->|Hne].
  - exists lb'. split; [done|]. exact Hs.
  - assert (is_Some (q !! a)) as [la Ha].
    { apply lookup_lt_is_Some. apply lookup_lt_Some in Hb. lia. }
    exists la. split; [done|]. apply (I2 _ _ Ha).
    apply (I3 a b la lb'); [lia|done|done|].
    destruct Hs as [->|[e ->]]; done.
Qed.

Lemma queue_inv_nil : queue_inv ([] : list (Link T)).
Proof. repeat split; intros *; by rewrite ?lookup_nil. Qed.

Lemma queue_before_update_then q k l s j :
  q !! k = Some l -> queue_before (<[k := with_then s l]> q) j = queue_before q j.
Proof.
  intros Hk. destruct j as [|j]; [done|]. simpl.
  destruct (decide (j = k)) as [->|Hne].
  - rewrite list_lookup_insert_eq by (by eapply lookup_lt_Some). by rewrite Hk.
  - by rewrite list_lookup_insert_ne.
Qed.

Lemma queue_inv_step q ev q' : queue_inv q -> qstep q ev q' -> queue_inv q'.
Proof.
  intros (I1 & I2 & I3) Hstep.
  assert (Hthen : forall k l s, q !! k = Some l ->
            (s = TWaiting -> then_state l = TWaiting) ->
            (then_state l <> TWaiting \/
             s <> TWaiting -> forall a la, (a < k)%nat -> q !! a = Some la ->
                          catch_state la = CFulfilled) ->
            (catch_state l = CFulfilled -> then_settled s) ->
            queue_inv (<[k := with_then s l]> q)).
  { intros k l s Hk Hw Hc Hs. split; [|split].
    - intros j lj Hj. destruct (lookup_update _ _ _ _ _ _ Hk Hj) as [[-> ->]|[_ Hj']].
      + simpl. eauto.
      + eauto.
    - intros j lj Hj Hcf. destruct (lookup_update _ _ _ _ _ _ Hk Hj) as [[-> ->]|[_ Hj']].
      + simpl in *. eauto.
      + eauto.
    - intros a j la lj Haj Ha Hj Hnw.
      destruct (lookup_update _ _ _ _ _ _ Hk Hj) as [[-> ->]|[Hjk Hj']];
        destruct (lookup_update _ _ _ _ _ _ Hk Ha) as [[-> ->]|[Hak Ha']];
        simpl in *; try lia.
      + eapply Hc; [|done|done]. right. done.
      + eapply (I3 k j l lj); done.
      + eauto. }
  inversion Hstep as [q0 t|q0 k l Hk Hw Hb|q0 k l err Hk Hw Hb|q0 k l Hk Hr
                     |q0 k l err Hk Hr|q0 k l Hk Hf Hc|q0 k l err Hk Hf Hc]; subst.
  - (* enqueue *)
    split; [|split].
    + intros j lj Hj. destruct (lookup_enqueue _ _ _ _ Hj) as [Hj'|[-> ->]]; [eauto|].
      by left.
    + intros j lj Hj Hcf. destruct (lookup_enqueue _ _ _ _ Hj) as [Hj'|[-> ->]]; [eauto|].
      done.
    + intros a j la lj Haj Ha Hj Hnw.
      destruct (lookup_enqueue _ _ _ _ Hj) as [Hj'|[-> ->]]; [|done].
      destruct (lookup_enqueue _ _ _ _ Ha) as [Ha'|[-> ->]]; [eauto|].
      apply lookup_lt_Some in Hj'. lia.
  - (* start *)
    apply Hthen; [done|done| |].
    + intros _ a la Hak Ha.
      destruct (queue_before_fulfilled q k l) with (a := a) as (la' & Ha' & Hs);
        [by repeat split|done|done|done|].
      rewrite Ha in Ha'. inversion Ha'; subst la'.
      destruct k as [|k]; [lia|].
      simpl in Hb. destruct (q !! k) as [lk|] eqn:Ek; [|done].
      destruct (decide (a = k)) as [->|Hne].
      * by rewrite Ek in Ha; inversion Ha; subst.
      * apply (I3 a k la lk); [lia|done|done|].
        pose proof (I2 _ _ Ek Hb) as [E|[e E]]; rewrite E; done.
    + intros Hcf. pose proof (I2 _ _ Hk Hcf) as [E|[e E]]; rewrite E in Hw; done.
  - (* skip: the queue's promise is never rejected *)
    destruct k as [|k]; [done|]. simpl in Hb.
    destruct (q !! k) as [lk|] eqn:Ek; [|done].
    destruct (I1 _ _ Ek) as [E|E]; rewrite E in Hb; done.
  - (* complete *)
    apply Hthen; [done|done| |].
    + intros _ a la Hak Ha. apply (I3 a k la l); [done|done|done|]. by rewrite Hr.
    + intros _. by left.
  - (* fail *)
    apply Hthen; [done|done| |].
    + intros _ a la Hak Ha. apply (I3 a k la l); [done|done|done|]. by rewrite Hr.
    + intros _. right. eauto.
  - (* pass *)
    split; [|split].
    + intros j lj Hj. destruct (lookup_update _ _ _ _ _ _ Hk Hj) as [[-> ->]|[_ Hj']]; [|eauto].
      by right.
    + intros j lj Hj Hcf. destruct (lookup_update _ _ _ _ _ _ Hk Hj) as [[-> ->]|[_ Hj']]; [|eauto].
      simpl. rewrite Hf. by left.
    + intros a j la lj Haj Ha Hj Hnw.
      destruct (lookup_update _ _ _ _ _ _ Hk Ha) as [[-> ->]|[Hak Ha']]; [done|].
      destruct (lookup_update _ _ _ _ _ _ Hk Hj) as [[-> ->]|[Hjk Hj']].
      * simpl in Hnw. eapply (I3 a k la l); done.
      * eapply (I3 a j la lj); done.
  - (* warn *)
    split; [|split].
    + intros j lj Hj. destruct (lookup_update _ _ _ _ _ _ Hk Hj) as [[-> ->]|[_ Hj']]; [|eauto].
      by right.
    + intros j lj Hj Hcf. destruct (lookup_update _ _ _ _ _ _ Hk Hj) as [[-> ->]|[_ Hj']]; [|eauto].
      simpl. rewrite Hf. right. eauto.
    + intros a j la lj Haj Ha Hj Hnw.
      destruct (lookup_update _ _ _ _ _ _ Hk Ha) as [[-> ->]|[Hak Ha']]; [done|].
      destruct (lookup_update _ _ _ _ _ _ Hk Hj) as [[-> ->]|[Hjk Hj']].
      * simpl in Hnw. eapply (I3 a k la l); done.
      * eapply (I3 a j la lj); done.
Qed.

Lemma qrun_inv tr q : qrun tr q -> queue_inv q.
Proof.
  induction 1 as [|tr q ev q' _ IH Hstep]; [apply queue_inv_nil|].
  by eapply queue_inv_step.
Qed.

Lemma qrun_trace_inv tr q : qrun tr q -> trace_inv tr q.
Proof.
  induction 1 as [|tr q ev q' Hrun IH Hstep].
  - intros k l. by rewrite lookup_nil.
  - pose proof (qrun_inv _ _ Hrun) as (I1 & _ & _).
    assert (Hold : forall k l, q !! k = Some l ->
              (then_state l = TFulfilled -> Completed k ∈ tr ++ [ev]) /\
              (forall err, then_state l = TRejected err -> FailedWith k err ∈ tr ++ [ev])).
    { intros k l Hk. destruct (IH k l Hk) as [H1 H2].
      split; [intros; apply elem_of_app; left; auto|].
      intros; apply elem_of_app; left; auto. }
    inversion Hstep as [q0 t|q0 k l Hk Hw Hb|q0 k l err Hk Hw Hb|q0 k l Hk Hr
                       |q0 k l err Hk Hr|q0 k l Hk Hf Hc|q0 k l err Hk Hf Hc]; subst;
      intros j lj Hj.
    + destruct (lookup_enqueue _ _ _ _ Hj) as [Hj'|[-> ->]]; [eauto|]. done.
    + destruct (lookup_update _ _ _ _ _ _ Hk Hj) as [[-> ->]|[_ Hj']]; [done|eauto].
    + destruct k as [|k]; [done|]. simpl in Hb.
      destruct (q !! k) as [lk|] eqn:Ek; [|done].
      destruct (I1 _ _ Ek) as [E|E]; rewrite E in Hb; done.
    + destruct (lookup_update _ _ _ _ _ _ Hk Hj) as [[-> ->]|[_ Hj']]; [|eauto].
      simpl. split; [|done]. intros _. apply elem_of_app. right. by apply list_elem_of_singleton.
    + destruct (lookup_update _ _ _ _ _ _ Hk Hj) as [[-> ->]|[_ Hj']]; [|eauto].
      simpl. split; [done|]. intros e [= ->]. apply elem_of_app. right.
      by apply list_elem_of_singleton.
    + destruct (lookup_update _ _ _ _ _ _ Hk Hj) as [[-> ->]|[_ Hj']]; [|eauto].
      simpl. by apply Hold.
    + destruct (lookup_update _ _ _ _ _ _ Hk Hj) as [[-> ->]|[_ Hj']]; [|eauto].
      simpl. by apply Hold.
Qed.

Lemma qrun_never_skips tr q : qrun tr q -> forall k, Skipped k ∉ tr.
Proof.
  induction 1 as [|tr q ev q' Hrun IH Hstep]; intros k Hin.
  - by apply elem_of_nil in Hin.
  - apply elem_of_app in Hin as [Hin|Hin]; [by eapply IH|].
    apply list_elem_of_singleton in Hin. subst ev.
    pose proof (qrun_inv _ _ Hrun) as (I1 & _ & _).
    inversion Hstep as [| |q0 k0 l err Hk Hw Hb| | | |]; subst.
    destruct k as [|k]; [done|]. simpl in Hb.
    destruct (q !! k) as [lk|] eqn:Ek; [|done].
    destruct (I1 _ _ Ek) as [E|E]; rewrite E in Hb; done.
Qed.

Lemma qrun_started_after tr q :
  qrun tr q ->
  forall i b, tr !! i = Some (Started b) ->
  forall a, (a < b)%nat ->
  exists j, (j < i)%nat /\
    (tr !! j = Some (Completed a) \/ exists err, tr !! j = Some (FailedWith a err)).
Proof.
  induction 1 as [|tr q ev q' Hrun IH Hstep]; intros i b Hi a Hab.
  - by rewrite lookup_nil in Hi.
  - apply lookup_app_Some in Hi as [Hi|[Hlen Hi]].
    + destruct (IH i b Hi a Hab) as (j & Hj & Hev).
      exists j. split; [done|].
      destruct Hev as [Hev|[e Hev]]; [left|right; exists e];
        by apply lookup_app_l_Some.
    + destruct (i - length tr)%nat as [|n] eqn:E; simpl in Hi; [|by destruct n].
      inversion Hi; subst ev.
      inversion Hstep as [|q0 k l Hk Hw Hb| | | | |]; subst.
      destruct (queue_before_fulfilled q b l (qrun_inv _ _ Hrun) Hk Hb a Hab)
        as (la & Ha & Hs).
      destruct (qrun_trace_inv _ _ Hrun a la Ha) as [H1 H2].
      destruct Hs as [Hs|[e Hs]].
      * apply H1, list_elem_of_lookup in Hs as [j Hj].
        exists j. split; [apply lookup_lt_Some in Hj; lia|].
        left. by apply lookup_app_l_Some.
      * apply H2, list_elem_of_lookup in Hs as [j Hj].
        exists j. split; [apply lookup_lt_Some in Hj; lia|].
        right. exists e. by apply lookup_app_l_Some.
Qed.

Lemma qrun_one_running tr q a b :
  qrun tr q -> running q a -> running q b -> a = b.
Proof.
  intros Hrun (la & Ha & Hra) (lb & Hb & Hrb).
  pose proof (qrun_inv _ _ Hrun) as (_ & I2 & I3).
  destruct (Nat.lt_total a b) as [Hlt|[->|Hlt]]; [|done|].
  - assert (Hc : catch_state la = CFulfilled).
    { apply (I3 a b la lb); [done|done|done|]. by rewrite Hrb. }
    destruct (I2 _ _ Ha Hc) as [E|[e E]]; rewrite E in Hra; done.
  - assert (Hc : catch_state lb = CFulfilled).
    { apply (I3 b a lb la); [done|done|done|]. by rewrite Hra. }
    destruct (I2 _ _ Hb Hc) as [E|[e E]]; rewrite E in Hrb; done.
Qed.

(** Once the tasks before it are over, a waiting task can be started after
    at most one reaction of the [catch] before it. *)
Lemma qrun_not_blocked tr q b lb :
  qrun tr q -> q !! b = Some lb -> then_state lb = TWaiting ->
  (forall a, (a < b)%nat -> task_over q a) ->
  exists q1 q2,
    (q1 = q \/ exists ev, qstep q ev q1 /\
                match ev with Passed _ | Warned _ _ => True | _ => False end) /\
    qstep q1 (Started b) q2.
Proof.
  intros Hrun Hb Hw Hover.
  pose proof (qrun_inv _ _ Hrun) as (I1 & I2 & I3).
  destruct b as [|b].
  - exists q, (<[0%nat := with_then TRunning lb]> q). split; [by left|].
    by apply qs_start.
  - destruct (Hover b) as (la & Ha & Hs); [lia|].
    destruct (I1 _ _ Ha) as [Hc|Hc].
    + (* the [catch] of the link before has not reacted yet *)
      assert (Hne : b <> S b) by lia.
      assert (Hb' : forall s, <[b := with_catch s la]> q !! S b = Some lb)
        by (intros; by rewrite list_lookup_insert_ne).
      assert (Hq : queue_before (<[b := with_catch CFulfilled la]> q) (S b) = CFulfilled).
      { simpl. by rewrite list_lookup_insert_eq by (by eapply lookup_lt_Some). }
      exists (<[b := with_catch CFulfilled la]> q).
      eexists. split.
      * right. destruct Hs as [Hs|[e Hs]].
        -- exists (Passed b). split; [by apply qs_pass|done].
        -- exists (Warned b e). split; [by apply qs_warn|done].
      * apply qs_start with (l := lb); [apply Hb'|done|done].
    + exists q. eexists. split; [by left|].
      apply qs_start with (l := lb); [done|done|]. simpl. by rewrite Ha.
Qed.

End QueueFacts.

Lemma qrun_runs_in_order {T} (tr : list QEvent) (q : list (Link T)) :
  qrun tr q -> runs_in_order tr q.
Proof.
  intros Hrun. split; [|split; [|split]].
  - by apply qrun_started_after with (q := q).
  - intros a b. by apply qrun_one_running with (tr := tr).
  - by apply qrun_never_skips with (q := q).
  - intros b lb. by apply qrun_not_blocked with (tr := tr).
Qed.

(** *** The registry, however calls overlap *)

Lemma queue_rel_refl {T} (q : list (Link T)) : queue_rel q q.
Proof. by intros H. Qed.

#[global] Instance entry_same_refl : Reflexive entry_same.
Proof. intros e. repeat split; apply queue_rel_refl. Qed.

#[global] Instance entry_same_trans : Transitive entry_same.
Proof.
  intros a b c (H1 & H2 & H3 & H4 & H5 & H6) (H1' & H2' & H3' & H4' & H5' & H6').
  unfold entry_same. rewrite H1', H2', H3', H4'.
  repeat split; try done; intros H; auto.
Qed.

Lemma wf_frame_refl st : wf_frame st st.
Proof. repeat split; try done. Qed.

Lemma wf_frame_trans st1 st2 st3 :
  wf_frame st1 st2 -> wf_frame st2 st3 -> wf_frame st1 st3.
Proof.
  intros (A1 & A2 & A3 & A4) (B1 & B2 & B3 & B4). repeat split.
  - eauto.
  - congruence.
  - congruence.
  - by etrans.
Qed.

Lemma wf_preserved st st' : wf st -> wf_frame st st' -> wf st'.
Proof.
  intros (W0 & W1 & W2 & W3) (F1 & F2 & F3 & F4). split; [|split; [|split]].
  - congruence.
  - intros g r Hg. destruct (W1 g r (F1 _ _ Hg)) as (e & He & Hge).
    destruct (Forall2_lookup_l _ _ _ _ _ F4 He) as (e' & He' & (E1 & _)).
    exists e'. split; [done | congruence].
  - intros r e' He'.
    destruct (Forall2_lookup_r _ _ _ _ _ F4 He') as (e & He & (E1 & E2 & _)).
    destruct (W2 r e He) as (V & T1 & T2). rewrite F2, E1, E2. done.
  - intros r e' He'.
    destruct (Forall2_lookup_r _ _ _ _ _ F4 He') as (e & He & (_ & _ & _ & _ & Q1 & Q2)).
    destruct (W3 r e He) as [R1 R2]. split; auto.
Qed.

Lemma store_update_same r f (s : list VoiceSessionEntry) :
  (forall e, s !! r = Some e -> entry_same e (f e)) ->
  Forall2 entry_same s (match s !! r with Some e => <[r := f e]> s | None => s end).
Proof.
  intros Hf. destruct (s !! r) as [e|] eqn:E; [|done].
  rewrite <- (list_insert_id s r e) at 1 by done.
  apply Forall2_insert; [done | by apply Hf].
Qed.

Lemma wf_frame_call c st : wf_frame st (call c st).
Proof. repeat split; done. Qed.

Lemma wf_frame_update_entry r f st :
  (forall e, store st !! r = Some e -> entry_same e (f e)) ->
  wf_frame st (update_entry r f st).
Proof. intros Hf. repeat split; try done. by apply store_update_same. Qed.

Lemma wf_frame_set_players f st : wf_frame st (set_players f st).
Proof. repeat split; done. Qed.

Lemma wf_frame_set_connections f st : wf_frame st (set_connections f st).
Proof. repeat split; done. Qed.

Lemma wf_frame_delete g st : wf_frame st (set_sessions (delete g) st).
Proof.
  repeat split; try done. simpl. intros g' r H.
  apply lookup_delete_Some in H. tauto.
Qed.

Lemma wf_frame_clear st : wf_frame st (set_sessions (fun _ => ∅) st).
Proof. repeat split; try done. Qed.

Lemma wf_frame_deletes gs : forall st,
  wf_frame st (foldl (fun st g => set_sessions (delete g) st) st gs).
Proof.
  induction gs as [|g gs IH]; intros st; simpl; [apply wf_frame_refl|].
  eapply wf_frame_trans; [apply wf_frame_delete | apply IH].
Qed.

Lemma wf_frame_connection_destroyed c st : wf_frame st (connection_destroyed c st).
Proof.
  unfold connection_destroyed.
  destruct (connections st !! c) as [co|]; [|apply wf_frame_refl].
  destruct (status co);
    try (eapply wf_frame_trans; [apply wf_frame_set_connections | apply wf_frame_deletes]).
  apply wf_frame_refl.
Qed.

Lemma wf_frame_player_stop p force st : wf_frame st (player_stop p force st).
Proof.
  unfold player_stop.
  eapply wf_frame_trans; [apply wf_frame_call | apply wf_frame_set_players].
Qed.

Lemma wf_frame_connection_destroy c st : wf_frame st (connection_destroy c st).
Proof.
  unfold connection_destroy.
  eapply wf_frame_trans; [apply wf_frame_call | apply wf_frame_connection_destroyed].
Qed.

Lemma wf_frame_stop e st : wf_frame st (stop e st).
Proof.
  unfold stop.
  eapply wf_frame_trans; [apply wf_frame_player_stop | apply wf_frame_connection_destroy].
Qed.

Lemma wf_frame_leave params st : wf_frame st (snd (leave params st)).
Proof.
  unfold leave. destruct (sessions_get _ st) as [[r e]|]; [|apply wf_frame_refl].
  destruct (_ && _); simpl; [apply wf_frame_refl|].
  eapply wf_frame_trans; [apply wf_frame_stop | apply wf_frame_delete].
Qed.

Lemma wf_frame_join_begin params st : wf_frame st (snd (join_begin params st)).
Proof.
  unfold join_begin.
  destruct (negb (voiceEnabled st)); [apply wf_frame_refl|].
  destruct (_ || _); [apply wf_frame_refl|].
  destruct (sessions_get _ st) as [[r e]|]; [|apply wf_frame_call].
  destruct (bool_decide _); [apply wf_frame_refl|]. simpl.
  eapply wf_frame_trans; [apply wf_frame_leave | apply wf_frame_call].
Qed.


Lemma wf_frame_join_teardown params st : wf_frame st (snd (join_teardown params st)).
Proof.
  unfold join_teardown.
  destruct (negb (voiceEnabled st)); [apply wf_frame_refl|].
  destruct (_ || _); [apply wf_frame_refl|].
  destruct (sessions_get _ st) as [[r e]|]; [|apply wf_frame_refl].
  destruct (bool_decide _); [apply wf_frame_refl|]. simpl.
  apply wf_frame_leave.
Qed.

Lemma wf_frame_joinVoiceChannel c g ch st : wf_frame st (joinVoiceChannel c g ch st).
Proof.
  unfold joinVoiceChannel. simpl.
  destruct (connections st !! c); [apply wf_frame_call|].
  eapply wf_frame_trans; [apply wf_frame_call | apply wf_frame_set_connections].
Qed.

Lemma wf_frame_join_fetched g ch fetched plugin joined st :
  wf_frame st (snd (join_fetched g ch fetched plugin joined st)).
Proof.
  unfold join_fetched.
  destruct (catch_with fetched None) as [info|]; [|apply wf_frame_refl].
  destruct (match info_type info with Some _ => _ | None => _ end); [apply wf_frame_refl|].
  destruct (_ && _); [apply wf_frame_refl|].
  destruct (negb plugin); [apply wf_frame_refl|].
  destruct joined; [apply wf_frame_joinVoiceChannel | apply wf_frame_call].
Qed.

Lemma wf_frame_set_status c s st : wf_frame st (set_status c s st).
Proof. apply wf_frame_set_connections. Qed.

Lemma wf_frame_destroy st : wf_frame st (destroy st).
Proof.
  unfold destroy.
  eapply wf_frame_trans; [|apply wf_frame_clear].
  generalize (map_to_list (sessions st)). intros l. revert st.
  induction l as [|gr l IH]; intros st; simpl; [apply wf_frame_refl|].
  eapply wf_frame_trans; [|apply IH].
  destruct (sessions st !! gr.1) as [r|]; [|apply wf_frame_refl].
  destruct (store st !! r) as [e|]; [apply wf_frame_stop | apply wf_frame_refl].
Qed.

Lemma wf_frame_on_connection_disconnected c st :
  wf_frame st (on_connection_disconnected c st).
Proof.
  unfold on_connection_disconnected.
  destruct (connections st !! c) as [co|]; [|apply wf_frame_refl].
  destruct (status co); try apply wf_frame_set_status. apply wf_frame_refl.
Qed.

Lemma wf_frame_disconnected_settled c g recovered st :
  wf_frame st (disconnected_settled c g recovered st).
Proof.
  unfold disconnected_settled. destruct recovered; [apply wf_frame_set_status|].
  eapply wf_frame_trans; [apply wf_frame_delete | apply wf_frame_connection_destroy].
Qed.

Lemma wf_frame_on_player_status p s st : wf_frame st (on_player_status p s st).
Proof. apply wf_frame_set_players. Qed.

Lemma entry_same_activeSpeakers f e : entry_same e (with_activeSpeakers f e).
Proof. repeat split; apply queue_rel_refl. Qed.

Lemma queue_rel_enqueue {T} (q : list (Link T)) t : queue_rel q (enqueue q t).
Proof. intros [tr Hrun]. eexists. eapply qrun_step; [done | apply qs_enqueue]. Qed.

Lemma queue_rel_step {T} (q q' : list (Link T)) ev : qstep q ev q' -> queue_rel q q'.
Proof. intros Hstep [tr Hrun]. eexists. by eapply qrun_step. Qed.

Lemma entry_same_processingQueue f e :
  queue_rel (processingQueue e) (f (processingQueue e)) ->
  entry_same e (with_processingQueue f e).
Proof. intros H. repeat split; [exact H | apply queue_rel_refl]. Qed.

Lemma entry_same_playbackQueue f e :
  queue_rel (playbackQueue e) (f (playbackQueue e)) ->
  entry_same e (with_playbackQueue f e).
Proof. intros H. repeat split; [apply queue_rel_refl | exact H]. Qed.

Lemma wf_frame_speaker_done r u st : wf_frame st (speaker_done r u st).
Proof. apply wf_frame_update_entry. intros e _. apply entry_same_activeSpeakers. Qed.

Lemma wf_frame_speaking_begin r u st :
  wf_frame st (snd (handleSpeakingStart_begin r u st)).
Proof.
  unfold handleSpeakingStart_begin.
  destruct (store st !! r) as [e|]; [|apply wf_frame_refl].
  destruct (_ || _); [apply wf_frame_refl|].
  destruct (_ && _); [apply wf_frame_refl|]. simpl.
  eapply wf_frame_trans; [|apply wf_frame_call].
  eapply wf_frame_trans;
    [apply wf_frame_update_entry; intros e0 _; apply entry_same_activeSpeakers|].
  destruct (bool_decide _); [apply wf_frame_player_stop | apply wf_frame_refl].
Qed.

Lemma wf_frame_speaking_setup lib r u st :
  wf_frame st (snd (handleSpeakingStart_setup lib r u st)).
Proof.
  unfold handleSpeakingStart_setup.
  destruct (store st !! r) as [e|]; [|apply wf_frame_refl].
  destruct (_ || _); [apply wf_frame_refl|].
  destruct (_ && _); [apply wf_frame_refl|]. cbv zeta.
  eapply wf_frame_trans;
    [apply wf_frame_update_entry; intros e0 _; apply entry_same_activeSpeakers|].
  destruct (bool_decide _); [destruct (player_stop_result lib)|];
    try (destruct (receiver_subscribe_result lib)); simpl;
    repeat first [apply wf_frame_call
                 | eapply wf_frame_trans; [|apply wf_frame_call]
                 | apply wf_frame_player_stop
                 | apply wf_frame_refl].
Qed.

Lemma wf_frame_speaking_decoded r u decoded st :
  wf_frame st (snd (handleSpeakingStart_decoded r u decoded st)).
Proof.
  unfold handleSpeakingStart_decoded. destruct decoded as [pcm|err]; simpl.
  - destruct (length pcm =? 0)%nat; simpl; [apply wf_frame_speaker_done | apply wf_frame_refl].
  - apply wf_frame_speaker_done.
Qed.

Lemma wf_frame_writeWavFile fs pcm st : wf_frame st (snd (writeWavFile fs pcm st)).
Proof.
  unfold writeWavFile. destruct (mkdtemp_result fs); [|apply wf_frame_refl].
  destruct (buildWavBuffer pcm); [|apply wf_frame_refl].
  destruct (writeFile_result fs); simpl; [|apply wf_frame_call].
  eapply wf_frame_trans; apply wf_frame_call.
Qed.

Lemma wf_frame_speaking_written r u pcm fs st :
  wf_frame st (snd (handleSpeakingStart_written r u pcm fs st)).
Proof.
  unfold handleSpeakingStart_written.
  pose proof (wf_frame_writeWavFile fs pcm st) as H.
  destruct (writeWavFile fs pcm st) as [[[path d]|err] st1]; simpl in *.
  - destruct (PrimFloat.ltb d MIN_SEGMENT_SECONDS); simpl.
    + eapply wf_frame_trans; [exact H | apply wf_frame_speaker_done].
    + eapply wf_frame_trans; [exact H|].
      eapply wf_frame_trans; [|apply wf_frame_speaker_done].
      apply wf_frame_update_entry. intros e _.
      apply entry_same_processingQueue, queue_rel_enqueue.
  - eapply wf_frame_trans; [exact H | apply wf_frame_speaker_done].
Qed.

Lemma wf_frame_processSegment env r seg st :
  wf_frame st (snd (processSegment env r seg st)).
Proof.
  unfold processSegment.
  destruct (store st !! r) as [e|]; [|apply wf_frame_refl].
  destruct (transcribeAudio env) as [transcript|]; [|apply wf_frame_call].
  destruct (negb (truthy_opt transcript)); [apply wf_frame_call|].
  destruct (agentCommand_result env) as [payloads|];
    [|eapply wf_frame_trans; apply wf_frame_call].
  destruct (negb (truthy (replyText_of payloads)));
    [eapply wf_frame_trans; apply wf_frame_call|].
  destruct (negb (truthy _));
    [eapply wf_frame_trans; apply wf_frame_call|].
  destruct (textToSpeech_result env) as [tts|]; simpl;
    [|eapply wf_frame_trans; [eapply wf_frame_trans|]; apply wf_frame_call].
  destruct (_ || _); simpl.
  - repeat (eapply wf_frame_trans; [|apply wf_frame_call]). apply wf_frame_refl.
  - eapply wf_frame_trans;
      [|apply wf_frame_update_entry; intros e0 _;
        apply entry_same_playbackQueue, queue_rel_enqueue].
    repeat (eapply wf_frame_trans; [|apply wf_frame_call]). apply wf_frame_refl.
Qed.

Lemma wf_frame_playback_begin r t st : wf_frame st (playback_begin r t st).
Proof.
  unfold playback_begin. destruct (store st !! r) as [e|]; [|apply wf_frame_refl].
  eapply wf_frame_trans; [apply wf_frame_call | apply wf_frame_on_player_status].
Qed.

Lemma wf_frame_setBotUserId id st : wf_frame st (setBotUserId id st).
Proof. unfold setBotUserId. destruct (truthy_opt id); repeat split; done. Qed.

(** What a call of [join] has checked when it looks the channel up. *)
Lemma join_begin_await params st g ch st1 :
  join_begin params st = (Await (g, ch), st1) ->
  voiceEnabled st = true /\ g = trim (join_guildId params) /\
  ch = trim (join_channelId params) /\ trimmed g /\ trimmed ch.
Proof.
  unfold join_begin. destruct (voiceEnabled st); simpl; [|done].
  destruct (truthy (trim (join_guildId params))) eqn:Eg; simpl; [|done].
  destruct (truthy (trim (join_channelId params))) eqn:Ec; simpl; [|done].
  apply truthy_true in Eg, Ec.
  intros H.
  assert (g = trim (join_guildId params) /\ ch = trim (join_channelId params)) as [-> ->].
  { destruct (sessions_get _ st) as [[r e]|]; [destruct (bool_decide _)|];
      by inversion H. }
  repeat split; try done; apply trim_idem.
Qed.

Lemma wf_join_ready g ch c ready route st :
  wf st -> voiceEnabled st = true -> trimmed g -> trimmed ch ->
  wf (snd (join_ready g ch c ready route st)).
Proof.
  intros Hwf Hv Hg Hch. unfold join_ready. destruct ready as [[]|err]; simpl.
  2:{ eapply wf_preserved; [done | apply wf_frame_connection_destroy]. }
  destruct Hwf as (W0 & W1 & W2 & W3). split; [|split; [|split]]; simpl.
  - done.
  - intros g' r H. apply lookup_insert_Some in H as [[<- <-]|[Hne H]].
    + eexists. split; [apply list_lookup_middle; done|done].
    + destruct (W1 g' r H) as (e & He & Hge). exists e. split; [|done].
      by apply lookup_app_l_Some.
  - intros r e H. apply lookup_app_Some in H as [H|[H1 H2]]; [by apply (W2 r e)|].
    destruct (r - length (store st))%nat; simpl in H2; [|by destruct n].
    inversion H2; subst e. simpl. done.
  - intros r e H. apply lookup_app_Some in H as [H|[H1 H2]]; [by apply (W3 r e)|].
    destruct (r - length (store st))%nat; simpl in H2; [|by destruct n].
    inversion H2; subst e. simpl. split; exists []; apply qrun_nil.
Qed.

Lemma wf_join env params st : wf st -> wf (snd (join env params st)).
Proof.
  intros Hwf. unfold join.
  pose proof (wf_frame_join_begin params st) as F1.
  destruct (join_begin params st) as [[res|[g ch]] st1] eqn:E1; simpl in *.
  - by eapply wf_preserved.
  - apply join_begin_await in E1 as (Hv & _ & _ & Hg & Hch).
    assert (Hwf1 : wf st1) by (by eapply wf_preserved).
    assert (Hv1 : voiceEnabled st1 = true) by (destruct F1 as (_ & -> & _); done).
    pose proof (wf_frame_join_fetched g ch (fetchChannel_result env)
                  (getPlugin_result env) (joinVoiceChannel_result env) st1) as F2.
    destruct (join_fetched _ _ _ _ _ st1) as [[res|c] st2]; simpl in *.
    + by eapply wf_preserved.
    + apply wf_join_ready; [by eapply wf_preserved | | done | done].
      destruct F2 as (_ & -> & _); done.
Qed.

Lemma wf_autoJoin_loop env entries : forall i seen st,
  wf st -> wf (autoJoin_loop entries i seen env st).
Proof.
  induction entries as [|entry rest IH]; intros i seen st Hwf; simpl; [done|].
  destruct (negb (truthy _)); [by apply IH|].
  destruct (bool_decide _).
  - apply IH. eapply wf_preserved; [done | apply wf_frame_call].
  - pose proof (wf_join (env i) {| join_guildId := auto_guildId entry;
                                   join_channelId := auto_channelId entry |} st Hwf) as H.
    destruct (join _ _ st) as [[res|err] st1]; simpl in *; [by apply IH | done].
Qed.

Lemma wf_set_autoJoinTask b st : wf st -> wf (set_autoJoinTask b st).
Proof. intros H. eapply wf_preserved; [done|]. repeat split; done. Qed.

Lemma wf_autoJoin env st : wf st -> wf (autoJoin env st).
Proof.
  intros Hwf. unfold autoJoin.
  destruct (negb (voiceEnabled st)); [done|].
  destruct (autoJoinTask st); [done|].
  apply wf_set_autoJoinTask, wf_autoJoin_loop, wf_set_autoJoinTask, Hwf.
Qed.

Lemma wf_new_manager cfg bot : wf (new_manager cfg bot).
Proof.
  split; [done|]. split; [|split].
  - intros g r H. simpl in H. by rewrite lookup_empty in H.
  - intros r e H. simpl in H. by rewrite lookup_nil in H.
  - intros r e H. simpl in H. by rewrite lookup_nil in H.
Qed.

Lemma wf_run op st : wf st -> admissible op st -> wf (run op st).
Proof.
  intros Hwf Hadm. destruct op; simpl in *.
  - eapply wf_preserved; [done | apply wf_frame_setBotUserId].
  - by apply wf_join.
  - eapply wf_preserved; [done | apply wf_frame_leave].
  - by apply wf_autoJoin.
  - eapply wf_preserved; [done | apply wf_frame_destroy].
  - eapply wf_preserved; [done | apply wf_frame_join_begin].
  - eapply wf_preserved; [done | apply wf_frame_join_fetched].
  - destruct Hadm as (Hv & Hg & Hch & _). by apply wf_join_ready.
  - eapply wf_preserved; [done | apply wf_frame_connection_destroyed].
  - eapply wf_preserved; [done | apply wf_frame_on_connection_disconnected].
  - eapply wf_preserved; [done | apply wf_frame_disconnected_settled].
  - eapply wf_preserved; [done | apply wf_frame_on_player_status].
  - eapply wf_preserved; [done | apply wf_frame_speaking_begin].
  - eapply wf_preserved; [done | apply wf_frame_speaking_decoded].
  - eapply wf_preserved; [done | apply wf_frame_speaking_written].
  - eapply wf_preserved; [done | apply wf_frame_processSegment].
  - eapply wf_preserved; [done | apply wf_frame_playback_begin].
  - destruct Hadm as (e & ev & He & Hstep).
    eapply wf_preserved; [done|]. apply wf_frame_update_entry.
    intros e' He'. rewrite He in He'. inversion He'; subst e'.
    apply entry_same_processingQueue. by eapply queue_rel_step.
  - destruct Hadm as (e & ev & He & Hstep).
    eapply wf_preserved; [done|]. apply wf_frame_update_entry.
    intros e' He'. rewrite He in He'. inversion He'; subst e'.
    apply entry_same_playbackQueue. by eapply queue_rel_step.
  - eapply wf_preserved; [done | apply wf_frame_join_teardown].
  - eapply wf_preserved; [done | apply wf_frame_call].
  - eapply wf_preserved; [done | apply wf_frame_speaking_setup].
Qed.

Lemma reachable_wf st : reachable st -> wf st.
Proof.
  induction 1 as [cfg bot|op st _ IH Hadm]; [apply wf_new_manager | by apply wf_run].
Qed.

(** *** What the manager answers *)

Lemma sessions_get_Some g st r e :
  sessions_get g st = Some (r, e) <-> sessions st !! g = Some r /\ store st !! r = Some e.
Proof.
  unfold sessions_get. split.
  - destruct (sessions st !! g) as [r'|]; [|done].
    destruct (store st !! r') as [e'|] eqn:E; [|done]. by intros [= <- <-].
  - by intros [-> ->].
Qed.

Lemma sessions_get_None g st :
  wf st -> sessions_get g st = None -> sessions st !! g = None.
Proof.
  intros (_ & W1 & _). unfold sessions_get.
  destruct (sessions st !! g) as [r|] eqn:E; [|done].
  destruct (W1 g r E) as (e & -> & _). done.
Qed.

Lemma registered_facts st g r e :
  wf st -> sessions_get g st = Some (r, e) ->
  voiceEnabled st = true /\ guildId e = g /\ trimmed g /\ trimmed (channelId e).
Proof.
  intros (_ & W1 & W2 & _) H. apply sessions_get_Some in H as [Hs He].
  destruct (W1 g r Hs) as (e' & He' & Hg). rewrite He in He'. inversion He'; subst e'.
  destruct (W2 r e He) as (V & T1 & T2). rewrite Hg in T1. done.
Qed.

(** C3.  A call of [join] for a guild whose session is on that very channel
    returns success and changes nothing: the state after it, with the
    registry, the session objects, the connections, the players and the list
    of calls made on the collaborators, is the state before it. *)
Theorem join_same_channel_no_effect (st : State) (env : JoinEnv) (g ch : jsstr) r e :
  reachable st ->
  sessions_get g st = Some (r, e) ->
  channelId e = ch ->
  join env {| join_guildId := g; join_channelId := ch |} st
  = (Returned (already_connected g ch), st) /\
  ok (already_connected g ch) = true.
Proof.
  intros Hreach Hget Hch. split; [|done].
  destruct (registered_facts st g r e (reachable_wf _ Hreach) Hget)
    as (Hv & Hg & [Tg Ng] & [Tc Nc]).
  rewrite Hch in Tc, Nc.
  unfold join, join_begin. simpl. rewrite Hv, Tg, Tc. simpl.
  apply truthy_true in Ng, Nc. rewrite Ng, Nc. simpl.
  rewrite Hget. rewrite bool_decide_true by done. done.
Qed.

(** *** leave *)

Lemma truthy_opt_given ch : truthy_opt ch = true <-> channel_given ch.
Proof.
  destruct ch as [[|c s]|]; simpl; split; try done.
  - intros (s & [= <-] & H). done.
  - intros _. by eexists.
  - intros (s & H & _). done.
Qed.

Lemma connection_destroyed_status c st :
  forall co, connections (connection_destroyed c st) !! c = Some co -> status co = Destroyed.
Proof.
  unfold connection_destroyed. intros co.
  destruct (connections st !! c) as [co0|] eqn:E.
  2:{ by rewrite E. }
  assert (Hfold : forall gs st', connections (foldl (fun st g => set_sessions (delete g) st) st' gs)
                                 = connections st').
  { induction gs as [|g gs IH]; intros st'; simpl; [done|]. by rewrite IH. }
  destruct (status co0) eqn:Es; try (rewrite Hfold; simpl; rewrite lookup_insert_eq;
                                    by intros [= <-]).
  rewrite E. by intros [= <-].
Qed.

Lemma sessions_connection_destroyed c st g r :
  sessions (connection_destroyed c st) !! g = Some r -> sessions st !! g = Some r.
Proof. apply wf_frame_connection_destroyed. Qed.

(** C5.  [leave] fails and changes nothing when the guild has no session, or
    when a channel id is given and is not the session's; otherwise it stops
    the player, destroys the connection, takes the session out of the
    registry and returns success. *)
Theorem leave_spec (params : LeaveParams) (st : State) :
  let g := trim (leave_guildId params) in
  (sessions_get g st = None ->
     leave params st = (failure (str "Not connected to a voice channel."), st)) /\
  (forall r e, sessions_get g st = Some (r, e) ->
     channel_given (leave_channelId params) ->
     leave_channelId params <> Some (channelId e) ->
     leave params st = (failure (str "Not connected to that voice channel."), st)) /\
  (forall r e, sessions_get g st = Some (r, e) ->
     (~ channel_given (leave_channelId params) \/
      leave_channelId params = Some (channelId e)) ->
     exists st',
       leave params st = (left_channel g (channelId e), st') /\
       calls st' = calls st ++ [CallPlayerStop (player e) false;
                                CallConnectionDestroy (connection e)] /\
       sessions st' !! g = None /\
       (forall co, connections st' !! connection e = Some co -> status co = Destroyed) /\
       (forall s, players st !! player e = Some s -> players st' !! player e = Some Idle) /\
       store st' = store st).
Proof.
  intros g. unfold leave. fold g. split; [|split].
  - by intros ->.
  - intros r e -> Hgiven Hne. apply truthy_opt_given in Hgiven. rewrite Hgiven.
    by rewrite bool_decide_false.
  - intros r e -> Hcase.
    assert (truthy_opt (leave_channelId params)
            && negb (bool_decide (leave_channelId params = Some (channelId e))) = false) as ->.
    { destruct Hcase as [Hng|Heq].
      - destruct (truthy_opt (leave_channelId params)) eqn:E; [|done].
        by apply truthy_opt_given in E.
      - rewrite bool_decide_true by done. apply andb_false_r. }
    eexists. split; [reflexivity|].
    assert (Hfold : forall gs st', calls (foldl (fun st g => set_sessions (delete g) st) st' gs)
                                   = calls st'
                                   /\ players (foldl (fun st g => set_sessions (delete g) st) st' gs)
                                   = players st'
                                   /\ store (foldl (fun st g => set_sessions (delete g) st) st' gs)
                                   = store st').
    { induction gs as [|g0 gs IH]; intros st'; simpl; [done|].
      destruct (IH (set_sessions (delete g0) st')) as (-> & -> & ->). done. }
    assert (Hcd : forall c st', calls (connection_destroyed c st') = calls st'
                                /\ players (connection_destroyed c st') = players st'
                                /\ store (connection_destroyed c st') = store st').
    { intros c st'. unfold connection_destroyed.
      destruct (connections st' !! c) as [co|]; [|done].
      destruct (status co); try done; destruct (Hfold (on_destroyed co)
        (set_connections (insert c (with_status Destroyed co)) st')) as (-> & -> & ->); done. }
    split; [|split; [|split; [|split]]].
    + simpl. unfold stop, connection_destroy.
      destruct (Hcd (connection e) (call (CallConnectionDestroy (connection e))
                                      (player_stop (player e) false st))) as (-> & _ & _).
      simpl. by rewrite <- app_assoc.
    + simpl. apply lookup_delete_eq.
    + simpl. unfold stop, connection_destroy. apply connection_destroyed_status.
    + intros s Hs. simpl. unfold stop, connection_destroy.
      destruct (Hcd (connection e) (call (CallConnectionDestroy (connection e))
                                      (player_stop (player e) false st))) as (_ & -> & _).
      simpl. rewrite Hs. apply lookup_insert_eq.
    + simpl. unfold stop, connection_destroy.
      destruct (Hcd (connection e) (call (CallConnectionDestroy (connection e))
                                      (player_stop (player e) false st))) as (_ & _ & ->).
      done.
Qed.

(** *** join: the gates and the channel *)

Lemma join_begin_looks_up params st :
  wf st -> looks_channel_up params st ->
  exists st1,
    join_begin params st
    = (Await (trim (join_guildId params), trim (join_channelId params)), st1) /\
    sessions st1 !! trim (join_guildId params) = None.
Proof.
  intros Hwf (Hv & Hg & Hch & Hother). unfold join_begin.
  rewrite Hv. simpl.
  apply truthy_true in Hg, Hch. rewrite Hg, Hch. simpl.
  destruct (sessions_get (trim (join_guildId params)) st) as [[r e]|] eqn:E.
  - rewrite bool_decide_false by (by eapply Hother).
    eexists. split; [reflexivity|]. simpl.
    unfold leave. simpl. rewrite trim_idem, E. simpl. apply lookup_delete_eq.
  - eexists. split; [reflexivity|]. simpl. by apply sessions_get_None.
Qed.

Lemma not_a_voice_channel_says ch :
  includes (str "not a voice channel") (message (not_a_voice_channel ch)) = true.
Proof.
  unfold not_a_voice_channel, failure. cbn [message].
  replace (str "Channel " ++ ch ++ str " is not a voice channel.")
    with ((str "Channel " ++ ch ++ str " is ") ++ str "not a voice channel" ++ str ".")
    by (by rewrite <- !app_assoc).
  apply includes_app.
Qed.

(** C4 (as amended).  When voice is enabled, the guild id and the channel id
    are not blank and the guild is not on that channel already, a call of
    [join] looks the channel up; when the channel is not there or is not of
    a voice type, the call returns a failure whose message says "not a voice
    channel"; when the channel belongs to another guild, it returns a
    failure as well.  In both cases the call returns (it does not raise) and
    the guild has no session afterwards. *)
Theorem join_rejects_channel (env : JoinEnv) (params : JoinParams) (st : State) :
  reachable st ->
  looks_channel_up params st ->
  let g := trim (join_guildId params) in
  let ch := trim (join_channelId params) in
  (no_voice_channel (fetchChannel_result env) ->
     exists st',
       join env params st = (Returned (not_a_voice_channel ch), st') /\
       ok (not_a_voice_channel ch) = false /\
       includes (str "not a voice channel") (message (not_a_voice_channel ch)) = true /\
       sessions st' !! g = None) /\
  (channel_of_other_guild (fetchChannel_result env) g ->
     exists st',
       join env params st = (Returned not_in_this_guild, st') /\
       ok not_in_this_guild = false /\
       sessions st' !! g = None).
Proof.
  intros Hreach Hlook g ch.
  destruct (join_begin_looks_up params st (reachable_wf _ Hreach) Hlook) as (st1 & E1 & Hnone).
  fold g ch in E1, Hnone.
  split.
  - intros Hno. exists st1. unfold join. rewrite E1.
    split; [|split; [done|split; [|done]]].
    + unfold join_fetched.
      destruct Hno as [[err ->]|[->|(info & type & -> & Ht & Hv)]]; simpl; try done.
      by rewrite Ht, Hv.
    + apply not_a_voice_channel_says.
  - intros (info & g' & Hf & Ht & Hg' & Hne & Hdiff). exists st1. unfold join. rewrite E1.
    split; [|done].
    unfold join_fetched. rewrite Hf. simpl.
    assert (match info_type info with
            | Some type => negb (isVoiceChannel type)
            | None => false
            end = false) as ->.
    { destruct (info_type info) as [type|]; [|done]. by rewrite (Ht type). }
    rewrite Hg'. simpl. apply truthy_true in Hne. rewrite Hne. simpl.
    rewrite bool_decide_false by congruence. done.
Qed.

(** *** join and autoJoin when voice is disabled *)

Lemma join_disabled env params st :
  voiceEnabled st = false -> join env params st = (Returned voice_disabled, st).
Proof. intros H. unfold join, join_begin. by rewrite H. Qed.

Lemma join_missing env params st :
  voiceEnabled st = true ->
  trim (join_guildId params) = [] \/ trim (join_channelId params) = [] ->
  join env params st = (Returned missing_ids, st).
Proof.
  intros Hv H. unfold join, join_begin. rewrite Hv. simpl.
  destruct H as [-> | ->]; simpl; [done|]. by rewrite orb_true_r.
Qed.

Lemma config_enabled_false cfg : config_enabled cfg = false <-> voice_disabled_in cfg.
Proof.
  unfold config_enabled, voice_disabled_in. destruct (voice cfg) as [v|]; split; try done.
  - intros H. right. exists v. split; [done|].
    apply negb_false_iff, bool_decide_eq_true in H. done.
  - intros [|(v' & [= <-] & H)]; [done|]. by rewrite H.
  - by left.
Qed.

(** C10.  When voice is disabled in the configuration, [join] returns the
    failure that names the setting and [autoJoin] returns at once; when voice
    is enabled and the guild id or the channel id is empty or all white
    space, [join] returns "Missing guildId or channelId.".  The state, and so
    the registry, is the same afterwards in each case. *)
Theorem join_gates (st : State) :
  reachable st ->
  (voice_disabled_in (discordConfig st) ->
     (forall env params,
        join env params st = (Returned voice_disabled, st) /\
        ok voice_disabled = false /\
        includes (str "channels.discord.voice.enabled") (message voice_disabled) = true) /\
     (forall env, autoJoin env st = st)) /\
  (~ voice_disabled_in (discordConfig st) ->
     forall env params,
       blank (join_guildId params) \/ blank (join_channelId params) ->
       join env params st = (Returned missing_ids, st) /\
       ok missing_ids = false /\
       message missing_ids = str "Missing guildId or channelId.").
Proof.
  intros Hreach. destruct (reachable_wf _ Hreach) as (W0 & _).
  split.
  - intros Hdis. apply config_enabled_false in Hdis. rewrite <- W0 in Hdis.
    split.
    + intros env params. split; [by apply join_disabled|]. split; [done|].
      by vm_compute.
    + intros env. unfold autoJoin. by rewrite Hdis.
  - intros Hen env params Hblank.
    assert (Hv : voiceEnabled st = true).
    { rewrite W0. destruct (config_enabled (discordConfig st)) eqn:E; [done|].
      by apply config_enabled_false in E. }
    split; [|done]. apply join_missing; [done|].
    unfold blank in Hblank. rewrite <- !trim_nil in Hblank. done.
Qed.

(** *** Speaker capture *)

Lemma lookup_update_entry r f st r' :
  store (update_entry r f st) !! r' =
  if decide (r' = r) then f <$> store st !! r' else store st !! r'.
Proof.
  simpl. destruct (store st !! r) as [e|] eqn:E.
  - destruct (decide (r' = r)) as [->|Hne].
    + rewrite list_lookup_insert_eq by (by eapply lookup_lt_Some). by rewrite E.
    + by rewrite list_lookup_insert_ne.
  - destruct (decide (r' = r)) as [->|Hne]; [by rewrite E | done].
Qed.


Lemma begin_dropped r u st e :
  store st !! r = Some e -> signal_dropped u e st ->
  handleSpeakingStart_begin r u st = (Done (Returned tt), st).
Proof.
  intros He Hd. unfold handleSpeakingStart_begin. rewrite He.
  destruct (negb (truthy u) || bool_decide (u ∈ activeSpeakers e)) eqn:E1; [done|].
  apply orb_false_elim in E1 as [E1 E2].
  apply negb_false_iff, truthy_true in E1. apply bool_decide_eq_false in E2.
  destruct Hd as [->|[Hin|Hbot]]; [done|done|].
  rewrite Hbot. simpl. apply truthy_true in E1. rewrite E1. simpl.
  by rewrite bool_decide_true.
Qed.

Lemma begin_captures r u st e :
  store st !! r = Some e -> ~ signal_dropped u e st ->
  exists st1,
    handleSpeakingStart_begin r u st = (Await tt, st1) /\
    capturing r u st1 /\
    (exists l, calls st1 = calls st ++ l ++ [CallReceiverSubscribe (connection e) u]).
Proof.
  intros He Hnd. unfold handleSpeakingStart_begin. rewrite He.
  assert (Hu : u <> []) by (intros ->; apply Hnd; by left).
  assert (Hin : u ∉ activeSpeakers e) by (intros H; apply Hnd; right; by left).
  assert (Hbot : botUserId st <> Some u) by (intros H; apply Hnd; right; by right).
  apply truthy_true in Hu. rewrite Hu. simpl.
  rewrite bool_decide_false by done.
  assert (truthy_opt (botUserId st) && bool_decide (Some u = botUserId st) = false) as ->.
  { rewrite bool_decide_false by congruence. apply andb_false_r. }
  eexists. split; [reflexivity|]. split.
  - exists (with_activeSpeakers (fun s => s ∪ {[u]}) e). split; [|simpl; set_solver].
    assert (Hstore : forall st', store (call (CallReceiverSubscribe (connection e) u) st')
                               = store st') by done.
    rewrite Hstore.
    destruct (bool_decide _); simpl; rewrite He;
      (rewrite list_lookup_insert_eq by (by eapply lookup_lt_Some)); done.
  - destruct (bool_decide _); simpl.
    + exists [CallPlayerStop (player e) true]. by rewrite <- app_assoc.
    + by exists [].
Qed.




Lemma setup_dropped lib r u st e :
  store st !! r = Some e -> signal_dropped u e st ->
  handleSpeakingStart_setup lib r u st = (Done (Returned tt), st).
Proof.
  intros He Hd. unfold handleSpeakingStart_setup. rewrite He.
  destruct (negb (truthy u) || bool_decide (u ∈ activeSpeakers e)) eqn:E1; [done|].
  apply orb_false_elim in E1 as [E1 E2].
  apply negb_false_iff, truthy_true in E1. apply bool_decide_eq_false in E2.
  destruct Hd as [->|[Hin|Hbot]]; [done|done|].
  rewrite Hbot. simpl. apply truthy_true in E1. rewrite E1. simpl.
  by rewrite bool_decide_true.
Qed.

Lemma not_dropped_guards u e st :
  ~ signal_dropped u e st ->
  negb (truthy u) || bool_decide (u ∈ activeSpeakers e) = false /\
  truthy_opt (botUserId st) && bool_decide (Some u = botUserId st) = false.
Proof.
  intros Hnd.
  assert (Hu : u <> []) by (intros ->; apply Hnd; by left).
  assert (Hin : u ∉ activeSpeakers e) by (intros H; apply Hnd; right; by left).
  assert (Hbot : botUserId st <> Some u) by (intros H; apply Hnd; right; by right).
  apply truthy_true in Hu. rewrite Hu. simpl.
  rewrite bool_decide_false by done. split; [done|].
  rewrite bool_decide_false by congruence. apply andb_false_r.
Qed.

(** When the two calls return, the first stretch is
    [handleSpeakingStart_begin]. *)
Lemma handleSpeakingStart_setup_returns lib r u st e :
  store st !! r = Some e -> setup_returns lib e st ->
  handleSpeakingStart_setup lib r u st = handleSpeakingStart_begin r u st.
Proof.
  intros He [Hstop Hsub]. unfold handleSpeakingStart_setup, handleSpeakingStart_begin.
  rewrite He.
  destruct (_ || _); [done|]. destruct (_ && _); [done|]. cbv zeta.
  rewrite Hsub.
  destruct (bool_decide _) eqn:E; [|done].
  apply bool_decide_eq_true in E. by rewrite (Hstop E).
Qed.

(** Whatever the voice library does, a signal that is not dropped puts the
    speaker in the active set and changes nothing else of the session
    objects in the first stretch. *)
Lemma store_setup lib r u st e :
  store st !! r = Some e -> ~ signal_dropped u e st ->
  store (snd (handleSpeakingStart_setup lib r u st)) = <[r := with_speaker u e]> (store st).
Proof.
  intros He Hnd. unfold handleSpeakingStart_setup. rewrite He.
  destruct (not_dropped_guards u e st Hnd) as [-> ->]. cbv zeta.
  destruct (bool_decide _); [destruct (player_stop_result lib)|];
    destruct (receiver_subscribe_result lib); simpl; by rewrite He.
Qed.

Lemma setup_throws_result lib r u st e err :
  store st !! r = Some e -> ~ signal_dropped u e st -> setup_throws lib e st err ->
  fst (handleSpeakingStart_setup lib r u st) = Done (Threw err).
Proof.
  intros He Hnd Ht. unfold handleSpeakingStart_setup. rewrite He.
  destruct (not_dropped_guards u e st Hnd) as [-> ->]. cbv zeta.
  destruct Ht as [[Hp Hs]|[Hp Hs]].
  - rewrite bool_decide_true by exact Hp. by rewrite Hs.
  - rewrite Hs. destruct (bool_decide _) eqn:E; [|done].
    apply bool_decide_eq_true in E. by rewrite (Hp E).
Qed.

(** The two calls return, or one of them throws. *)
Lemma setup_outcome lib e st :
  setup_returns lib e st \/ exists err, setup_throws lib e st err.
Proof.
  unfold setup_returns, setup_throws.
  destruct (decide (players st !! player e = Some Playing)) as [Hp|Hp].
  - destruct (player_stop_result lib) as [[]|err1]; [|right; exists err1; by left].
    destruct (receiver_subscribe_result lib) as [[]|err2].
    + by left.
    + right. exists err2. by right.
  - destruct (receiver_subscribe_result lib) as [[]|err2].
    + by left.
    + right. exists err2. right. by split.
Qed.

Lemma capturing_with_speaker r u st e s :
  s !! r = Some e -> store st = <[r := with_speaker u e]> s -> capturing r u st.
Proof.
  intros He Hs. exists (with_speaker u e). split.
  - rewrite Hs. apply list_lookup_insert_eq. by eapply lookup_lt_Some.
  - simpl. apply elem_of_union. right. by apply elem_of_singleton.
Qed.


(** *** The threshold *)

Lemma processing_queue_speaker_done r u st r' :
  processing_queue_of r' (speaker_done r u st) = processing_queue_of r' st.
Proof.
  unfold processing_queue_of, speaker_done. rewrite lookup_update_entry.
  destruct (decide (r' = r)); [|done]. by destruct (store st !! r').
Qed.

Lemma store_writeWavFile fs pcm st : store (snd (writeWavFile fs pcm st)) = store st.
Proof.
  unfold writeWavFile. destruct (mkdtemp_result fs); [|done].
  destruct (buildWavBuffer pcm); [|done].
  by destruct (writeFile_result fs).
Qed.

Lemma writeWavFile_duration fs pcm st path d st' :
  writeWavFile fs pcm st = (Returned (path, d), st') -> d = estimateDurationSeconds pcm.
Proof.
  unfold writeWavFile. destruct (mkdtemp_result fs); [|done].
  destruct (buildWavBuffer pcm); [|done].
  destruct (writeFile_result fs); [|done]. by intros [= _ <- _].
Qed.

Lemma short_pcm_below_threshold pcm :
  (inject_Z (Z.of_nat (length pcm)) / inject_Z (BIT_DEPTH / 8 * CHANNELS * SAMPLE_RATE)
   < 35 # 100)%Q ->
  PrimFloat.ltb (estimateDurationSeconds pcm) MIN_SEGMENT_SECONDS = true.
Proof.
  intros H. rewrite estimateDurationSeconds_eq.
  apply (below_threshold_spec (Z.of_nat (length pcm))).
  split; [lia|]. apply short_duration; [lia|]. exact H.
Qed.

Lemma written_short r u pcm fs st r' :
  PrimFloat.ltb (estimateDurationSeconds pcm) MIN_SEGMENT_SECONDS = true ->
  processing_queue_of r' (snd (handleSpeakingStart_written r u pcm fs st))
  = processing_queue_of r' st.
Proof.
  intros Hshort. unfold handleSpeakingStart_written.
  pose proof (store_writeWavFile fs pcm st) as Hs.
  destruct (writeWavFile fs pcm st) as [[[path d]|err] st1] eqn:E; simpl in Hs.
  - apply writeWavFile_duration in E. subst d. rewrite Hshort. simpl.
    rewrite processing_queue_speaker_done. unfold processing_queue_of. by rewrite Hs.
  - simpl. rewrite processing_queue_speaker_done. unfold processing_queue_of. by rewrite Hs.
Qed.

Lemma processing_queue_begin r u st r' :
  processing_queue_of r' (snd (handleSpeakingStart_begin r u st)) = processing_queue_of r' st.
Proof.
  unfold handleSpeakingStart_begin.
  destruct (store st !! r) as [e|] eqn:E; [|done].
  destruct (_ || _); [done|]. destruct (_ && _); [done|].
  assert (H : processing_queue_of r'
                (update_entry r (with_activeSpeakers (fun s => s ∪ {[u]})) st)
              = processing_queue_of r' st).
  { unfold processing_queue_of. rewrite lookup_update_entry.
    destruct (decide (r' = r)); [|done]. by destruct (store st !! r'). }
  destruct (bool_decide _); exact H.
Qed.

(** C6.  A buffer of N bytes whose duration N / (2 * 2 * 48000) is below
    0.35 s: the estimate the code computes is the binary64 quotient of N by
    192000, the code's test against the threshold succeeds, and no
    processing queue has a task more after the handler: neither after the
    stretch that follows [writeWavFile], nor after the handler run as a
    whole on a stream that decodes to that buffer. *)
Theorem short_segment_not_enqueued (pcm : Buffer) :
  (inject_Z (Z.of_nat (length pcm)) / inject_Z (BIT_DEPTH / 8 * CHANNELS * SAMPLE_RATE)
   < 35 # 100)%Q ->
  estimateDurationSeconds pcm
  = PrimFloat.div (num (Z.of_nat (length pcm))) (num 192000) /\
  PrimFloat.ltb (estimateDurationSeconds pcm) MIN_SEGMENT_SECONDS = true /\
  (forall r u fs st r',
     processing_queue_of r' (snd (handleSpeakingStart_written r u pcm fs st))
     = processing_queue_of r' st) /\
  (forall env r u st r',
     decodeOpusStream (new_decoder env) (stream_items env) = Returned pcm ->
     processing_queue_of r' (snd (handleSpeakingStart env r u st))
     = processing_queue_of r' st).
Proof.
  intros H. pose proof (short_pcm_below_threshold pcm H) as Hshort.
  split; [apply estimateDurationSeconds_eq|]. split; [done|]. split.
  - intros. by apply written_short.
  - intros env r u st r' Hdec. unfold handleSpeakingStart.
    pose proof (processing_queue_begin r u st r') as Hb.
    destruct (handleSpeakingStart_begin r u st) as [[res|[]] st1]; simpl in *; [done|].
    rewrite <- Hb. unfold capture. rewrite Hdec. unfold handleSpeakingStart_decoded.
    destruct (length pcm =? 0)%nat; simpl.
    + apply processing_queue_speaker_done.
    + by apply written_short.
Qed.

(** *** The pipeline *)

Lemma processSegment_outcome env r seg st :
  store (snd (processSegment env r seg st)) = store st \/
  exists path,
    reply_synthesized env path /\
    store (snd (processSegment env r seg st))
    = store (enqueuePlayback r {| play_audioPath := path |} st).
Proof.
  unfold processSegment.
  destruct (store st !! r) as [e|] eqn:He; [|by left].
  destruct (transcribeAudio env) as [transcript|] eqn:Et; [|by left].
  destruct transcript as [transcript|]; simpl; [|by left].
  destruct (truthy transcript) eqn:Etr; simpl; [|by left].
  destruct (agentCommand_result env) as [payloads|] eqn:Ea; [|by left].
  destruct (truthy (replyText_of payloads)) eqn:Er; simpl; [|by left].
  destruct (truthy (speakText_of _)) eqn:Es; simpl; [|by left].
  destruct (textToSpeech_result env) as [tts|] eqn:Ett; [|by left].
  destruct (success tts) eqn:Esu; simpl; [|by left].
  destruct (audioPath tts) as [path|] eqn:Eap; simpl; [|by left].
  destruct (truthy path) eqn:Ep; simpl; [|by left].
  right. exists path. split; [|done].
  exists transcript, payloads, tts.
  apply truthy_true in Etr, Er, Es, Ep. done.
Qed.

Lemma processSegment_calls env r seg st :
  players (snd (processSegment env r seg st)) = players st /\
  sessions (snd (processSegment env r seg st)) = sessions st /\
  connections (snd (processSegment env r seg st)) = connections st /\
  exists l, calls (snd (processSegment env r seg st)) = calls st ++ l /\
            existsb is_player_call l = false.
Proof.
  unfold processSegment.
  destruct (store st !! r) as [e|]; [|by repeat split; exists []; rewrite app_nil_r].
  destruct (transcribeAudio env) as [transcript|];
    [|by repeat split; eexists [_]].
  destruct (negb (truthy_opt transcript)); [by repeat split; eexists [_]|].
  destruct (agentCommand_result env) as [payloads|];
    [|by repeat split; eexists [_; _]; simpl; rewrite <- app_assoc].
  destruct (negb (truthy (replyText_of payloads)));
    [by repeat split; eexists [_; _]; simpl; rewrite <- app_assoc|].
  destruct (negb (truthy (speakText_of _)));
    [by repeat split; eexists [_; _]; simpl; rewrite <- app_assoc|].
  destruct (textToSpeech_result env) as [tts|];
    [|by repeat split; eexists [_; _; _]; simpl; rewrite <- !app_assoc].
  destruct (_ || _); simpl.
  - by repeat split; eexists [_; _; _; _]; simpl; rewrite <- !app_assoc.
  - by repeat split; eexists [_; _; _]; simpl; rewrite <- !app_assoc.
Qed.

Lemma processSegment_tts_failed env r seg st tts :
  textToSpeech_result env = Fulfilled tts -> success tts = false ->
  store (snd (processSegment env r seg st)) = store st.
Proof.
  intros Ht Hs. destruct (processSegment_outcome env r seg st) as [H|(path & Hsyn & _)];
    [done|].
  destruct Hsyn as (_ & _ & tts' & _ & _ & _ & _ & _ & Ht' & Hs' & _).
  rewrite Ht in Ht'. inversion Ht'; subst tts'. congruence.
Qed.

(** C7.  [processSegment] puts a task on a playback queue only when the
    transcript, the reply text and the speak text are not empty and the
    synthesis has succeeded with an audio path; the task goes on the queue
    of the segment's own session and plays that path.  [processSegment]
    never calls the player and leaves the players as they are; and when the
    synthesis answers [success: false], no session object is written: no
    queue has a task more. *)
Theorem playback_only_after_synthesis (env : SegmentEnv) (r : nat)
  (seg : ProcessingTask) (st : State) :
  let st' := snd (processSegment env r seg st) in
  (forall r', playback_queue_of r' st' <> playback_queue_of r' st ->
     r' = r /\
     exists path,
       reply_synthesized env path /\
       playback_queue_of r st'
       = (fun q => enqueue q {| play_audioPath := path |}) <$> playback_queue_of r st) /\
  (players st' = players st /\
   exists l, calls st' = calls st ++ l /\ existsb is_player_call l = false) /\
  (forall tts, textToSpeech_result env = Fulfilled tts -> success tts = false ->
     store st' = store st).
Proof.
  intros st'. subst st'. split; [|split].
  - intros r' Hne.
    destruct (processSegment_outcome env r seg st) as [H|(path & Hsyn & H)].
    + exfalso. apply Hne. unfold playback_queue_of. by rewrite H.
    + assert (Hq : forall r'', playback_queue_of r'' (snd (processSegment env r seg st))
                   = if decide (r'' = r)
                     then (fun q => enqueue q {| play_audioPath := path |})
                            <$> playback_queue_of r'' st
                     else playback_queue_of r'' st).
      { intros r''. unfold playback_queue_of. rewrite H. unfold enqueuePlayback.
        rewrite lookup_update_entry. destruct (decide (r'' = r)); [|done].
        by destruct (store st !! r''). }
      destruct (decide (r' = r)) as [->|Hr].
      * split; [done|]. exists path. split; [done|]. rewrite Hq. by rewrite decide_True.
      * exfalso. apply Hne. rewrite Hq. by rewrite decide_False.
  - destruct (processSegment_calls env r seg st) as (Hp & _ & _ & Hl). by split.
  - intros tts. apply processSegment_tts_failed.
Qed.

(** *** Undisturbed steps *)

Lemma quiet_refl st : quiet st st.
Proof. by repeat split. Qed.

Lemma quiet_trans st1 st2 st3 : quiet st1 st2 -> quiet st2 st3 -> quiet st1 st3.
Proof.
  intros (A1 & A2 & A3 & A4 & A5) (B1 & B2 & B3 & B4 & B5).
  repeat split; try congruence. by etrans.
Qed.

Lemma quiet_wf_frame st st' : quiet st st' -> wf_frame st st'.
Proof. intros (A1 & A2 & A3 & A4 & A5). repeat split; try done. by rewrite A1. Qed.

Lemma conn_live_ext c st st' :
  connections st' = connections st -> conn_live c st' <-> conn_live c st.
Proof. unfold conn_live. by intros ->. Qed.

Lemma has_listener_ext c g st st' :
  connections st' = connections st -> has_listener c g st' <-> has_listener c g st.
Proof. unfold has_listener. by intros ->. Qed.

Lemma seq_inv_quiet st st' : seq_inv st -> quiet st st' -> seq_inv st'.
Proof.
  intros (Hwf & S2 & S6 & S7) Hq. pose proof (quiet_wf_frame _ _ Hq) as Hf.
  destruct Hq as (Q1 & Q2 & Q3 & Q4 & Q5). split; [by eapply wf_preserved|].
  split; [|split].
  - intros r e' He' Hlive.
    destruct (Forall2_lookup_r _ _ _ _ _ Q5 He') as (e & He & (E1 & E2 & E3 & E4 & _)).
    rewrite Q1, E1. apply S2; [done|]. rewrite <- E3. by apply (conn_live_ext _ st st').
  - intros c g Hl. apply (has_listener_ext _ _ st st') in Hl; [|done].
    destruct (S6 c g Hl) as (r & e & He & Hc & Hg).
    destruct (Forall2_lookup_l _ _ _ _ _ Q5 He) as (e' & He' & (E1 & E2 & E3 & E4 & _)).
    exists r, e'. split; [done|]. split; congruence.
  - intros r e' He'.
    destruct (Forall2_lookup_r _ _ _ _ _ Q5 He') as (e & He & (E1 & E2 & E3 & E4 & _)).
    rewrite Q2, E3. by eapply S7.
Qed.

Lemma quiet_call c st : quiet st (call c st).
Proof. by repeat split. Qed.

Lemma quiet_set_players f st : quiet st (set_players f st).
Proof. by repeat split. Qed.

Lemma quiet_update_entry r f st :
  (forall e, store st !! r = Some e -> entry_same e (f e)) ->
  quiet st (update_entry r f st).
Proof. intros Hf. repeat split; try done. by apply store_update_same. Qed.

Lemma quiet_player_stop p force st : quiet st (player_stop p force st).
Proof. eapply quiet_trans; [apply quiet_call | apply quiet_set_players]. Qed.

Lemma quiet_setBotUserId id st : quiet st (setBotUserId id st).
Proof. unfold setBotUserId. destruct (truthy_opt id); by repeat split. Qed.

Lemma quiet_set_autoJoinTask b st : quiet st (set_autoJoinTask b st).
Proof. by repeat split. Qed.

Lemma quiet_speaking_begin r u st : quiet st (snd (handleSpeakingStart_begin r u st)).
Proof.
  unfold handleSpeakingStart_begin.
  destruct (store st !! r) as [e|]; [|apply quiet_refl].
  destruct (_ || _); [apply quiet_refl|].
  destruct (_ && _); [apply quiet_refl|]. simpl.
  eapply quiet_trans; [|apply quiet_call].
  eapply quiet_trans;
    [apply quiet_update_entry; intros e0 _; apply entry_same_activeSpeakers|].
  destruct (bool_decide _); [apply quiet_player_stop | apply quiet_refl].
Qed.

Lemma quiet_speaking_setup lib r u st :
  quiet st (snd (handleSpeakingStart_setup lib r u st)).
Proof.
  unfold handleSpeakingStart_setup.
  destruct (store st !! r) as [e|]; [|apply quiet_refl].
  destruct (_ || _); [apply quiet_refl|].
  destruct (_ && _); [apply quiet_refl|]. cbv zeta.
  eapply quiet_trans;
    [apply quiet_update_entry; intros e0 _; apply entry_same_activeSpeakers|].
  destruct (bool_decide _); [destruct (player_stop_result lib)|];
    try (destruct (receiver_subscribe_result lib)); simpl;
    repeat first [apply quiet_call
                 | eapply quiet_trans; [|apply quiet_call]
                 | apply quiet_player_stop
                 | apply quiet_refl].
Qed.

Lemma quiet_speaker_done r u st : quiet st (speaker_done r u st).
Proof. apply quiet_update_entry. intros e _. apply entry_same_activeSpeakers. Qed.

Lemma quiet_speaking_decoded r u decoded st :
  quiet st (snd (handleSpeakingStart_decoded r u decoded st)).
Proof.
  unfold handleSpeakingStart_decoded. destruct decoded as [pcm|err]; simpl.
  - destruct (length pcm =? 0)%nat; simpl; [apply quiet_speaker_done | apply quiet_refl].
  - apply quiet_speaker_done.
Qed.

Lemma quiet_writeWavFile fs pcm st : quiet st (snd (writeWavFile fs pcm st)).
Proof.
  unfold writeWavFile. destruct (mkdtemp_result fs); [|apply quiet_refl].
  destruct (buildWavBuffer pcm); [|apply quiet_refl].
  destruct (writeFile_result fs); simpl; [|apply quiet_call].
  eapply quiet_trans; apply quiet_call.
Qed.

Lemma quiet_speaking_written r u pcm fs st :
  quiet st (snd (handleSpeakingStart_written r u pcm fs st)).
Proof.
  unfold handleSpeakingStart_written.
  pose proof (quiet_writeWavFile fs pcm st) as H.
  destruct (writeWavFile fs pcm st) as [[[path d]|err] st1]; simpl in *.
  - destruct (PrimFloat.ltb d MIN_SEGMENT_SECONDS); simpl.
    + eapply quiet_trans; [exact H | apply quiet_speaker_done].
    + eapply quiet_trans; [exact H|].
      eapply quiet_trans; [|apply quiet_speaker_done].
      apply quiet_update_entry. intros e _.
      apply entry_same_processingQueue, queue_rel_enqueue.
  - eapply quiet_trans; [exact H | apply quiet_speaker_done].
Qed.

Lemma quiet_processSegment env r seg st : quiet st (snd (processSegment env r seg st)).
Proof.
  destruct (processSegment_calls env r seg st) as (_ & Hs & Hc & _).
  pose proof (wf_frame_processSegment env r seg st) as (_ & Hv & Hd & Hst).
  by repeat split.
Qed.

Lemma quiet_playback_begin r t st : quiet st (playback_begin r t st).
Proof.
  unfold playback_begin. destruct (store st !! r) as [e|]; [|apply quiet_refl].
  eapply quiet_trans; [apply quiet_call | apply quiet_set_players].
Qed.

Lemma deletes_fields gs : forall st,
  connections (deletes gs st) = connections st /\
  store (deletes gs st) = store st /\
  voiceEnabled (deletes gs st) = voiceEnabled st /\
  discordConfig (deletes gs st) = discordConfig st.
Proof.
  induction gs as [|g gs IH]; intros st; simpl; [done|].
  destruct (IH (set_sessions (delete g) st)) as (-> & -> & -> & ->). done.
Qed.

Lemma deletes_lookup gs : forall st g r,
  sessions (deletes gs st) !! g = Some r <-> sessions st !! g = Some r /\ g ∉ gs.
Proof.
  induction gs as [|g0 gs IH]; intros st g r; simpl.
  - split; [intros H; split; [done|apply not_elem_of_nil] | by intros [? _]].
  - rewrite IH. simpl. rewrite lookup_delete_Some, not_elem_of_cons. intuition.
Qed.

(** A connection that lives changes state without being destroyed. *)
Lemma seq_inv_set_status c s st :
  seq_inv st -> s <> Destroyed -> conn_live c st -> seq_inv (set_status c s st).
Proof.
  intros (Hwf & S2 & S6 & S7) Hs (co & Hco & Hlive).
  assert (Hl : forall c', conn_live c' (set_status c s st) <-> conn_live c' st).
  { intros c'. unfold conn_live. simpl. rewrite Hco.
    destruct (decide (c' = c)) as [->|Hne].
    - rewrite lookup_insert_eq. split; [eauto|]. intros _. eexists. split; [done|]. done.
    - by rewrite lookup_insert_ne. }
  assert (Hh : forall c' g, has_listener c' g (set_status c s st) <-> has_listener c' g st).
  { intros c' g. unfold has_listener. simpl. rewrite Hco.
    destruct (decide (c' = c)) as [->|Hne].
    - rewrite lookup_insert_eq. split.
      + intros (co' & [= <-] & H). by exists co.
      + intros (co' & Hco' & H). rewrite Hco in Hco'. inversion Hco'; subst co'.
        eexists. split; [done|]. done.
    - by rewrite lookup_insert_ne. }
  split; [eapply wf_preserved; [done | apply wf_frame_set_status]|].
  split; [|split].
  - intros r e He Hlv. apply S2; [done|]. by apply Hl.
  - intros c' g H. apply S6. by apply Hh.
  - intros r e He. simpl. rewrite Hco.
    destruct (decide (connection e = c)) as [->|Hne].
    + by rewrite lookup_insert_eq.
    + rewrite lookup_insert_ne by done. by eapply S7.
Qed.

(** A live connection is destroyed, and guilds that have a listener on it
    leave the registry. *)
Lemma seq_inv_kill c co gs st :
  seq_inv st -> connections st !! c = Some co -> status co <> Destroyed ->
  (forall g, g ∈ gs -> has_listener c g st) ->
  seq_inv (deletes gs (set_connections (insert c (with_status Destroyed co)) st)).
Proof.
  intros (Hwf & S2 & S6 & S7) Hco Hlive Hgs.
  set (st1 := set_connections (insert c (with_status Destroyed co)) st).
  destruct (deletes_fields gs st1) as (Fc & Fs & Fv & Fd).
  split.
  { eapply wf_preserved; [done|].
    eapply wf_frame_trans; [apply wf_frame_set_connections | apply wf_frame_deletes]. }
  split; [|split].
  - intros r e He (co' & Hco' & Hlv). rewrite Fs in He. rewrite Fc in Hco'. simpl in *.
    destruct (decide (connection e = c)) as [Heq|Hne].
    { rewrite Heq, lookup_insert_eq in Hco'. inversion Hco'; subst co'. done. }
    rewrite lookup_insert_ne in Hco' by done.
    assert (Hreg : sessions st !! guildId e = Some r).
    { apply S2; [done|]. by exists co'. }
    apply deletes_lookup. split; [done|].
    intros Hin. destruct (S6 c (guildId e) (Hgs _ Hin)) as (r' & e' & He' & Hc' & Hg').
    assert (Hreg' : sessions st !! guildId e' = Some r').
    { apply S2; [done|]. rewrite Hc'. by exists co. }
    rewrite Hg', Hreg in Hreg'. inversion Hreg'; subst r'.
    rewrite He in He'. inversion He'; subst e'. done.
  - intros c' g (co' & Hco' & Hl). rewrite Fc in Hco'. rewrite Fs. simpl in *.
    apply S6. destruct (decide (c' = c)) as [->|Hne].
    + rewrite lookup_insert_eq in Hco'. inversion Hco'; subst co'. by exists co.
    + rewrite lookup_insert_ne in Hco' by done. by exists co'.
  - intros r e He. rewrite Fs in He. rewrite Fc. simpl.
    destruct (decide (connection e = c)) as [->|Hne].
    + by rewrite lookup_insert_eq.
    + rewrite lookup_insert_ne by done. by eapply S7.
Qed.

Lemma seq_inv_connection_destroyed c st :
  seq_inv st -> seq_inv (connection_destroyed c st).
Proof.
  intros Hinv. unfold connection_destroyed.
  destruct (connections st !! c) as [co|] eqn:Hco; [|done].
  assert (Hl : forall g, g ∈ on_destroyed co -> has_listener c g st).
  { intros g Hg. exists co. split; [done | by left]. }
  destruct (status co) eqn:Es; try done;
    apply seq_inv_kill; try done; by rewrite Es.
Qed.

Lemma seq_inv_connection_destroy c st :
  seq_inv st -> seq_inv (connection_destroy c st).
Proof.
  intros Hinv. apply seq_inv_connection_destroyed.
  eapply seq_inv_quiet; [done | apply quiet_call].
Qed.

Lemma seq_inv_stop e st : seq_inv st -> seq_inv (stop e st).
Proof.
  intros Hinv. apply seq_inv_connection_destroy.
  eapply seq_inv_quiet; [done | apply quiet_player_stop].
Qed.

Lemma connection_destroyed_not_live c st c' :
  conn_live c' (connection_destroyed c st) -> conn_live c' st /\ c' <> c.
Proof.
  unfold connection_destroyed.
  destruct (connections st !! c) as [co|] eqn:Hco.
  2:{ intros H. split; [done|]. intros ->. destruct H as (co' & H & _). congruence. }
  assert (Hd : status co = Destroyed ->
               conn_live c' st -> conn_live c' st /\ c' <> c).
  { intros Es H. split; [done|]. intros ->. destruct H as (co' & H & Hl). congruence. }
  assert (Hk : conn_live c'
                 (deletes (on_destroyed co)
                    (set_connections (insert c (with_status Destroyed co)) st)) ->
               conn_live c' st /\ c' <> c).
  { intros (co' & Hco' & Hl).
    destruct (deletes_fields (on_destroyed co)
                (set_connections (insert c (with_status Destroyed co)) st)) as (Fc & _).
    rewrite Fc in Hco'. simpl in Hco'.
    destruct (decide (c' = c)) as [->|Hne].
    - rewrite lookup_insert_eq in Hco'. inversion Hco'; subst co'. done.
    - rewrite lookup_insert_ne in Hco' by done. split; [by exists co' | done]. }
  destruct (status co) eqn:Es; auto.
Qed.

Lemma stop_not_live e st c' :
  conn_live c' (stop e st) -> conn_live c' st /\ c' <> connection e.
Proof.
  unfold stop, connection_destroy. intros H.
  apply connection_destroyed_not_live in H as [H Hne]. split; [|done].
  unfold conn_live in *. exact H.
Qed.

Lemma seq_inv_delete g st :
  seq_inv st ->
  (forall r e, sessions st !! g = Some r -> store st !! r = Some e ->
               ~ conn_live (connection e) st) ->
  seq_inv (set_sessions (delete g) st).
Proof.
  intros (Hwf & S2 & S6 & S7) Hdead.
  split; [eapply wf_preserved; [done | apply wf_frame_delete]|].
  split; [|split]; [|done|done].
  intros r e He Hlive. simpl. apply lookup_delete_Some.
  pose proof (S2 r e He Hlive) as Hreg. split; [|done].
  intros Heq. subst g. by apply (Hdead r e).
Qed.

Lemma store_stop e st : store (stop e st) = store st.
Proof.
  unfold stop, connection_destroy, connection_destroyed. simpl.
  destruct (connections st !! connection e) as [co|]; [|done].
  destruct (status co); try done;
    by destruct (deletes_fields (on_destroyed co)
                   (set_connections (insert (connection e) (with_status Destroyed co))
                      (call (CallConnectionDestroy (connection e))
                         (player_stop (player e) false st)))) as (_ & -> & _).
Qed.

Lemma sessions_stop e st g r :
  sessions (stop e st) !! g = Some r -> sessions st !! g = Some r.
Proof. apply wf_frame_stop. Qed.

Lemma seq_inv_leave params st : seq_inv st -> seq_inv (snd (leave params st)).
Proof.
  intros Hinv. unfold leave.
  destruct (sessions_get _ st) as [[r e]|] eqn:Hget; [|done].
  destruct (_ && _); [done|]. simpl.
  apply sessions_get_Some in Hget as [Hs He].
  apply seq_inv_delete; [by apply seq_inv_stop|].
  intros r' e' Hs' He' Hlive.
  apply sessions_stop in Hs'. rewrite Hs in Hs'. inversion Hs'; subst r'.
  rewrite store_stop, He in He'. inversion He'; subst e'.
  apply stop_not_live in Hlive as [_ Hne]. done.
Qed.

Lemma destroy_loop_spec l : forall st,
  seq_inv st ->
  seq_inv (destroy_loop l st) /\
  (forall g r, sessions (destroy_loop l st) !! g = Some r -> sessions st !! g = Some r) /\
  (forall c, conn_live c (destroy_loop l st) -> conn_live c st) /\
  store (destroy_loop l st) = store st /\
  (forall g r e, g ∈ l.*1 -> sessions (destroy_loop l st) !! g = Some r ->
     store st !! r = Some e -> ~ conn_live (connection e) (destroy_loop l st)).
Proof.
  induction l as [|gr l IH]; intros st Hinv.
  - simpl. split; [done|]. split; [done|]. split; [done|]. split; [done|].
    intros g r e Hin. by apply elem_of_nil in Hin.
  - simpl.
    set (st1 := match sessions st !! gr.1 with
                | Some r => match store st !! r with
                            | Some entry => stop entry st
                            | None => st
                            end
                | None => st
                end).
    assert (H1 : seq_inv st1 /\
                 (forall g r, sessions st1 !! g = Some r -> sessions st !! g = Some r) /\
                 (forall c, conn_live c st1 -> conn_live c st) /\
                 store st1 = store st /\
                 (forall r e, sessions st !! gr.1 = Some r -> store st !! r = Some e ->
                              ~ conn_live (connection e) st1)).
    { subst st1. destruct (sessions st !! gr.1) as [r|] eqn:Es;
        [|by split; [|split; [|split; [|split]]]].
      destruct (store st !! r) as [e|] eqn:He.
      2:{ split; [|split; [|split; [|split]]]; try done.
          intros r' e' [= <-]. by rewrite He. }
      split; [by apply seq_inv_stop|]. split; [apply sessions_stop|].
      split; [intros c Hc; by apply stop_not_live in Hc as [? _]|].
      split; [apply store_stop|].
      intros r' e' [= <-]. rewrite He. intros [= <-] Hl.
      by apply stop_not_live in Hl as [_ ?]. }
    destruct H1 as (Hinv1 & Hs1 & Hl1 & Hst1 & Hdead1).
    destruct (IH st1 Hinv1) as (Hinv2 & Hs2 & Hl2 & Hst2 & Hdead2).
    fold (destroy_loop l st1).
    split; [done|]. split; [eauto|]. split; [eauto|]. split; [congruence|].
    intros g r e Hin Hs He. simpl in Hin. apply elem_of_cons in Hin as [->|Hin].
    + intros Hl. apply Hl2 in Hl. by eapply Hdead1; eauto.
    + apply (Hdead2 g r e); [done|done|congruence].
Qed.

Lemma seq_inv_destroy st : seq_inv st -> seq_inv (destroy st).
Proof.
  intros Hinv. unfold destroy. fold (destroy_loop (map_to_list (sessions st)) st).
  destruct (destroy_loop_spec (map_to_list (sessions st)) st Hinv)
    as ((Hwf & S2 & S6 & S7) & Hs & Hl & Hst & Hdead).
  split; [eapply wf_preserved; [done | apply wf_frame_clear]|].
  split; [|split]; [|done|done].
  intros r e He Hlive. exfalso.
  pose proof (S2 r e He Hlive) as Hreg.
  apply (Hdead (guildId e) r e); [|done|by rewrite <- Hst|done].
  apply list_elem_of_fmap. exists (guildId e, r). split; [done|].
  apply elem_of_map_to_list. by apply Hs.
Qed.

Lemma seq_inv_on_connection_disconnected c st :
  seq_inv st -> seq_inv (on_connection_disconnected c st).
Proof.
  intros Hinv. unfold on_connection_disconnected.
  destruct (connections st !! c) as [co|] eqn:Hco; [|done].
  destruct (status co) eqn:Es; try done;
    (apply seq_inv_set_status; [done|done|]; exists co; split; [done|]; by rewrite Es).
Qed.

Lemma seq_inv_disconnected_settled c g recovered st :
  seq_inv st -> undisturbed (OpDisconnectedSettled c g recovered) st ->
  seq_inv (disconnected_settled c g recovered st).
Proof.
  intros Hinv (Hl & (co & Hco & Hst) & Hrec). unfold disconnected_settled.
  destruct recovered as [s|err].
  - apply seq_inv_set_status; [done| |].
    + destruct (Hrec s eq_refl) as [-> | ->]; done.
    + exists co. split; [done|]. by rewrite Hst.
  - unfold connection_destroy, connection_destroyed. simpl. rewrite Hco, Hst.
    change (seq_inv (deletes (g :: on_destroyed co)
                       (set_connections (insert c (with_status Destroyed co))
                          (call (CallConnectionDestroy c) st)))).
    apply seq_inv_kill.
    + eapply seq_inv_quiet; [done | apply quiet_call].
    + done.
    + by rewrite Hst.
    + intros g' Hg'. apply elem_of_cons in Hg' as [->|Hg']; [done|].
      exists co. split; [done | by left].
Qed.

(** The connections a step knows of. *)
Lemma connections_stop_None e st c :
  connections st !! c = None -> connections (stop e st) !! c = None.
Proof.
  intros Hc. unfold stop, connection_destroy, connection_destroyed. simpl.
  destruct (connections st !! connection e) as [co|] eqn:Hco; [|done].
  assert (Hne : connection e <> c) by congruence.
  destruct (status co); try done;
    destruct (deletes_fields (on_destroyed co)
                (set_connections (insert (connection e) (with_status Destroyed co))
                   (call (CallConnectionDestroy (connection e))
                      (player_stop (player e) false st)))) as (-> & _);
    simpl; by rewrite lookup_insert_ne.
Qed.

Lemma join_begin_seq params st :
  seq_inv st ->
  seq_inv (snd (join_begin params st)) /\
  (forall c, connections st !! c = None ->
             connections (snd (join_begin params st)) !! c = None) /\
  (forall g ch st1, join_begin params st = (Await (g, ch), st1) ->
                    sessions st1 !! g = None).
Proof.
  intros Hinv. pose proof Hinv as (Hwf & _). unfold join_begin.
  destruct (negb (voiceEnabled st)); [done|].
  destruct (_ || _); [done|].
  destruct (sessions_get _ st) as [[r e]|] eqn:Hget.
  - destruct (bool_decide _); [done|]. simpl.
    unfold leave. simpl. rewrite trim_idem, Hget. simpl.
    pose proof (seq_inv_leave {| leave_guildId := trim (join_guildId params);
                                leave_channelId := None |} st Hinv) as Hleave.
    unfold leave in Hleave. simpl in Hleave. rewrite trim_idem, Hget in Hleave.
    simpl in Hleave.
    split; [eapply seq_inv_quiet; [exact Hleave | apply quiet_call]|].
    split.
    + intros c Hc. simpl. by apply connections_stop_None.
    + intros g ch st1 [= <- <- <-]. simpl. apply lookup_delete_eq.
  - simpl. split; [eapply seq_inv_quiet; [done | apply quiet_call]|].
    split; [done|].
    intros g ch st1 [= <- <- <-]. simpl. by apply sessions_get_None.
Qed.

Lemma join_fetched_seq g ch fetched plugin joined st :
  seq_inv st ->
  (forall c, joined = Returned c -> connections st !! c = None) ->
  sessions st !! g = None ->
  seq_inv (snd (join_fetched g ch fetched plugin joined st)) /\
  (forall c st1, join_fetched g ch fetched plugin joined st = (Await c, st1) ->
                 new_connection c st1 /\ sessions st1 !! g = None).
Proof.
  intros Hinv Hfresh Hnone. unfold join_fetched.
  destruct (catch_with fetched None) as [info|]; [|done].
  destruct (match info_type info with Some _ => _ | None => _ end); [done|].
  destruct (_ && _); [done|].
  destruct (negb plugin); [done|].
  destruct joined as [c|err].
  2:{ split; [eapply seq_inv_quiet; [done | apply quiet_call] | done]. }
  specialize (Hfresh c eq_refl). unfold joinVoiceChannel. simpl. rewrite Hfresh.
  destruct Hinv as (Hwf & S2 & S6 & S7).
  assert (Hfree : forall r e, store st !! r = Some e -> connection e <> c).
  { intros r e He Heq. destruct (S7 r e He) as [co Hco]. congruence. }
  assert (Hfree' : forall r e, store st !! r = Some e -> c <> connection e).
  { intros r e He Heq. by apply (Hfree r e He). }
  split.
  - split; [eapply wf_preserved; [done|];
            eapply wf_frame_trans; [apply wf_frame_call | apply wf_frame_set_connections]|].
    split; [|split].
    + intros r e He (co & Hco & Hl). simpl in *.
      rewrite lookup_insert_ne in Hco by (by eapply Hfree').
      apply S2; [done|]. by exists co.
    + intros c' g' (co & Hco & Hl). simpl in *.
      destruct (decide (c' = c)) as [->|Hne].
      * rewrite lookup_insert_eq in Hco. inversion Hco; subst co. simpl in Hl.
        destruct Hl as [Hl|Hl]; by apply elem_of_nil in Hl.
      * rewrite lookup_insert_ne in Hco by done. apply S6. by exists co.
    + intros r e He. simpl. rewrite lookup_insert_ne by (by eapply Hfree'). by eapply S7.
  - intros c' st1 [= <- <-]. split; [|done]. split; [|done].
    eexists. split; [simpl; apply lookup_insert_eq|]. done.
Qed.

Lemma join_ready_fields g ch c route st co :
  connections st !! c = Some co ->
  let st' := snd (join_ready g ch c (Fulfilled tt) route st) in
  connections st'
  = <[c := {| status := Ready;
              on_speaking_start := on_speaking_start co ++ [length (store st)];
              on_disconnected := on_disconnected co ++ [g];
              on_destroyed := on_destroyed co ++ [g] |}]> (connections st) /\
  store st'
  = store st ++ [{| guildId := g; channelId := ch; route := route;
                    connection := c; player := length (store st);
                    playbackQueue := []; processingQueue := [];
                    activeSpeakers := ∅ |}] /\
  sessions st' = <[g := length (store st)]> (sessions st).
Proof.
  intros Hco. simpl. rewrite Hco. simpl. rewrite lookup_insert_eq. simpl.
  by rewrite insert_insert_eq.
Qed.

Lemma join_ready_seq g ch c ready route st :
  seq_inv st -> voiceEnabled st = true -> trimmed g -> trimmed ch ->
  new_connection c st -> sessions st !! g = None ->
  seq_inv (snd (join_ready g ch c ready route st)).
Proof.
  intros Hinv Hv Hg Hch ((co & Hco & Hlive & Hd1 & Hd2) & Hfree) Hnone.
  destruct ready as [[]|err].
  2:{ by apply seq_inv_connection_destroy. }
  pose proof (wf_join_ready g ch c (Fulfilled tt) route st (proj1 Hinv) Hv Hg Hch) as Hwf'.
  destruct (join_ready_fields g ch c route st co Hco) as (Fc & Fs & Fg).
  rewrite Hd1, Hd2 in Fc. change ([] ++ [g]) with [g] in Fc.
  split; [exact Hwf'|].
  destruct Hinv as (Hwf & S2 & S6 & S7).
  split; [|split].
  - intros r e He (co' & Hco' & Hl'). rewrite Fs in He. rewrite Fc in Hco'. rewrite Fg.
    apply lookup_app_Some in He as [He|[Hlen He]].
    + assert (Hne : c <> connection e) by (intros Heq; by apply (Hfree r e He)).
      rewrite lookup_insert_ne in Hco' by done.
      assert (Hreg : sessions st !! guildId e = Some r).
      { apply S2; [done|]. by exists co'. }
      rewrite lookup_insert_ne; [done|]. intros Heq. rewrite <- Heq in Hreg. congruence.
    + destruct (r - length (store st))%nat as [|n] eqn:E; simpl in He; [|by destruct n].
      inversion He; subst e. simpl.
      replace r with (length (store st)) by lia. apply lookup_insert_eq.
  - intros c' g' (co' & Hco' & Hl'). rewrite Fc in Hco'. rewrite Fs.
    destruct (decide (c = c')) as [<-|Hne].
    + rewrite lookup_insert_eq in Hco'. inversion Hco'; subst co'. simpl in Hl'.
      assert (g' = g) as ->.
      { destruct Hl' as [Hl'|Hl']; by apply list_elem_of_singleton in Hl'. }
      eexists (length (store st)), _. split; [apply list_lookup_middle; done|]. done.
    + rewrite lookup_insert_ne in Hco' by done.
      destruct (S6 c' g') as (r & e & He & Hc & Hge); [by exists co'|].
      exists r, e. split; [by apply lookup_app_l_Some | done].
  - intros r e He. rewrite Fs in He. rewrite Fc.
    apply lookup_app_Some in He as [He|[Hlen He]].
    + destruct (decide (c = connection e)) as [<-|Hne]; [by rewrite lookup_insert_eq|].
      rewrite lookup_insert_ne by done. by eapply S7.
    + destruct (r - length (store st))%nat as [|n] eqn:E; simpl in He; [|by destruct n].
      inversion He; subst e. simpl. by rewrite lookup_insert_eq.
Qed.

Lemma seq_inv_join env params st :
  seq_inv st ->
  (forall c, joinVoiceChannel_result env = Returned c -> connections st !! c = None) ->
  seq_inv (snd (join env params st)).
Proof.
  intros Hinv Hfresh. unfold join.
  destruct (join_begin_seq params st Hinv) as (Hinv1 & Hc1 & Hn1).
  pose proof (wf_frame_join_begin params st) as F1.
  destruct (join_begin params st) as [[res|[g ch]] st1] eqn:E1; simpl in *; [done|].
  apply join_begin_await in E1 as (Hv & _ & _ & Hg & Hch).
  assert (Hv1 : voiceEnabled st1 = true) by (destruct F1 as (_ & -> & _); done).
  specialize (Hn1 g ch st1 eq_refl).
  destruct (join_fetched_seq g ch (fetchChannel_result env) (getPlugin_result env)
              (joinVoiceChannel_result env) st1 Hinv1) as (Hinv2 & Hnew); [eauto|done|].
  pose proof (wf_frame_join_fetched g ch (fetchChannel_result env) (getPlugin_result env)
                (joinVoiceChannel_result env) st1) as F2.
  destruct (join_fetched _ _ _ _ _ st1) as [[res|c] st2]; simpl in *; [done|].
  destruct (Hnew c st2 eq_refl) as [Hnc Hn2].
  apply join_ready_seq; try done. destruct F2 as (_ & -> & _); done.
Qed.

Lemma seq_inv_autoJoin_loop env entries : forall i seen st,
  seq_inv st -> autoJoin_fresh entries i seen env st ->
  seq_inv (autoJoin_loop entries i seen env st).
Proof.
  induction entries as [|entry rest IH]; intros i seen st Hinv Hfresh; simpl in *; [done|].
  destruct (negb (truthy _)); [by apply IH|].
  destruct (bool_decide _).
  - apply IH; [|done]. eapply seq_inv_quiet; [done | apply quiet_call].
  - destruct Hfresh as [Hf Hrest].
    pose proof (seq_inv_join (env i) {| join_guildId := auto_guildId entry;
                                        join_channelId := auto_channelId entry |} st Hinv Hf)
      as H.
    destruct (join _ _ st) as [[res|err] st1]; simpl in *; [by apply IH | done].
Qed.

Lemma seq_inv_autoJoin env st :
  seq_inv st -> undisturbed (OpAutoJoin env) st -> seq_inv (autoJoin env st).
Proof.
  intros Hinv Hseq. unfold autoJoin. simpl in Hseq.
  destruct (voiceEnabled st) eqn:Hv; simpl; [|done].
  destruct (autoJoinTask st) eqn:Ht; [done|].
  eapply seq_inv_quiet; [|apply quiet_set_autoJoinTask].
  apply seq_inv_autoJoin_loop; [|by apply Hseq].
  eapply seq_inv_quiet; [done | apply quiet_set_autoJoinTask].
Qed.

Lemma seq_inv_new_manager cfg bot : seq_inv (new_manager cfg bot).
Proof.
  split; [apply wf_new_manager|]. split; [|split].
  - intros r e H. simpl in H. by rewrite lookup_nil in H.
  - intros c g (co & H & _). simpl in H. by rewrite lookup_empty in H.
  - intros r e H. simpl in H. by rewrite lookup_nil in H.
Qed.

Lemma seq_inv_run op st : seq_inv st -> undisturbed op st -> seq_inv (run op st).
Proof.
  intros Hinv Hseq. destruct op; simpl in Hseq; simpl run.
  - eapply seq_inv_quiet; [done | apply quiet_setBotUserId].
  - by apply seq_inv_join.
  - by apply seq_inv_leave.
  - by apply seq_inv_autoJoin.
  - by apply seq_inv_destroy.
  - done.
  - done.
  - done.
  - by apply seq_inv_connection_destroyed.
  - by apply seq_inv_on_connection_disconnected.
  - by apply seq_inv_disconnected_settled.
  - eapply seq_inv_quiet; [done | apply quiet_set_players].
  - eapply seq_inv_quiet; [done | apply quiet_speaking_begin].
  - eapply seq_inv_quiet; [done | apply quiet_speaking_decoded].
  - eapply seq_inv_quiet; [done | apply quiet_speaking_written].
  - eapply seq_inv_quiet; [done | apply quiet_processSegment].
  - eapply seq_inv_quiet; [done | apply quiet_playback_begin].
  - destruct Hseq as (e & ev & He & Hstep).
    eapply seq_inv_quiet; [done|]. apply quiet_update_entry.
    intros e' He'. rewrite He in He'. inversion He'; subst e'.
    apply entry_same_processingQueue. by eapply queue_rel_step.
  - destruct Hseq as (e & ev & He & Hstep).
    eapply seq_inv_quiet; [done|]. apply quiet_update_entry.
    intros e' He'. rewrite He in He'. inversion He'; subst e'.
    apply entry_same_playbackQueue. by eapply queue_rel_step.
  - done.
  - done.
  - eapply seq_inv_quiet; [done | apply quiet_speaking_setup].
Qed.

Lemma reachable_undisturbed_inv st : reachable_undisturbed st -> seq_inv st.
Proof.
  induction 1 as [cfg bot|op st _ IH Hseq]; [apply seq_inv_new_manager | by apply seq_inv_run].
Qed.

Lemma undisturbed_admissible op st : undisturbed op st -> admissible op st.
Proof. destruct op; simpl; try done. intros (H1 & _ & H3). done. Qed.

Lemma reachable_undisturbed_reachable st : reachable_undisturbed st -> reachable st.
Proof.
  induction 1 as [cfg bot|op st _ IH Hseq]; [apply reach_new|].
  apply reach_run; [done | by apply undisturbed_admissible].
Qed.

Lemma calls_connection_destroyed c st : calls (connection_destroyed c st) = calls st.
Proof.
  unfold connection_destroyed. destruct (connections st !! c) as [co|]; [|done].
  assert (H : forall gs st', calls (deletes gs st') = calls st').
  { induction gs as [|g gs IH]; intros st'; simpl; [done|]. by rewrite IH. }
  destruct (status co); try done; by rewrite H.
Qed.






Lemma live_session_intro r g ch st e :
  store st !! r = Some e -> guildId e = g -> channelId e = ch ->
  (exists co, connections st !! connection e = Some co /\ status co <> Destroyed) ->
  live_session r g ch st.
Proof. intros. by exists e. Qed.

Ltac concrete :=
  repeat match goal with
         | |- _ /\ _ => split
         | |- exists _, _ => eexists
         | |- trimmed _ => split
         | |- _ = _ => vm_compute; reflexivity
         | |- _ <> _ => vm_compute; discriminate
         | |- True => exact I
         | |- forall _, _ => intro
         end.

Lemma example_run : qrun example_trace example_queue.
Proof.
  pose (l0 := {| task := 10%nat; then_state := TWaiting; catch_state := CPending |}).
  pose (l1 := {| task := 11%nat; then_state := TWaiting; catch_state := CPending |}).
  assert (H1 : qrun [Enqueued 0] [l0]).
  { exact (qrun_step [] [] _ _ qrun_nil (qs_enqueue [] 10%nat)). }
  assert (H2 : qrun [Enqueued 0; Enqueued 1] [l0; l1]).
  { exact (qrun_step _ _ _ _ H1 (qs_enqueue [l0] 11%nat)). }
  assert (H3 : qrun [Enqueued 0; Enqueued 1; Started 0] [with_then TRunning l0; l1]).
  { exact (qrun_step _ _ _ _ H2 (qs_start [l0; l1] 0 l0 eq_refl eq_refl eq_refl)). }
  assert (H4 : qrun [Enqueued 0; Enqueued 1; Started 0; FailedWith 0 (str "boom")]
                    [with_then (TRejected (str "boom")) l0; l1]).
  { exact (qrun_step _ _ _ _ H3
             (qs_fail [with_then TRunning l0; l1] 0 _ (str "boom") eq_refl eq_refl)). }
  assert (H5 : qrun [Enqueued 0; Enqueued 1; Started 0; FailedWith 0 (str "boom");
                     Warned 0 (str "boom")]
                    [with_catch CFulfilled (with_then (TRejected (str "boom")) l0); l1]).
  { exact (qrun_step _ _ _ _ H4
             (qs_warn [with_then (TRejected (str "boom")) l0; l1] 0 _ (str "boom")
                eq_refl eq_refl eq_refl)). }
  exact (qrun_step _ _ _ _ H5
           (qs_start [with_catch CFulfilled (with_then (TRejected (str "boom")) l0); l1]
              1 l1 eq_refl eq_refl eq_refl)).
Qed.

(** C2.  The queues of every session object of a manager are runs of the
    promise machinery, however the calls overlap; and in every run of a
    queue, a task is started only after every task put on the queue before
    it has completed or failed, no two tasks run at once, no task is passed
    over, and once the tasks before it are over, whether they completed or
    failed, a waiting task can be started. *)
Theorem queues_run_in_enqueue_order :
  (forall st r e, reachable st -> store st !! r = Some e ->
     (exists tr, qrun tr (processingQueue e)) /\ (exists tr, qrun tr (playbackQueue e))) /\
  (forall (T : Type) (tr : list QEvent) (q : list (Link T)),
     qrun tr q -> runs_in_order tr q).
Proof.
  split.
  - intros st r e Hreach He. destruct (reachable_wf _ Hreach) as (_ & _ & _ & W3).
    by apply (W3 r e).
  - intros T tr q Hrun. by apply qrun_runs_in_order.
Qed.

Lemma queues_run_in_enqueue_order_witness :
  exists j, (j < 5)%nat /\
    (example_trace !! j = Some (Completed 0) \/
     exists err, example_trace !! j = Some (FailedWith 0 err)).
Proof.
  destruct (proj2 queues_run_in_enqueue_order nat example_trace example_queue example_run)
    as (H & _).
  apply (H 5%nat 1%nat eq_refl 0%nat). lia.
Defined.

(** *** The examples *)

Lemma reachable_example_joined : reachable_undisturbed example_joined.
Proof.
  apply reach_run; [apply reach_new|].
  intros c Hc. injection Hc as <-. vm_compute. reflexivity.
Qed.

Lemma reachable_example_rejoined : reachable_undisturbed example_rejoined.
Proof.
  apply reach_run; [apply reachable_example_joined|].
  intros c Hc. injection Hc as <-. vm_compute. reflexivity.
Qed.




Lemma reachable_example_late_timeout : reachable example_late_timeout.
Proof.
  unfold example_late_timeout; cbv zeta.
  apply reach_run.
  2:{ split; [|discriminate]. eexists. split; [vm_compute; reflexivity|].
      left. simpl. constructor. }
  apply reach_run; [|exact I]. apply reach_run; [|exact I].
  apply reach_run; [|exact I]. apply reach_new.
Qed.

(** Two session objects of a guild can be live also when every call is made
    after the one before has returned.  The connection of the first session
    drops; a second [join], for another channel, tears that session down and
    registers a new one; the timeout of the [Disconnected] listener of the
    old connection then deletes the guild from the registry, though the
    session registered by then is the new one.  That session stays live and
    is out of the registry: [destroy] does not stop it, and a third [join]
    makes one more session without tearing it down. *)
Lemma late_timeout_two_live :
  reachable example_late_timeout /\
  sessions example_late_timeout !! str "g1" = None /\
  live_session 1 (str "g1") (str "c1") example_late_timeout /\
  live_session 1 (str "g1") (str "c1") (destroy example_late_timeout) /\
  (let st := run (OpJoin (example_join_env (str "g1") 3) (join_params "g1" "c2"))
               example_late_timeout in
   reachable st /\
   live_session 1 (str "g1") (str "c1") st /\
   live_session 2 (str "g1") (str "c2") st).
Proof.
  split; [apply reachable_example_late_timeout|].
  split; [vm_compute; reflexivity|].
  split; [eapply live_session_intro; concrete|].
  split; [eapply live_session_intro; concrete|].
  cbv zeta. split; [apply reach_run; [apply reachable_example_late_timeout | exact I]|].
  split; eapply live_session_intro; concrete.
Qed.


Lemma join_same_channel_no_effect_witness :
  join (example_join_env (str "g1") 7) (join_params "g1" "c1") example_joined
  = (Returned (already_connected (str "g1") (str "c1")), example_joined) /\
  ok (already_connected (str "g1") (str "c1")) = true.
Proof.
  eapply (join_same_channel_no_effect example_joined _ (str "g1") (str "c1") 0%nat).
  - apply reachable_undisturbed_reachable, reachable_example_joined.
  - vm_compute. reflexivity.
  - reflexivity.
Defined.

Lemma join_rejects_channel_witness :
  exists st',
    join {| fetchChannel_result := Rejected (str "404");
            getPlugin_result := true;
            joinVoiceChannel_result := Returned 1%nat;
            entersState_result := Fulfilled tt;
            resolveAgentRoute_result := example_route |}
         (join_params "g1" "c1") (new_manager example_config None)
    = (Returned (not_a_voice_channel (str "c1")), st') /\
    ok (not_a_voice_channel (str "c1")) = false /\
    includes (str "not a voice channel") (message (not_a_voice_channel (str "c1"))) = true /\
    sessions st' !! str "g1" = None.
Proof.
  refine (proj1 (join_rejects_channel _ (join_params "g1" "c1")
                   (new_manager example_config None) _ _) _).
  - apply reach_new.
  - split; [reflexivity|]. split; [vm_compute; discriminate|].
    split; [vm_compute; discriminate|]. intros r e H. vm_compute in H. discriminate.
  - left. by eexists.
Defined.

(** C4 as stated fails for a guild that is on the channel already: the
    channel is not there any more ([fetchChannel] would reject), and the
    call returns "Already connected" with [ok] set, without asking for the
    channel; the session stays in the registry. *)
Lemma join_gone_channel_already_connected :
  no_voice_channel (fetchChannel_result gone_channel_env) /\
  join gone_channel_env (join_params "g1" "c1") example_joined
  = (Returned (already_connected (str "g1") (str "c1")), example_joined) /\
  ok (already_connected (str "g1") (str "c1")) = true /\
  includes (str "not a voice channel")
    (message (already_connected (str "g1") (str "c1"))) = false /\
  sessions example_joined !! str "g1" = Some 0%nat.
Proof.
  split; [left; by eexists|].
  split; [vm_compute; reflexivity|].
  split; [reflexivity|].
  split; vm_compute; reflexivity.
Qed.

Lemma leave_spec_witness :
  exists st',
    leave {| leave_guildId := str " g1 "; leave_channelId := None |} example_joined
    = (left_channel (str "g1") (str "c1"), st') /\
    sessions st' !! str "g1" = None.
Proof.
  destruct (proj2 (proj2 (leave_spec {| leave_guildId := str " g1 ";
                                        leave_channelId := None |} example_joined))
              0%nat
              {| guildId := str "g1"; channelId := str "c1"; route := example_route;
                 connection := 1; player := 0; playbackQueue := [];
                 processingQueue := []; activeSpeakers := ∅ |})
    as (st' & E & _ & Hs & _).
  - vm_compute. reflexivity.
  - left. intros (s & H & _). discriminate.
  - exists st'. split; [exact E | exact Hs].
Defined.

Lemma short_segment_not_enqueued_witness :
  PrimFloat.ltb (estimateDurationSeconds (repeat x00 1000)) MIN_SEGMENT_SECONDS = true.
Proof.
  refine (proj1 (proj2 (short_segment_not_enqueued (repeat x00 1000) _))).
  reflexivity.
Defined.

Lemma playback_only_after_synthesis_witness :
  store (snd (processSegment (example_segment_env tts_failed) 0 example_segment
                example_joined))
  = store example_joined.
Proof.
  refine (proj2 (proj2 (playback_only_after_synthesis (example_segment_env tts_failed) 0
                          example_segment example_joined)) tts_failed _ _);
    reflexivity.
Defined.


(** When [receiver.subscribe] throws, the handler ends with the error and
    the speaker stays in the active set, whatever the capture would have
    met: later signals for that speaker are dropped. *)
Lemma subscribe_throws_speaker_stays (env : CaptureEnv) :
  exists st1,
    handleSpeakingStart_run subscribe_fails env 0 (str "u1") example_joined
    = (Threw (str "Error: receiver destroyed"), st1) /\
    capturing 0 (str "u1") st1 /\
    forall lib, handleSpeakingStart_setup lib 0 (str "u1") st1 = (Done (Returned tt), st1).
Proof.
  assert (He : exists e, store example_joined !! 0%nat = Some e /\
                         ~ signal_dropped (str "u1") e example_joined).
  { eexists. split; [vm_compute; reflexivity|].
    intros [H|[H|H]]; [discriminate H | | discriminate H].
    simpl in H. by apply not_elem_of_empty in H. }
  destruct He as (e & He & Hnd).
  pose proof (store_setup subscribe_fails 0 (str "u1") example_joined e He Hnd) as Hs.
  assert (Hf : fst (handleSpeakingStart_setup subscribe_fails 0 (str "u1") example_joined)
               = Done (Threw (str "Error: receiver destroyed"))).
  { apply (setup_throws_result _ _ _ _ e); [done | done |].
    right. split; [intros _|]; reflexivity. }
  unfold handleSpeakingStart_run.
  destruct (handleSpeakingStart_setup subscribe_fails 0 (str "u1") example_joined)
    as [[res|[]] st1]; simpl in Hf, Hs; [|done].
  injection Hf as ->. exists st1. split; [done|].
  assert (Hc : capturing 0 (str "u1") st1) by (by eapply capturing_with_speaker).
  split; [exact Hc|].
  intros lib. destruct Hc as (e' & He' & Hin).
  apply (setup_dropped lib 0 (str "u1") st1 e'); [exact He'|]. right. by left.
Qed.


Lemma join_gates_witness :
  join (example_join_env (str "g1") 1) (join_params "g1" "c1")
       (new_manager disabled_config None)
  = (Returned voice_disabled, new_manager disabled_config None).
Proof.
  refine (proj1 (proj1 (proj1 (join_gates (new_manager disabled_config None) _) _) _ _)).
  - apply reach_new.
  - right. eexists. split; reflexivity.
Defined.

(** * More properties *)

(** *** Decoding a stream *)

Lemma decode_loop_ok decode items : forall chunks,
  forallb (item_ok decode) items = true ->
  concat (decode_loop decode items chunks)
  = concat chunks ++ concat (map (decoded_of decode) items).
Proof.
  induction items as [|item items IH]; intros chunks Hok.
  - simpl. by rewrite app_nil_r.
  - simpl in Hok. apply andb_prop in Hok as [Hi Hok].
    destruct item as [[chunk|]|err]; simpl in *; [| by apply IH | done].
    destruct (length chunk =? 0)%nat eqn:El; [by apply IH|].
    simpl in Hi. destruct (decode chunk) as [[decoded|]|err]; [| by apply IH | done].
    destruct (0 <? length decoded)%nat eqn:Ed.
    + rewrite IH by done. rewrite concat_app. simpl. by rewrite app_nil_r, <- app_assoc.
    + apply Nat.ltb_ge in Ed. destruct decoded; [|simpl in Ed; lia]. by apply IH.
Qed.

Lemma decode_loop_stops decode a x rest : forall chunks,
  forallb (item_ok decode) a = true -> item_ok decode x = false ->
  decode_loop decode (a ++ x :: rest) chunks = decode_loop decode a chunks.
Proof.
  induction a as [|item a IH]; intros chunks Hok Hx.
  - simpl. destruct x as [[chunk|]|err]; simpl in *; [|done|done].
    destruct (length chunk =? 0)%nat; [done|]. simpl in Hx.
    by destruct (decode chunk).
  - simpl in Hok. apply andb_prop in Hok as [Hi Hok].
    destruct item as [[chunk|]|err]; simpl in *; [| by apply IH | done].
    destruct (length chunk =? 0)%nat; [by apply IH|].
    simpl in Hi. destruct (decode chunk) as [[decoded|]|err]; [| by apply IH | done].
    destruct (0 <? length decoded)%nat; by apply IH.
Qed.

Lemma decodeOpusStream_concat decode items :
  decodeOpusStream (Returned decode) items
  = Returned (concat (decode_loop decode items [])).
Proof.
  unfold decodeOpusStream. simpl. f_equal.
  destruct (decode_loop decode items []) as [|c l]; done.
Qed.

(** X1.  When neither the stream nor the decoder fails, [decodeOpusStream]
    returns what the decoder made of the chunks, one after the other in the
    order of the stream; a chunk that is not a buffer or is empty adds
    nothing, and so does a decoding that is [null] or [undefined] (the test
    [decoded && ...] fails) or is empty; every other decoding is added. *)
Theorem decodeOpusStream_in_order (decode : Decoder) (items : list StreamItem) :
  forallb (item_ok decode) items = true ->
  decodeOpusStream (Returned decode) items
  = Returned (concat (map (decoded_of decode) items)).
Proof.
  intros Hok. rewrite decodeOpusStream_concat. f_equal.
  by rewrite decode_loop_ok.
Qed.

(** X2.  An error of the stream, or of the decoder on a chunk, ends the
    capture without an exception: [decodeOpusStream] returns what was decoded
    before it, and the rest of the stream is not read. *)
Theorem decodeOpusStream_keeps_decoded (decode : Decoder)
  (before : list StreamItem) (item : StreamItem) (rest : list StreamItem) :
  forallb (item_ok decode) before = true ->
  item_ok decode item = false ->
  decodeOpusStream (Returned decode) (before ++ item :: rest)
  = decodeOpusStream (Returned decode) before /\
  decodeOpusStream (Returned decode) (before ++ item :: rest)
  = Returned (concat (map (decoded_of decode) before)).
Proof.
  intros Hok Hx.
  assert (E : decodeOpusStream (Returned decode) (before ++ item :: rest)
              = decodeOpusStream (Returned decode) before).
  { rewrite !decodeOpusStream_concat. by rewrite decode_loop_stops. }
  split; [done|]. rewrite E, decodeOpusStream_concat. f_equal.
  by rewrite decode_loop_ok.
Qed.

Lemma decodeOpusStream_in_order_witness :
  decodeOpusStream (Returned doubling_decoder)
    [StreamChunk (Some [x01]); StreamChunk None; StreamChunk (Some []);
     StreamChunk (Some [x03])]
  = Returned [x01; x01; x03; x03].
Proof.
  apply (decodeOpusStream_in_order doubling_decoder
           [StreamChunk (Some [x01]); StreamChunk None; StreamChunk (Some []);
            StreamChunk (Some [x03])]).
  reflexivity.
Defined.

Lemma decodeOpusStream_keeps_decoded_witness :
  decodeOpusStream (Returned doubling_decoder)
    ([StreamChunk (Some [x01])] ++ StreamChunk (Some [x02]) :: [StreamChunk (Some [x03])])
  = Returned [x01; x01].
Proof.
  apply (proj2 (decodeOpusStream_keeps_decoded doubling_decoder
                  [StreamChunk (Some [x01])] (StreamChunk (Some [x02]))
                  [StreamChunk (Some [x03])] eq_refl eq_refl)).
Defined.

Lemma writeWavFile_ok fs pcm st dir :
  fs_ok fs dir -> 36 + Z.of_nat (length pcm) <= 4294967295 ->
  writeWavFile fs pcm st
  = (Returned (segment_file fs dir, estimateDurationSeconds pcm),
     call (CallScheduleTempCleanup dir (30 * 60 * 1000))
       (call (CallWriteFile (segment_file fs dir)) st)).
Proof.
  intros [Hd Hw] Hfit. unfold writeWavFile. rewrite Hd, Hw.
  by rewrite (buildWavBuffer_fits pcm Hfit).
Qed.

(** X3.  [writeWavFile]: when the directory is made, the buffer fits the
    container and the file is written, it returns the path of the file it
    wrote with the duration estimate, and it has scheduled the removal of
    the directory, thirty minutes later.  When [mkdtemp] fails, or the
    buffer does not fit, it throws and has written nothing.  When the write
    fails it throws, and the removal of the directory is not scheduled. *)
Theorem writeWavFile_effects (fs : FsEnv) (pcm : Buffer) (st : State) :
  (forall dir, fs_ok fs dir -> 36 + Z.of_nat (length pcm) <= 4294967295 ->
     exists file st',
       writeWavFile fs pcm st = (Returned (file, estimateDurationSeconds pcm), st') /\
       calls st' = calls st ++ [CallWriteFile file; CallScheduleTempCleanup dir 1800000]) /\
  (forall err, mkdtemp_result fs = Rejected err ->
     writeWavFile fs pcm st = (Threw err, st)) /\
  (forall dir, mkdtemp_result fs = Fulfilled dir ->
     4294967295 < 36 + Z.of_nat (length pcm) ->
     writeWavFile fs pcm st = (Threw RangeError, st)) /\
  (forall dir err, mkdtemp_result fs = Fulfilled dir ->
     36 + Z.of_nat (length pcm) <= 4294967295 ->
     writeFile_result fs = Rejected err ->
     exists file st',
       writeWavFile fs pcm st = (Threw err, st') /\
       calls st' = calls st ++ [CallWriteFile file]).
Proof.
  split; [|split; [|split]].
  - intros dir Hfs Hfit. eexists _, _. split; [by apply writeWavFile_ok|].
    simpl. by rewrite <- app_assoc.
  - intros err Hd. unfold writeWavFile. by rewrite Hd.
  - intros dir Hd Hlong. unfold writeWavFile. rewrite Hd.
    by rewrite (buildWavBuffer_too_long pcm Hlong).
  - intros dir err Hd Hfit Hw. unfold writeWavFile. rewrite Hd, Hw.
    rewrite (buildWavBuffer_fits pcm Hfit). by eexists _, _.
Qed.

Lemma writeWavFile_effects_witness :
  exists file st',
    writeWavFile example_fs (repeat x00 8) example_joined
    = (Returned (file, estimateDurationSeconds (repeat x00 8)), st') /\
    calls st' = calls example_joined
                ++ [CallWriteFile file;
                    CallScheduleTempCleanup (str "/tmp/openclaw/discord-voice-a1") 1800000].
Proof.
  apply (proj1 (writeWavFile_effects example_fs (repeat x00 8) example_joined)
           (str "/tmp/openclaw/discord-voice-a1")).
  - split; reflexivity.
  - simpl. lia.
Defined.

(** *** What a capture does to the session *)

Lemma store_update_entry_here r f st e :
  store st !! r = Some e ->
  store (update_entry r f st) = <[r := f e]> (store st).
Proof. intros He. unfold update_entry. simpl. by rewrite He. Qed.

Lemma begin_not_dropped r u st e :
  store st !! r = Some e -> ~ signal_dropped u e st ->
  handleSpeakingStart_begin r u st
  = (Await tt,
     call (CallReceiverSubscribe (connection e) u)
       (let st1 := update_entry r (with_activeSpeakers (fun s => s ∪ {[u]})) st in
        if bool_decide (players st !! player e = Some Playing)
        then player_stop (player e) true st1 else st1)).
Proof.
  intros He Hnd. unfold handleSpeakingStart_begin. rewrite He.
  assert (Hu : u <> []) by (intros ->; apply Hnd; by left).
  assert (Ha : u ∉ activeSpeakers e) by (intros H; apply Hnd; right; by left).
  assert (Hb : botUserId st <> Some u) by (intros H; apply Hnd; right; by right).
  destruct u as [|c u]; [done|]. simpl.
  rewrite bool_decide_false by done.
  replace (truthy_opt (botUserId st) && bool_decide (Some (c :: u) = botUserId st))
    with false; [done|].
  symmetry. apply andb_false_iff. right. by apply bool_decide_eq_false.
Qed.

Lemma store_begin r u st e :
  store st !! r = Some e -> ~ signal_dropped u e st ->
  store (snd (handleSpeakingStart_begin r u st))
  = <[r := with_activeSpeakers (fun s => s ∪ {[u]}) e]> (store st).
Proof.
  intros He Hnd. rewrite (begin_not_dropped r u st e He Hnd). simpl.
  destruct (bool_decide _); simpl; by rewrite He.
Qed.

Lemma speaker_done_restores r u st e s :
  s !! r = Some e -> u ∉ activeSpeakers e ->
  store st = <[r := with_activeSpeakers (fun s => s ∪ {[u]}) e]> s ->
  store (speaker_done r u st) = s.
Proof.
  intros He Hu Hs. unfold speaker_done, update_entry. simpl. rewrite Hs.
  rewrite list_lookup_insert_eq by (by eapply lookup_lt_Some).
  rewrite list_insert_insert_eq.
  replace (with_activeSpeakers (fun s0 => s0 ∖ {[u]})
             (with_activeSpeakers (fun s0 => s0 ∪ {[u]}) e)) with e.
  - by apply list_insert_id.
  - destruct e as [g ch ro co pl pq prq act]. unfold with_activeSpeakers. simpl in *.
    f_equal. apply set_eq. intros x.
    rewrite elem_of_difference, elem_of_union, !elem_of_singleton.
    split; [intros Hx; split; [by left | by intros ->] | by intros [[?|?] ?]].
Qed.

(** X4.  A speaker who starts while a reply is playing interrupts it: the
    handler stops the player at once ([stop(true)]) before it subscribes to
    the speaker's audio.  A player that is not playing is left alone. *)
Theorem speaking_interrupts_playback (r : nat) (u : jsstr) (st : State)
  (e : VoiceSessionEntry) :
  store st !! r = Some e -> ~ signal_dropped u e st ->
  let st1 := snd (handleSpeakingStart_begin r u st) in
  (players st !! player e = Some Playing ->
     calls st1 = calls st ++ [CallPlayerStop (player e) true;
                              CallReceiverSubscribe (connection e) u] /\
     players st1 = <[player e := Idle]> (players st)) /\
  (players st !! player e <> Some Playing ->
     calls st1 = calls st ++ [CallReceiverSubscribe (connection e) u] /\
     players st1 = players st).
Proof.
  intros He Hnd st1. subst st1. rewrite (begin_not_dropped r u st e He Hnd).
  split; intros Hp.
  - rewrite bool_decide_true by done. simpl. rewrite Hp.
    split; [by rewrite <- app_assoc | done].
  - by rewrite bool_decide_false.
Qed.

Lemma speaking_interrupts_playback_witness :
  exists e,
    store example_playing !! 0%nat = Some e /\
    players (snd (handleSpeakingStart_begin 0 (str "u1") example_playing))
    = <[player e := Idle]> (players example_playing).
Proof.
  eexists. split; [vm_compute; reflexivity|].
  refine (proj2 (proj1 (speaking_interrupts_playback 0 (str "u1") example_playing
                          _ _ _) _)).
  - vm_compute. reflexivity.
  - intros [H|[H|H]]; [discriminate H | | discriminate H].
    simpl in H. by apply not_elem_of_empty in H.
  - vm_compute. reflexivity.
Defined.

Lemma speaker_done_store r u st e e2 s :
  s !! r = Some e ->
  store st = <[r := e2]> s ->
  store (speaker_done r u st)
  = <[r := with_activeSpeakers (fun a => a ∖ {[u]}) e2]> s.
Proof.
  intros He Hs. unfold speaker_done, update_entry. simpl. rewrite Hs.
  rewrite list_lookup_insert_eq by (by eapply lookup_lt_Some).
  by rewrite list_insert_insert_eq.
Qed.

Lemma remove_added (a : gset jsstr) u : u ∉ a -> (a ∪ {[u]}) ∖ {[u]} = a.
Proof.
  intros Hu. apply set_eq. intros x.
  rewrite elem_of_difference, elem_of_union, !elem_of_singleton.
  split; [by intros [[?|?] ?] | intros Hx; split; [by left | by intros ->]].
Qed.

Lemma signal_dropped_dec u e st : signal_dropped u e st \/ ~ signal_dropped u e st.
Proof.
  unfold signal_dropped.
  destruct (decide (u = [])); [by left; left|].
  destruct (decide (u ∈ activeSpeakers e)); [by left; right; left|].
  destruct (decide (botUserId st = Some u)); [by left; right; right|].
  right. by intros [?|[?|?]].
Qed.

Lemma written_store r u pcm fs st e s :
  s !! r = Some e -> u ∉ activeSpeakers e ->
  store st = <[r := with_activeSpeakers (fun a => a ∪ {[u]}) e]> s ->
  let out := handleSpeakingStart_written r u pcm fs st in
  store out.2 = s \/
  exists file dir,
    out.1 = Returned tt /\
    fs_ok fs dir /\ buildWavBuffer pcm <> Threw RangeError /\
    PrimFloat.ltb (estimateDurationSeconds pcm) MIN_SEGMENT_SECONDS = false /\
    store out.2 = <[r := with_processingQueue
                           (fun q => enqueue q (segment_task file u pcm)) e]> s /\
    calls out.2 = calls st ++ [CallWriteFile file;
                               CallScheduleTempCleanup dir 1800000].
Proof.
  intros He Hu Hs out. subst out. unfold handleSpeakingStart_written.
  destruct (writeWavFile fs pcm st) as [[[file d]|err] st1] eqn:Ew.
  - assert (Hst1 : store st1 = store st)
      by (by rewrite <- (store_writeWavFile fs pcm st), Ew).
    assert (Hd : d = estimateDurationSeconds pcm) by (by eapply writeWavFile_duration).
    subst d.
    destruct (PrimFloat.ltb _ _) eqn:El.
    + left. simpl. apply (speaker_done_restores r u st1 e s He Hu). by rewrite Hst1.
    + right. unfold writeWavFile in Ew.
      destruct (mkdtemp_result fs) as [dir|?] eqn:Ed; [|done].
      destruct (buildWavBuffer pcm) as [wav|?] eqn:Eb; [|done].
      destruct (writeFile_result fs) as [[]|?] eqn:Ef; [|done].
      injection Ew as <- <-. eexists _, dir. simpl.
      split; [done|]. split; [done|]. split; [done|]. split; [done|]. split.
      * rewrite Hs. rewrite list_lookup_insert_eq by (by eapply lookup_lt_Some).
        rewrite list_insert_insert_eq.
        rewrite list_lookup_insert_eq by (by eapply lookup_lt_Some).
        rewrite list_insert_insert_eq. f_equal.
        destruct e. unfold with_activeSpeakers, with_processingQueue. simpl in *.
        f_equal. by apply remove_added.
      * by rewrite <- app_assoc.
  - left. simpl.
    assert (Hst1 : store st1 = store st)
      by (by rewrite <- (store_writeWavFile fs pcm st), Ew).
    apply (speaker_done_restores r u st1 e s He Hu). by rewrite Hst1.
Qed.

Lemma capture_store env r u st e s :
  s !! r = Some e -> u ∉ activeSpeakers e ->
  store st = <[r := with_activeSpeakers (fun a => a ∪ {[u]}) e]> s ->
  let out := capture env r u st in
  store out.2 = s \/
  exists pcm file dir,
    out.1 = Returned tt /\
    decodeOpusStream (new_decoder env) (stream_items env) = Returned pcm /\
    fs_ok (fs_env env) dir /\ buildWavBuffer pcm <> Threw RangeError /\
    PrimFloat.ltb (estimateDurationSeconds pcm) MIN_SEGMENT_SECONDS = false /\
    store out.2 = <[r := with_processingQueue
                           (fun q => enqueue q (segment_task file u pcm)) e]> s /\
    calls out.2 = calls st ++ [CallWriteFile file;
                               CallScheduleTempCleanup dir 1800000].
Proof.
  intros He Hu Hs out. subst out. unfold capture, handleSpeakingStart_decoded.
  destruct (decodeOpusStream _ _) as [pcm|err] eqn:Ed.
  - destruct (length pcm =? 0)%nat.
    + left. simpl. by apply (speaker_done_restores r u st e s).
    + destruct (written_store r u pcm (fs_env env) st e s He Hu Hs)
        as [H|(file & dir & H1 & H2)]; [by left|].
      right. exists pcm, file, dir. split; [exact H1|]. split; [done|]. exact H2.
  - left. simpl. by apply (speaker_done_restores r u st e s).
Qed.

(** X5.  A capture changes the session objects by one task at most, put on
    the processing queue of its own session; then the stream was decoded to
    a buffer that is not below the threshold and the file was written.
    There is one more case in which the session objects are not the ones
    before the handler: when stopping the player or subscribing to the
    speaker's audio throws, the handler ends with that error and the
    speaker stays in the active set of the session, nothing else being
    changed.  In every other case, whatever failed, the session objects
    after the handler are the ones before it: the active set is as it
    was. *)
Theorem capture_adds_one_task_at_most (lib : SubscribeEnv) (env : CaptureEnv)
  (r : nat) (u : jsstr) (st : State) :
  let out := handleSpeakingStart_run lib env r u st in
  store out.2 = store st \/
  (exists e pcm file,
     store st !! r = Some e /\
     setup_returns lib e st /\
     out.1 = Returned tt /\
     decodeOpusStream (new_decoder env) (stream_items env) = Returned pcm /\
     PrimFloat.ltb (estimateDurationSeconds pcm) MIN_SEGMENT_SECONDS = false /\
     store out.2 = <[r := with_processingQueue
                            (fun q => enqueue q (segment_task file u pcm)) e]> (store st)) \/
  (exists e err,
     store st !! r = Some e /\
     ~ signal_dropped u e st /\
     setup_throws lib e st err /\
     out.1 = Threw err /\
     store out.2 = <[r := with_speaker u e]> (store st)).
Proof.
  intros out. subst out.
  destruct (store st !! r) as [e|] eqn:He.
  2:{ left. unfold handleSpeakingStart_run, handleSpeakingStart_setup. by rewrite He. }
  destruct (signal_dropped_dec u e st) as [Hd|Hnd].
  { left. unfold handleSpeakingStart_run. by rewrite (setup_dropped lib r u st e He Hd). }
  destruct (setup_outcome lib e st) as [Hr|[err Ht]].
  - assert (Hrun : handleSpeakingStart_run lib env r u st = handleSpeakingStart env r u st).
    { unfold handleSpeakingStart_run, handleSpeakingStart.
      by rewrite (handleSpeakingStart_setup_returns lib r u st e He Hr). }
    rewrite Hrun. unfold handleSpeakingStart.
    pose proof (store_begin r u st e He Hnd) as Hs.
    rewrite (begin_not_dropped r u st e He Hnd) in *.
    assert (Hu : u ∉ activeSpeakers e) by (intros H; apply Hnd; right; by left).
    match goal with |- context [capture env r u ?s1] =>
      destruct (capture_store env r u s1 e (store st) He Hu Hs)
        as [H|(pcm & file & dir & Hres & Hdec & _ & _ & Hl & Hst & _)]
    end; [by left|].
    right. left. by exists e, pcm, file.
  - right. right. exists e, err.
    pose proof (setup_throws_result lib r u st e err He Hnd Ht) as Hf.
    pose proof (store_setup lib r u st e He Hnd) as Hs.
    unfold handleSpeakingStart_run.
    destruct (handleSpeakingStart_setup lib r u st) as [[res|[]] st1];
      simpl in Hf, Hs; [|done].
    injection Hf as ->. done.
Qed.

(** The case of a throw before the [try] does happen: when
    [receiver.subscribe] throws, the session objects after the handler
    differ from the ones before it. *)
Lemma capture_adds_one_task_at_most_throw (env : CaptureEnv) :
  store (snd (handleSpeakingStart_run subscribe_fails env 0 (str "u1") example_joined))
  <> store example_joined.
Proof.
  destruct (subscribe_throws_speaker_stays env) as (st1 & E & (e & He & Hin) & _).
  rewrite E. simpl. intros Heq. rewrite Heq in He.
  vm_compute in He. injection He as <-. simpl in Hin.
  by apply not_elem_of_empty in Hin.
Qed.

Lemma written_long r u pcm fs st e s dir :
  s !! r = Some e -> u ∉ activeSpeakers e ->
  store st = <[r := with_activeSpeakers (fun a => a ∪ {[u]}) e]> s ->
  fs_ok fs dir -> 36 + Z.of_nat (length pcm) <= 4294967295 ->
  PrimFloat.ltb (estimateDurationSeconds pcm) MIN_SEGMENT_SECONDS = false ->
  exists st',
    handleSpeakingStart_written r u pcm fs st = (Returned tt, st') /\
    store st' = <[r := with_processingQueue
                         (fun q => enqueue q (segment_task (segment_file fs dir) u pcm)) e]> s /\
    calls st' = calls st ++ [CallWriteFile (segment_file fs dir);
                             CallScheduleTempCleanup dir 1800000].
Proof.
  intros He Hu Hs Hfs Hfit Hl. unfold handleSpeakingStart_written.
  rewrite (writeWavFile_ok fs pcm st dir Hfs Hfit), Hl.
  eexists. split; [done|]. split.
  - simpl. rewrite Hs. rewrite list_lookup_insert_eq by (by eapply lookup_lt_Some).
    rewrite list_insert_insert_eq.
    rewrite list_lookup_insert_eq by (by eapply lookup_lt_Some).
    rewrite list_insert_insert_eq. f_equal.
    destruct e. unfold with_activeSpeakers, with_processingQueue. simpl in *.
    f_equal. by apply remove_added.
  - simpl. by rewrite <- app_assoc.
Qed.

(** X6.  A segment that is not below the threshold is put on the processing
    queue of its session, once: when the signal is not dropped, the stream
    decodes to [pcm], the container fits, the file system lets the file be
    written and the code's test [durationSeconds < MIN_SEGMENT_SECONDS]
    fails, the handler returns, the session's processing queue has one task
    more, for the file that was written and the speaker, and nothing else of
    the session objects has changed. *)
Theorem segment_enqueued (env : CaptureEnv) (r : nat) (u : jsstr) (st : State)
  (e : VoiceSessionEntry) (pcm : Buffer) (dir : jsstr) :
  store st !! r = Some e -> ~ signal_dropped u e st ->
  decodeOpusStream (new_decoder env) (stream_items env) = Returned pcm ->
  fs_ok (fs_env env) dir ->
  36 + Z.of_nat (length pcm) <= 4294967295 ->
  PrimFloat.ltb (estimateDurationSeconds pcm) MIN_SEGMENT_SECONDS = false ->
  exists file st',
    handleSpeakingStart env r u st = (Returned tt, st') /\
    store st' = <[r := with_processingQueue
                         (fun q => enqueue q (segment_task file u pcm)) e]> (store st) /\
    exists l, calls st' = calls st ++ l ++ [CallWriteFile file;
                                            CallScheduleTempCleanup dir 1800000].
Proof.
  intros He Hnd Hdec Hfs Hfit Hl.
  assert (Hu : u ∉ activeSpeakers e) by (intros H; apply Hnd; right; by left).
  assert (Hne : (length pcm =? 0)%nat = false).
  { destruct pcm; [|done]. vm_compute in Hl. discriminate Hl. }
  destruct (begin_captures r u st e He Hnd) as (st1 & Eb & _ & l & Hc).
  assert (Hs : store st1 = <[r := with_activeSpeakers (fun a => a ∪ {[u]}) e]> (store st)).
  { pose proof (store_begin r u st e He Hnd) as H. by rewrite Eb in H. }
  destruct (written_long r u pcm (fs_env env) st1 e (store st) dir He Hu Hs Hfs Hfit Hl)
    as (st' & Ew & Hst & Hcalls).
  exists (segment_file (fs_env env) dir), st'. split; [|split; [done|]].
  - unfold handleSpeakingStart. rewrite Eb. unfold capture, handleSpeakingStart_decoded.
    by rewrite Hdec, Hne.
  - exists (l ++ [CallReceiverSubscribe (connection e) u]).
    rewrite Hcalls, Hc. by rewrite <- !app_assoc.
Qed.

Lemma length_example_pcm : Z.of_nat (length example_pcm) = 67200.
Proof. unfold example_pcm. rewrite repeat_length. by apply Z2Nat.id. Qed.

Lemma example_decoded :
  decodeOpusStream (new_decoder example_capture) (stream_items example_capture)
  = Returned example_pcm.
Proof.
  assert (H : (0 < length example_pcm)%nat) by (pose proof length_example_pcm; lia).
  unfold example_capture, new_decoder, stream_items.
  revert H. generalize example_pcm. intros pcm H.
  destruct pcm as [|b pcm]; [by apply Nat.lt_irrefl in H|].
  unfold decodeOpusStream, example_decoder. simpl. by rewrite app_nil_r.
Qed.

Lemma segment_enqueued_witness :
  exists file st',
    handleSpeakingStart example_capture 0 (str "u1") example_joined = (Returned tt, st') /\
    processing_queue_of 0 st'
    = Some [{| task := segment_task file (str "u1") example_pcm;
               then_state := TWaiting; catch_state := CPending |}].
Proof.
  assert (He : exists e, store example_joined !! 0%nat = Some e /\
                         activeSpeakers e = ∅ /\ processingQueue e = [])
    by (eexists; split; [vm_compute; reflexivity | split; reflexivity]).
  destruct He as (e & He & Ha & Hq).
  destruct (segment_enqueued example_capture 0 (str "u1") example_joined e
              example_pcm (str "/tmp/openclaw/discord-voice-a1"))
    as (file & st' & Hr & Hs & _).
  - exact He.
  - intros [H|[H|H]]; [discriminate H | | discriminate H].
    rewrite Ha in H. by apply not_elem_of_empty in H.
  - exact example_decoded.
  - split; reflexivity.
  - rewrite length_example_pcm. lia.
  - rewrite estimateDurationSeconds_eq, length_example_pcm. vm_compute. reflexivity.
  - exists file, st'. split; [exact Hr|].
    unfold processing_queue_of. rewrite Hs.
    rewrite list_lookup_insert_eq by (by eapply lookup_lt_Some).
    simpl. by rewrite Hq.
Defined.

(** *** Captures side by side *)

Lemma capturing_update_entry r f st r' u' :
  (forall e, store st !! r = Some e -> r' = r ->
             u' ∈ activeSpeakers (f e) <-> u' ∈ activeSpeakers e) ->
  capturing r' u' (update_entry r f st) <-> capturing r' u' st.
Proof.
  intros Hf. unfold capturing. setoid_rewrite lookup_update_entry.
  destruct (decide (r' = r)) as [->|Hne]; [|done].
  destruct (store st !! r) as [e|] eqn:He; simpl.
  - split.
    + intros (e' & [= <-] & Hin). exists e. split; [done|]. by apply (Hf e).
    + intros (e' & [= <-] & Hin). exists (f e). split; [done|]. by apply (Hf e).
  - split; by intros (e' & ? & _).
Qed.

Lemma capturing_store r' u' st st' :
  store st' = store st -> capturing r' u' st' <-> capturing r' u' st.
Proof. intros H. unfold capturing. by rewrite H. Qed.

Lemma capturing_speaker_done r u st r' u' :
  (r', u') <> (r, u) ->
  capturing r' u' (speaker_done r u st) <-> capturing r' u' st.
Proof.
  intros Hne. apply capturing_update_entry. intros e _ ->. simpl.
  rewrite elem_of_difference, elem_of_singleton.
  split; [by intros [? _]|]. intros Hin. split; [done|]. intros ->. by apply Hne.
Qed.

Lemma capturing_begin r u st r' u' :
  (r', u') <> (r, u) ->
  capturing r' u' (snd (handleSpeakingStart_begin r u st)) <-> capturing r' u' st.
Proof.
  intros Hne. unfold handleSpeakingStart_begin.
  destruct (store st !! r) as [e|] eqn:He; [|done].
  destruct (_ || _); [done|]. destruct (_ && _); [done|]. simpl.
  etransitivity; [apply capturing_store with
    (st := update_entry r (with_activeSpeakers (fun s => s ∪ {[u]})) st)|].
  - by destruct (bool_decide _).
  - apply capturing_update_entry. intros e0 _ ->. simpl.
    rewrite elem_of_union, elem_of_singleton.
    split; [|by left]. intros [? | ->]; [done|]. by destruct Hne.
Qed.

Lemma capturing_decoded r u decoded st r' u' :
  (r', u') <> (r, u) ->
  capturing r' u' (snd (handleSpeakingStart_decoded r u decoded st)) <-> capturing r' u' st.
Proof.
  intros Hne. unfold handleSpeakingStart_decoded.
  destruct decoded as [pcm|err]; [destruct (length pcm =? 0)%nat|]; simpl;
    try done; by apply capturing_speaker_done.
Qed.

Lemma capturing_written r u pcm fs st r' u' :
  (r', u') <> (r, u) ->
  capturing r' u' (snd (handleSpeakingStart_written r u pcm fs st)) <-> capturing r' u' st.
Proof.
  intros Hne. unfold handleSpeakingStart_written.
  pose proof (store_writeWavFile fs pcm st) as Hs.
  destruct (writeWavFile fs pcm st) as [[[file d]|err] st1]; simpl in Hs.
  - destruct (PrimFloat.ltb _ _); simpl.
    + rewrite capturing_speaker_done by done. by apply capturing_store.
    + rewrite capturing_speaker_done by done.
      etransitivity; [|by apply (capturing_store r' u' st st1)].
      by apply capturing_update_entry.
  - simpl. rewrite capturing_speaker_done by done. by apply capturing_store.
Qed.

(** X7.  Captures do not disturb each other: a stretch of the capture of
    speaker [u] on a session leaves every other speaker, and every other
    session, in or out of the active set as it was; and so does the handler
    as a whole. *)
Theorem captures_side_by_side (r r' : nat) (u u' : jsstr) (st : State) :
  (r', u') <> (r, u) ->
  (forall op, capture_step r u op ->
     capturing r' u' (run op st) <-> capturing r' u' st) /\
  (forall env,
     capturing r' u' (snd (handleSpeakingStart env r u st)) <-> capturing r' u' st).
Proof.
  intros Hne. split.
  - intros op [->|[[decoded ->]|(pcm & fs & ->)]]; simpl.
    + by apply capturing_begin.
    + by apply capturing_decoded.
    + by apply capturing_written.
  - intros env. unfold handleSpeakingStart.
    pose proof (capturing_begin r u st r' u' Hne) as Hb.
    destruct (handleSpeakingStart_begin r u st) as [[res|[]] st1]; [done|].
    simpl in Hb. rewrite <- Hb. unfold capture.
    pose proof (capturing_decoded r u
      (decodeOpusStream (new_decoder env) (stream_items env)) st1 r' u' Hne) as Hd.
    destruct (handleSpeakingStart_decoded _ _ _ _) as [[res|pcm] st2]; [done|].
    simpl in Hd. rewrite <- Hd. by apply capturing_written.
Qed.

Lemma captures_side_by_side_witness :
  capturing 0 (str "u2") (snd (handleSpeakingStart_begin 0 (str "u1") example_joined))
  <-> capturing 0 (str "u2") example_joined.
Proof.
  refine (proj1 (captures_side_by_side 0 0 (str "u1") (str "u2") example_joined _)
            (OpSpeakingBegin 0 (str "u1")) _).
  - intros H. discriminate H.
  - by left.
Defined.

(** X8.  The transcript [transcribeAudio] returns is the text of the first
    output of kind "audio.transcription", trimmed, and it is not empty; with
    no attachment, no such output, no text, or a blank text, it returns
    [undefined]. *)
Theorem transcribeAudio_transcript (env : SegmentEnv) :
  (forall t, transcribeAudio env = Returned (Some t) ->
     trimmed t /\
     exists outputs o text,
       runCapability_result env = Fulfilled outputs /\
       find (fun entry => bool_decide (out_kind entry = str "audio.transcription"))
            outputs = Some o /\
       out_text o = Some text /\ t = trim text) /\
  (attachments_length env = 0%nat -> transcribeAudio env = Returned None) /\
  (forall outputs, attachments_length env <> 0%nat ->
     runCapability_result env = Fulfilled outputs ->
     (forall o text,
        find (fun entry => bool_decide (out_kind entry = str "audio.transcription"))
             outputs = Some o ->
        out_text o = Some text -> blank text) ->
     transcribeAudio env = Returned None).
Proof.
  unfold transcribeAudio. split; [|split].
  - intros t H. destruct (attachments_length env =? 0)%nat; [done|].
    destruct (runCapability_result env) as [outputs|err]; [|done].
    destruct (find _ outputs) as [o|] eqn:Ef; [|done].
    destruct (out_text o) as [text|] eqn:Et; [|done]. simpl in H.
    destruct (truthy (trim text)) eqn:Hty; [|done].
    injection H as <-. split.
    + apply trimmed_trim. by apply truthy_true.
    + by exists outputs, o, text.
  - intros ->. done.
  - intros outputs Hn -> Hb. apply Nat.eqb_neq in Hn. rewrite Hn.
    destruct (find _ outputs) as [o|]; [|done].
    destruct (out_text o) as [text|] eqn:Et; [|done]. simpl.
    specialize (Hb o text eq_refl Et). apply trim_nil in Hb. by rewrite Hb.
Qed.

Lemma transcribeAudio_transcript_witness :
  trimmed (str "hello").
Proof.
  refine (proj1 (proj1 (transcribeAudio_transcript (example_segment_env tts_failed))
                   (str "hello") _)).
  vm_compute. reflexivity.
Defined.

Lemma transcribeAudio_Some env t :
  transcribeAudio env = Returned (Some t) -> truthy t = true.
Proof.
  unfold transcribeAudio. destruct (attachments_length env =? 0)%nat; [done|].
  destruct (runCapability_result env) as [outputs|]; [|done].
  destruct (match find _ outputs with Some o => _ | None => None end) as [text|]; simpl.
  - destruct (truthy text) eqn:E; [|done]. by intros [= <-].
  - done.
Qed.

(** *** The reply text *)

Lemma replyText_of_Some ps :
  replyText_of (Some ps)
  = trim (join_with [10%N]
            (omap (fun p => match payload_text p with
                            | Some text => if truthy (trim text) then Some text else None
                            | None => None
                            end) ps)).
Proof. reflexivity. Qed.

Lemma payload_silent_omitted p :
  payload_silent p ->
  match payload_text p with
  | Some text => if truthy (trim text) then Some text else None
  | None => None
  end = None.
Proof.
  unfold payload_silent. destruct (payload_text p) as [text|]; [|done].
  intros Hb. apply trim_nil in Hb. by rewrite Hb.
Qed.

(** X9.  The reply text is made of the texts that are strings and are not
    blank: a payload without one adds nothing, wherever it stands, and when
    no payload has one (or there are no payloads) the reply text is empty.
    The reply text is never blank without being empty. *)
Theorem replyText_ignores_silent_payloads :
  (forall before p after, payload_silent p ->
     replyText_of (Some (before ++ p :: after)) = replyText_of (Some (before ++ after))) /\
  (forall ps, Forall payload_silent ps -> replyText_of (Some ps) = []) /\
  replyText_of None = [] /\
  (forall payloads, replyText_of payloads = [] \/ trimmed (replyText_of payloads)).
Proof.
  split; [|split; [|split]].
  - intros before p after Hp. rewrite !replyText_of_Some.
    rewrite !omap_app. simpl. by rewrite (payload_silent_omitted p Hp).
  - intros ps Hps. rewrite replyText_of_Some.
    replace (omap _ ps) with (@nil (list N)); [done|].
    induction Hps as [|p ps Hp _ IH]; [done|]. simpl.
    by rewrite (payload_silent_omitted p Hp).
  - reflexivity.
  - intros payloads. unfold replyText_of.
    destruct (trim _) eqn:E; [by left|]. right. rewrite <- E.
    apply trimmed_trim. by rewrite E.
Qed.

Lemma replyText_ignores_silent_payloads_witness :
  replyText_of (Some [{| payload_text := Some (str "hi") |};
                      {| payload_text := Some (str "  ") |};
                      {| payload_text := Some (str "there") |}])
  = replyText_of (Some [{| payload_text := Some (str "hi") |};
                        {| payload_text := Some (str "there") |}]).
Proof.
  apply (proj1 replyText_ignores_silent_payloads
           [{| payload_text := Some (str "hi") |}]
           {| payload_text := Some (str "  ") |}
           [{| payload_text := Some (str "there") |}]).
  reflexivity.
Defined.

(** *** What the pipeline asks for *)

(** X10.  With a transcript, [processSegment] asks the agent once: the prompt
    is the speaker's label, ": " and the transcript (the transcript alone
    when the label is empty), under the session key and the agent of the
    session's route; nothing was asked of the speech synthesis before.  The
    label is the user id when neither the member nor the user can be
    fetched. *)
Theorem processSegment_asks_agent (env : SegmentEnv) (r : nat) (seg : ProcessingTask)
  (st : State) (e : VoiceSessionEntry) (t : jsstr) :
  store st !! r = Some e ->
  transcribeAudio env = Returned (Some t) ->
  (exists l,
     calls (snd (processSegment env r seg st))
     = calls st ++ [CallTranscribe (seg_wavPath seg);
                    CallAgentCommand (prompt_of env (seg_userId seg) t)
                      (sessionKey (route e)) (agentId (route e))] ++ l /\
     existsb is_agent_call l = false) /\
  ((exists err, fetchMember_result env = Rejected err) ->
   (exists err, fetchUser_result env = Rejected err) ->
   seg_userId seg <> [] ->
   prompt_of env (seg_userId seg) t = seg_userId seg ++ str ": " ++ t).
Proof.
  intros He Ht. split.
  - unfold processSegment. rewrite He, Ht.
    assert (Hty : truthy_opt (Some t) = true) by (by eapply transcribeAudio_Some).
    rewrite Hty. cbn [negb default].
    fold (prompt_of env (seg_userId seg) t).
    destruct (agentCommand_result env) as [payloads|err].
    + destruct (negb (truthy (replyText_of payloads))).
      { exists []. simpl. by rewrite <- app_assoc. }
      destruct (negb (truthy (speakText_of _))).
      { exists []. simpl. by rewrite <- app_assoc. }
      destruct (textToSpeech_result env) as [tts|err].
      * destruct (_ || _).
        -- eexists [_; _]. simpl. by rewrite <- !app_assoc.
        -- eexists [_]. simpl. by rewrite <- !app_assoc.
      * eexists [_]. simpl. by rewrite <- !app_assoc.
    + exists []. simpl. by rewrite <- app_assoc.
  - intros [e1 H1] [e2 H2] Hu. unfold prompt_of, resolveSpeakerLabel. rewrite H1, H2.
    by destruct (seg_userId seg).
Qed.

Lemma processSegment_asks_agent_witness :
  exists l,
    calls (snd (processSegment (example_segment_env tts_failed) 0 example_segment
                  example_joined))
    = calls example_joined
      ++ [CallTranscribe (str "/tmp/segment.wav");
          CallAgentCommand (str "u1: hello") (str "agent:main:voice") (str "main")] ++ l.
Proof.
  assert (He : exists e, store example_joined !! 0%nat = Some e /\ route e = example_route)
    by (eexists; split; [vm_compute; reflexivity | reflexivity]).
  destruct He as (e & He & Hr).
  destruct (proj1 (processSegment_asks_agent (example_segment_env tts_failed) 0
                     example_segment example_joined e (str "hello") He eq_refl))
    as (l & Hl & _).
  exists l. rewrite Hl, Hr. reflexivity.
Defined.

(** X11.  With nothing to say, [processSegment] stops early: without a
    transcript the agent is not asked, and without a reply text the speech
    synthesis is not asked; the session objects stay as they are. *)
Theorem processSegment_stops_early (env : SegmentEnv) (r : nat) (seg : ProcessingTask)
  (st : State) (e : VoiceSessionEntry) :
  store st !! r = Some e ->
  let st' := snd (processSegment env r seg st) in
  (transcribeAudio env = Returned None ->
     processSegment env r seg st
     = (Returned tt, call (CallTranscribe (seg_wavPath seg)) st)) /\
  (forall t payloads,
     transcribeAudio env = Returned (Some t) ->
     agentCommand_result env = Fulfilled payloads ->
     replyText_of payloads = [] ->
     fst (processSegment env r seg st) = Returned tt /\
     store st' = store st /\
     calls st' = calls st ++ [CallTranscribe (seg_wavPath seg);
                              CallAgentCommand (prompt_of env (seg_userId seg) t)
                                (sessionKey (route e)) (agentId (route e))]).
Proof.
  intros He st'. subst st'. split.
  - intros Ht. unfold processSegment. by rewrite He, Ht.
  - intros t payloads Ht Ha Hr. unfold processSegment. rewrite He, Ht.
    assert (Hty : truthy_opt (Some t) = true) by (by eapply transcribeAudio_Some).
    rewrite Hty. cbn [negb default]. rewrite Ha, Hr. simpl.
    split; [done|]. split; [done|]. by rewrite <- app_assoc.
Qed.

Lemma processSegment_stops_early_witness :
  processSegment
    {| attachments_length := 0;
       runCapability_result := Rejected (str "not asked");
       fetchMember_result := Rejected (str "unknown member");
       fetchUser_result := Rejected (str "unknown user");
       agentCommand_result := Rejected (str "not asked");
       parseTtsDirectives := fun text => {| override_ttsText := None; cleanedText := text |};
       textToSpeech_result := Rejected (str "not asked") |}
    0 example_segment example_joined
  = (Returned tt, call (CallTranscribe (str "/tmp/segment.wav")) example_joined).
Proof.
  assert (He : exists e, store example_joined !! 0%nat = Some e)
    by (eexists; vm_compute; reflexivity).
  destruct He as (e & He).
  refine (proj1 (processSegment_stops_early _ 0 example_segment example_joined e He) _).
  reflexivity.
Defined.

Section QueueLog.
Context {T : Type}.
Implicit Types (q : list (Link T)) (l : Link T).

Lemma elem_of_snoc (tr : list QEvent) ev x : x ∈ tr ++ [ev] <-> x ∈ tr \/ x = ev.
Proof. rewrite elem_of_app, list_elem_of_singleton. done. Qed.

Lemma lookup_insert_then q k l s j :
  q !! k = Some l ->
  <[k := with_then s l]> q !! j
  = if decide (j = k) then Some (with_then s l) else q !! j.
Proof.
  intros Hk. destruct (decide (j = k)) as [->|Hne].
  - by rewrite list_lookup_insert_eq by (by eapply lookup_lt_Some).
  - by rewrite list_lookup_insert_ne.
Qed.

Lemma lookup_insert_catch q k l s j :
  q !! k = Some l ->
  <[k := with_catch s l]> q !! j
  = if decide (j = k) then Some (with_catch s l) else q !! j.
Proof.
  intros Hk. destruct (decide (j = k)) as [->|Hne].
  - by rewrite list_lookup_insert_eq by (by eapply lookup_lt_Some).
  - by rewrite list_lookup_insert_ne.
Qed.

Lemma lookup_enqueue_old q t k l : q !! k = Some l -> enqueue q t !! k = Some l.
Proof. intros H. unfold enqueue. by apply lookup_app_l_Some. Qed.

(** A change of [then_state] at link [k] that does not go back to
    [TWaiting] and does not touch a rejected link keeps the first two facts. *)
Lemma log_then_step (tr : list QEvent) q k l s ev :
  q !! k = Some l -> s <> TWaiting ->
  (forall err, then_state l <> TRejected err) ->
  (forall k', ev = Started k' -> k' = k) ->
  (forall k' err, ev = FailedWith k' err -> k' = k /\ s = TRejected err) ->
  (forall k' err, ev <> Warned k' err) ->
  (forall k', ev <> Enqueued k') ->
  (catch_state l <> CFulfilled) ->
  log_inv tr q -> log_inv (tr ++ [ev]) (<[k := with_then s l]> q).
Proof.
  intros Hk Hs Hnr Hst Hfl Hwn Hen Hc (L1 & L2 & L3 & L4 & L5).
  split; [|split; [|split; [|split]]].
  - intros k' Hin. rewrite (lookup_insert_then q k l s k' Hk).
    destruct (decide (k' = k)) as [->|Hne]; [by eexists|].
    apply elem_of_snoc in Hin as [Hin|Hin]; [by apply L1|].
    symmetry in Hin. by apply Hst in Hin.
  - intros k' err Hin. rewrite (lookup_insert_then q k l s k' Hk).
    apply elem_of_snoc in Hin as [Hin|Hin].
    + destruct (L2 k' err Hin) as (l' & Hl' & Hr).
      destruct (decide (k' = k)) as [->|Hne]; [|by eexists].
      rewrite Hk in Hl'. injection Hl' as <-. by destruct (Hnr err).
    + symmetry in Hin. destruct (Hfl _ _ Hin) as [-> ->].
      rewrite decide_True by done. by eexists.
  - intros k' l' err Hl' Hr Hcf. apply elem_of_snoc. left.
    rewrite (lookup_insert_then q k l s k' Hk) in Hl'.
    destruct (decide (k' = k)) as [->|Hne]; [|by eapply L3].
    injection Hl' as <-. simpl in Hcf. done.
  - intros k' err Hin. apply elem_of_snoc. left.
    apply elem_of_snoc in Hin as [Hin|Hin]; [by apply L4|].
    symmetry in Hin. by destruct (Hwn _ _ Hin).
  - intros k' Hlt. rewrite length_insert in Hlt. apply elem_of_snoc. left. by apply L5.
Qed.

Lemma log_catch_step (tr : list QEvent) q k l ev :
  q !! k = Some l ->
  (forall err, then_state l = TRejected err -> ev = Warned k err) ->
  (forall k' err, ev = Warned k' err -> k' = k /\ then_state l = TRejected err) ->
  (forall k', ev <> Started k') ->
  (forall k' err, ev <> FailedWith k' err) ->
  trace_inv tr q ->
  log_inv tr q -> log_inv (tr ++ [ev]) (<[k := with_catch CFulfilled l]> q).
Proof.
  intros Hk Hrej Hwn Hst Hfl Htr (L1 & L2 & L3 & L4 & L5).
  split; [|split; [|split; [|split]]].
  - intros k' Hin. rewrite (lookup_insert_catch q k l _ k' Hk).
    apply elem_of_snoc in Hin as [Hin|Hin]; [|symmetry in Hin; by destruct (Hst _ Hin)].
    destruct (L1 k' Hin) as (l' & Hl' & Hw).
    destruct (decide (k' = k)) as [->|Hne]; [|by eexists].
    rewrite Hk in Hl'. injection Hl' as <-. by eexists.
  - intros k' err Hin. rewrite (lookup_insert_catch q k l _ k' Hk).
    apply elem_of_snoc in Hin as [Hin|Hin]; [|symmetry in Hin; by destruct (Hfl _ _ Hin)].
    destruct (L2 k' err Hin) as (l' & Hl' & Hr).
    destruct (decide (k' = k)) as [->|Hne]; [|by eexists].
    rewrite Hk in Hl'. injection Hl' as <-. by eexists.
  - intros k' l' err Hl' Hr Hcf. apply elem_of_snoc.
    rewrite (lookup_insert_catch q k l _ k' Hk) in Hl'.
    destruct (decide (k' = k)) as [->|Hne]; [|left; by eapply L3].
    injection Hl' as <-. simpl in Hr. right. symmetry. by apply Hrej.
  - intros k' err Hin. apply elem_of_snoc. left.
    apply elem_of_snoc in Hin as [Hin|Hin]; [by apply L4|].
    symmetry in Hin. destruct (Hwn _ _ Hin) as [-> Hr].
    by apply (Htr k l Hk).
  - intros k' Hlt. rewrite length_insert in Hlt. apply elem_of_snoc. left. by apply L5.
Qed.

Lemma qrun_log_inv tr q : qrun tr q -> log_inv tr q.
Proof.
  induction 1 as [|tr q ev q' Hrun IH Hstep].
  - split; [|split; [|split; [|split]]]; intros *; rewrite ?lookup_nil; try done;
      try (intros H; by apply elem_of_nil in H). simpl. lia.
  - pose proof (qrun_inv _ _ Hrun) as (I1 & I2 & I3).
    pose proof (qrun_trace_inv _ _ Hrun) as Htr.
    inversion Hstep as [q0 t|q0 k l Hk Hw Hb|q0 k l err Hk Hw Hb|q0 k l Hk Hr
                       |q0 k l err Hk Hr|q0 k l Hk Hf Hc|q0 k l err Hk Hf Hc]; subst.
    + (* enqueue *)
      destruct IH as (L1 & L2 & L3 & L4 & L5).
      split; [|split; [|split; [|split]]].
      * intros k Hin. apply elem_of_snoc in Hin as [Hin|Hin]; [|done].
        destruct (L1 k Hin) as (l & Hl & Hw). exists l. split; [|done].
        by apply lookup_enqueue_old.
      * intros k err Hin. apply elem_of_snoc in Hin as [Hin|Hin]; [|done].
        destruct (L2 k err Hin) as (l & Hl & Hr). exists l. split; [|done].
        by apply lookup_enqueue_old.
      * intros k l err Hl Hr Hcf. apply elem_of_snoc. left.
        destruct (lookup_enqueue _ _ _ _ Hl) as [Hl'|[-> ->]]; [by eapply L3|done].
      * intros k err Hin. apply elem_of_snoc. left.
        apply elem_of_snoc in Hin as [Hin|Hin]; [by apply L4|done].
      * intros k Hlt. unfold enqueue in Hlt. rewrite length_app in Hlt. simpl in Hlt.
        apply elem_of_snoc. destruct (decide (k = length q)) as [->|Hne]; [by right|].
        left. apply L5. lia.
    + (* start *)
      apply log_then_step; try done.
      * intros err. by rewrite Hw.
      * by intros k' [= ->].
      * intros Hcf. destruct (I2 _ _ Hk Hcf) as [E|[e E]]; rewrite E in Hw; done.
    + (* skip *)
      destruct k as [|k]; [done|]. simpl in Hb.
      destruct (q !! k) as [lk|] eqn:Ek; [|done].
      destruct (I1 _ _ Ek) as [E|E]; rewrite E in Hb; done.
    + (* complete *)
      apply log_then_step; try done.
      * intros err. by rewrite Hr.
      * intros Hcf. destruct (I2 _ _ Hk Hcf) as [E|[e E]]; rewrite E in Hr; done.
    + (* fail *)
      apply log_then_step; try done.
      * intros e. by rewrite Hr.
      * by intros k' e [= -> ->].
      * intros Hcf. destruct (I2 _ _ Hk Hcf) as [E|[e E]]; rewrite E in Hr; done.
    + (* pass *)
      apply log_catch_step; try done.
      * intros err. by rewrite Hf.
    + (* warn *)
      apply log_catch_step; try done.
      * intros e He. rewrite Hf in He. by injection He as ->.
      * by intros k' e [= -> ->].
Qed.

Lemma qrun_started_once tr q :
  qrun tr q ->
  forall i j k, tr !! i = Some (Started k) -> tr !! j = Some (Started k) -> i = j.
Proof.
  induction 1 as [|tr q ev q' Hrun IH Hstep]; intros i j k Hi Hj.
  - by rewrite lookup_nil in Hi.
  - assert (Hlast : forall n, (tr ++ [ev]) !! n = Some (Started k) ->
              tr !! n = Some (Started k) \/
              (n = length tr /\ ev = Started k /\ Started k ∉ tr)).
    { intros n Hn. apply lookup_app_Some in Hn as [Hn|[Hlen Hn]]; [by left|].
      right. destruct (n - length tr)%nat as [|m] eqn:E; simpl in Hn; [|by destruct m].
      injection Hn as ->. split; [lia|]. split; [done|].
      intros Hin. destruct (qrun_log_inv _ _ Hrun) as (L1 & _).
      destruct (L1 k Hin) as (l & Hl & Hw).
      inversion Hstep as [|q0 k0 l0 Hk0 Hw0 Hb| | | | |]; subst.
      rewrite Hk0 in Hl. injection Hl as ->. done. }
    destruct (Hlast i Hi) as [Hi'|(-> & _ & Hni)];
      destruct (Hlast j Hj) as [Hj'|(-> & _ & Hnj)]; [by eapply IH| | |done].
    + destruct Hnj. by eapply list_elem_of_lookup_2.
    + destruct Hni. by eapply list_elem_of_lookup_2.
Qed.

Lemma qrun_started_enqueued tr q :
  qrun tr q ->
  forall i k, tr !! i = Some (Started k) ->
  exists j, (j < i)%nat /\ tr !! j = Some (Enqueued k).
Proof.
  induction 1 as [|tr q ev q' Hrun IH Hstep]; intros i k Hi.
  - by rewrite lookup_nil in Hi.
  - apply lookup_app_Some in Hi as [Hi|[Hlen Hi]].
    + destruct (IH i k Hi) as (j & Hj & He). exists j. split; [done|].
      by apply lookup_app_l_Some.
    + destruct (i - length tr)%nat as [|m] eqn:E; simpl in Hi; [|by destruct m].
      injection Hi as ->.
      inversion Hstep as [|q0 k0 l0 Hk0 Hw0 Hb| | | | |]; subst.
      destruct (qrun_log_inv _ _ Hrun) as (_ & _ & _ & _ & L5).
      assert (Hin : Enqueued k ∈ tr) by (apply L5; by eapply lookup_lt_Some).
      apply list_elem_of_lookup in Hin as [j Hj]. exists j.
      split; [apply lookup_lt_Some in Hj; lia | by apply lookup_app_l_Some].
Qed.

Lemma qrun_failure_warned_before tr q :
  qrun tr q ->
  forall i k err, tr !! i = Some (Started (S k)) -> FailedWith k err ∈ tr ->
  exists j, (j < i)%nat /\ tr !! j = Some (Warned k err).
Proof.
  induction 1 as [|tr q ev q' Hrun IH Hstep]; intros i k err Hi Hf.
  - by rewrite lookup_nil in Hi.
  - assert (Hf' : FailedWith k err ∈ tr).
    { apply elem_of_snoc in Hf as [Hf|Hf]; [done|]. subst ev.
      (* the failure is the last event: the task after it has not started *)
      apply lookup_app_Some in Hi as [Hi|[Hlen Hi]].
      - inversion Hstep as [| | | |q0 k0 l0 e0 Hk0 Hr0| |]; subst.
        pose proof (qrun_inv _ _ Hrun) as (_ & I2 & I3).
        destruct (qrun_log_inv _ _ Hrun) as (L1 & _).
        destruct (L1 (S k)) as (l' & Hl' & Hw'); [by eapply list_elem_of_lookup_2|].
        assert (Hc : catch_state l0 = CFulfilled) by (by apply (I3 k (S k) l0 l'); [lia|..]).
        destruct (I2 _ _ Hk0 Hc) as [E|[e E]]; rewrite E in Hr0; done.
      - destruct (i - length tr)%nat as [|m]; simpl in Hi; [done|by destruct m]. }
    apply lookup_app_Some in Hi as [Hi|[Hlen Hi]].
    + destruct (IH i k err Hi Hf') as (j & Hj & Hw). exists j. split; [done|].
      by apply lookup_app_l_Some.
    + destruct (i - length tr)%nat as [|m] eqn:E; simpl in Hi; [|by destruct m].
      injection Hi as ->.
      inversion Hstep as [|q0 k0 l0 Hk0 Hw0 Hb| | | | |]; subst.
      destruct (qrun_log_inv _ _ Hrun) as (_ & L2 & L3 & _).
      destruct (L2 k err Hf') as (l & Hl & Hr).
      simpl in Hb. rewrite Hl in Hb.
      assert (Hin : Warned k err ∈ tr) by (by eapply L3).
      apply list_elem_of_lookup in Hin as [j Hj]. exists j.
      split; [apply lookup_lt_Some in Hj; lia | by apply lookup_app_l_Some].
Qed.

End QueueLog.

(** X12.  A task is run once: in a run of a queue the task function of a link
    is called at most once, and only after the link has been put on the
    queue. *)
Theorem task_runs_once {T} (tr : list QEvent) (q : list (Link T)) :
  qrun tr q ->
  (forall i j k, tr !! i = Some (Started k) -> tr !! j = Some (Started k) -> i = j) /\
  (forall i k, tr !! i = Some (Started k) ->
     exists j, (j < i)%nat /\ tr !! j = Some (Enqueued k)).
Proof.
  intros Hrun. split.
  - by apply qrun_started_once with (q := q).
  - by apply qrun_started_enqueued with (q := q).
Qed.

Lemma task_runs_once_witness :
  exists j, (j < 5)%nat /\ example_trace !! j = Some (Enqueued 1).
Proof.
  exact (proj2 (task_runs_once example_trace example_queue example_run) 5%nat 1%nat eq_refl).
Defined.

(** X13.  A failure of a task is logged, and the queue goes on only then: the
    error of a task that failed has been given to [logger.warn] before the
    task after it starts; a warning is for a task that failed, with its
    error; and [catch] has let a rejected task through only by the
    warning. *)
Theorem failures_are_logged {T} (tr : list QEvent) (q : list (Link T)) :
  qrun tr q ->
  (forall i k err, tr !! i = Some (Started (S k)) -> FailedWith k err ∈ tr ->
     exists j, (j < i)%nat /\ tr !! j = Some (Warned k err)) /\
  (forall k err, Warned k err ∈ tr -> FailedWith k err ∈ tr) /\
  (forall k l err, q !! k = Some l -> then_state l = TRejected err ->
     catch_state l = CFulfilled -> Warned k err ∈ tr).
Proof.
  intros Hrun. split; [|split].
  - by apply qrun_failure_warned_before with (q := q).
  - by destruct (qrun_log_inv _ _ Hrun) as (_ & _ & _ & L4 & _).
  - by destruct (qrun_log_inv _ _ Hrun) as (_ & _ & L3 & _).
Qed.

Lemma failures_are_logged_witness :
  exists j, (j < 5)%nat /\ example_trace !! j = Some (Warned 0 (str "boom")).
Proof.
  refine (proj1 (failures_are_logged example_trace example_queue example_run)
            5%nat 0%nat (str "boom") eq_refl _).
  apply list_elem_of_lookup. by exists 3%nat.
Defined.

Lemma connections_connection_destroyed_None c c' st :
  connections st !! c' = None -> connections (connection_destroyed c st) !! c' = None.
Proof.
  intros Hn. unfold connection_destroyed.
  destruct (connections st !! c) as [co|] eqn:Ec; [|done].
  destruct (status co); try done;
    (destruct (deletes_fields (on_destroyed co)
                 (set_connections (insert c (with_status Destroyed co)) st)) as (-> & _);
     simpl; rewrite lookup_insert_ne; [done | intros ->; congruence]).
Qed.

Lemma store_connection_destroyed c st : store (connection_destroyed c st) = store st.
Proof.
  unfold connection_destroyed.
  destruct (connections st !! c) as [co|]; [|done].
  destruct (status co); try done;
    by destruct (deletes_fields (on_destroyed co)
                   (set_connections (insert c (with_status Destroyed co)) st))
      as (_ & -> & _).
Qed.

Lemma calls_stop e st :
  calls (stop e st)
  = calls st ++ [CallPlayerStop (player e) false; CallConnectionDestroy (connection e)].
Proof.
  unfold stop, connection_destroy. rewrite calls_connection_destroyed. simpl.
  by rewrite <- app_assoc.
Qed.

Lemma join_begin_effects params st g ch st1 :
  join_begin params st = (Await (g, ch), st1) ->
  store st1 = store st /\
  (forall c, connections st !! c = None -> connections st1 !! c = None) /\
  (exists l, calls st1 = calls st ++ l ++ [CallFetchChannel ch]).
Proof.
  unfold join_begin. destruct (negb (voiceEnabled st)); [done|].
  destruct (_ || _); [done|].
  destruct (sessions_get _ st) as [[r e]|] eqn:Eg.
  - destruct (bool_decide _); [done|]. intros [= <- <- <-].
    unfold leave. cbn [leave_guildId leave_channelId]. rewrite trim_idem, Eg.
    cbn [truthy_opt andb snd].
    split; [|split].
    + change (store (stop e st) = store st). apply store_stop.
    + intros c Hc. change (connections (stop e st) !! c = None).
      by apply connections_stop_None.
    + exists [CallPlayerStop (player e) false; CallConnectionDestroy (connection e)].
      change (calls (stop e st) ++ [CallFetchChannel (trim (join_channelId params))]
              = calls st
                ++ [CallPlayerStop (player e) false; CallConnectionDestroy (connection e)]
                ++ [CallFetchChannel (trim (join_channelId params))]).
      rewrite calls_stop. by rewrite <- app_assoc.
  - intros [= <- <- <-]. split; [done|]. split; [done|]. by exists [].
Qed.

Lemma join_fetched_accepted g ch fetched plugin joined st :
  channel_accepted fetched g ->
  join_fetched g ch fetched plugin joined st
  = if negb plugin then (Done (Returned plugin_unavailable), st)
    else match joined with
         | Threw err => (Done (Threw err), call (CallJoinVoiceChannel g ch) st)
         | Returned c => (Await c, joinVoiceChannel c g ch st)
         end.
Proof.
  intros (info & -> & Ht & Hg). unfold join_fetched. simpl.
  replace (match info_type info with
           | Some type => negb (isVoiceChannel type)
           | None => false
           end) with false
    by (destruct (info_type info) as [type|]; [by rewrite (Ht type)|done]).
  replace (truthy_opt (info_guildId info) &&
           negb (bool_decide (info_guildId info = Some g))) with false; [done|].
  destruct (info_guildId info) as [g'|]; [|done].
  destruct (Hg g' eq_refl) as [->| ->]; [done|].
  rewrite bool_decide_true by done. by rewrite andb_false_r.
Qed.

Lemma looks_up_begin params st :
  wf st -> looks_channel_up params st ->
  exists st1,
    join_begin params st
    = (Await (trim (join_guildId params), trim (join_channelId params)), st1) /\
    sessions st1 !! trim (join_guildId params) = None /\
    store st1 = store st /\
    (forall c, connections st !! c = None -> connections st1 !! c = None) /\
    (exists l, calls st1 = calls st ++ l ++ [CallFetchChannel (trim (join_channelId params))]).
Proof.
  intros Hwf Hl. destruct (join_begin_looks_up params st Hwf Hl) as (st1 & E & Hs).
  exists st1. split; [done|]. split; [done|]. by apply (join_begin_effects params st _ _ _ E).
Qed.

(** X14.  [join] joins: when the call gets to the channel lookup, the channel
    is accepted, the voice plugin is there, [joinVoiceChannel] hands out a
    new connection and the connection gets ready, [join] returns success
    with "Joined <#channel>.", and afterwards the guild is registered with a
    new session object for that channel, with empty queues and no active
    speaker, whose connection is ready and carries the three listeners, and
    whose player is idle and subscribed to the connection. *)
Theorem join_registers_session (env : JoinEnv) (params : JoinParams) (st : State)
  (c : nat) :
  reachable st ->
  looks_channel_up params st ->
  channel_accepted (fetchChannel_result env) (trim (join_guildId params)) ->
  getPlugin_result env = true ->
  joinVoiceChannel_result env = Returned c ->
  connections st !! c = None ->
  entersState_result env = Fulfilled tt ->
  let g := trim (join_guildId params) in
  let ch := trim (join_channelId params) in
  let r := length (store st) in
  exists st',
    join env params st = (Returned (joined_channel g ch), st') /\
    sessions_get g st'
    = Some (r, new_session g ch (resolveAgentRoute_result env) c r) /\
    connections st' !! c
    = Some {| status := Ready; on_speaking_start := [r];
              on_disconnected := [g]; on_destroyed := [g] |} /\
    players st' !! r = Some Idle /\
    exists l, calls st' = calls st ++ l ++ [CallFetchChannel ch;
                                            CallJoinVoiceChannel g ch;
                                            CallConnectionSubscribe c r].
Proof.
  intros Hreach Hl Hacc Hplug Hjoin Hfresh Hready g ch r.
  pose proof (reachable_wf st Hreach) as Hwf.
  destruct (looks_up_begin params st Hwf Hl) as (st1 & Eb & Hs1 & Hst1 & Hc1 & l & Hcalls).
  fold g ch in Eb, Hs1, Hcalls.
  assert (Hf : join_fetched g ch (fetchChannel_result env) (getPlugin_result env)
                 (joinVoiceChannel_result env) st1
               = (Await c, joinVoiceChannel c g ch st1)).
  { rewrite (join_fetched_accepted g ch _ _ _ st1 Hacc). by rewrite Hplug, Hjoin. }
  set (st2 := joinVoiceChannel c g ch st1) in *.
  assert (Hc2 : connections st2 !! c
                = Some {| status := Signalling; on_speaking_start := [];
                          on_disconnected := []; on_destroyed := [] |}).
  { unfold st2, joinVoiceChannel. simpl. rewrite (Hc1 c Hfresh). simpl.
    by rewrite lookup_insert_eq. }
  assert (Hst2 : store st2 = store st).
  { unfold st2, joinVoiceChannel. simpl. by destruct (connections st1 !! c). }
  assert (Hs2 : sessions st2 = sessions st1).
  { unfold st2, joinVoiceChannel. simpl. by destruct (connections st1 !! c). }
  assert (Hcalls2 : calls st2 = calls st1 ++ [CallJoinVoiceChannel g ch]).
  { unfold st2, joinVoiceChannel. simpl. by destruct (connections st1 !! c). }
  destruct (join_ready_fields g ch c (resolveAgentRoute_result env) st2 _ Hc2)
    as (Hconn & Hstore & Hsess).
  exists (snd (join_ready g ch c (Fulfilled tt) (resolveAgentRoute_result env) st2)).
  split; [|split; [|split; [|split]]].
  - unfold join. rewrite Eb, Hf, Hready. reflexivity.
  - unfold sessions_get. rewrite Hsess, lookup_insert_eq, Hstore, Hst2.
    fold r. rewrite lookup_app_r by done. by rewrite Nat.sub_diag.
  - rewrite Hconn, lookup_insert_eq, Hst2. reflexivity.
  - simpl. rewrite Hst2. destruct (connections st2 !! c); simpl;
      by rewrite lookup_insert_eq.
  - exists l. simpl. rewrite Hst2, Hcalls2, Hcalls. fold r.
    destruct (connections st2 !! c); simpl; by rewrite <- !app_assoc.
Qed.

Lemma looks_channel_up_new cfg bot g ch :
  config_enabled cfg = true -> trim (str g) <> [] -> trim (str ch) <> [] ->
  looks_channel_up (join_params g ch) (new_manager cfg bot).
Proof.
  intros He Hg Hc. split; [done|]. split; [done|]. split; [done|].
  intros r e H. unfold sessions_get in H. simpl in H. by rewrite lookup_empty in H.
Qed.

Lemma channel_accepted_example g c :
  channel_accepted (fetchChannel_result (example_join_env g c)) g.
Proof.
  eexists. split; [reflexivity|]. split.
  - intros type [= <-]. reflexivity.
  - intros g' [= <-]. by right.
Qed.

Lemma join_registers_session_witness :
  exists st',
    join (example_join_env (str "g1") 1) (join_params "g1" "c1")
         (new_manager example_config None)
    = (Returned (joined_channel (str "g1") (str "c1")), st') /\
    sessions_get (str "g1") st'
    = Some (0%nat, new_session (str "g1") (str "c1") example_route 1 0).
Proof.
  destruct (join_registers_session (example_join_env (str "g1") 1) (join_params "g1" "c1")
              (new_manager example_config None) 1)
    as (st' & Hj & Hs & _).
  - apply reach_new.
  - apply looks_channel_up_new; [reflexivity | discriminate | discriminate].
  - apply channel_accepted_example.
  - reflexivity.
  - reflexivity.
  - reflexivity.
  - reflexivity.
  - by exists st'.
Defined.

Lemma sessions_connection_destroy_None c st g :
  sessions st !! g = None -> sessions (connection_destroy c st) !! g = None.
Proof.
  intros Hn. unfold connection_destroy.
  destruct (sessions (connection_destroyed c (call (CallConnectionDestroy c) st)) !! g)
    as [r|] eqn:E; [|done].
  apply sessions_connection_destroyed in E. simpl in E. congruence.
Qed.

Lemma connection_destroy_not_live c st : ~ conn_live c (connection_destroy c st).
Proof.
  intros H. unfold connection_destroy in H.
  apply connection_destroyed_not_live in H as [_ H]. done.
Qed.

(** X15.  When [join] has looked an accepted channel up and cannot go on, it
    leaves nothing behind.  Without the voice plugin it returns a failure
    and no connection is asked for.  When the connection does not get ready
    in time, the connection is destroyed, the failure carries the error, and
    no session object is made.  When [joinVoiceChannel] throws, [join]
    throws that error.  In all three cases the guild has no session
    afterwards. *)
Theorem join_gives_up_cleanly (env : JoinEnv) (params : JoinParams) (st : State) :
  reachable st ->
  looks_channel_up params st ->
  channel_accepted (fetchChannel_result env) (trim (join_guildId params)) ->
  let g := trim (join_guildId params) in
  let ch := trim (join_channelId params) in
  let st1 := snd (join_begin params st) in
  (getPlugin_result env = false ->
     join env params st = (Returned plugin_unavailable, st1) /\
     sessions st1 !! g = None) /\
  (forall err, getPlugin_result env = true ->
     joinVoiceChannel_result env = Threw err ->
     exists st', join env params st = (Threw err, st') /\ sessions st' !! g = None /\
                 store st' = store st) /\
  (forall c err, getPlugin_result env = true ->
     joinVoiceChannel_result env = Returned c ->
     entersState_result env = Rejected err ->
     exists st',
       join env params st = (Returned (failed_to_join err), st') /\
       sessions st' !! g = None /\
       store st' = store st /\
       ~ conn_live c st' /\
       calls st' = calls st1 ++ [CallJoinVoiceChannel g ch; CallConnectionDestroy c]).
Proof.
  intros Hreach Hl Hacc g ch st1. subst st1.
  pose proof (reachable_wf st Hreach) as Hwf.
  destruct (looks_up_begin params st Hwf Hl) as (st1 & Eb & Hs1 & Hst1 & Hc1 & l & Hcalls).
  fold g ch in Eb, Hs1, Hcalls. rewrite Eb. cbn [snd].
  pose proof (join_fetched_accepted g ch _ (getPlugin_result env)
                (joinVoiceChannel_result env) st1 Hacc) as Hf.
  split; [|split].
  - intros Hp. split; [|done]. unfold join. by rewrite Eb, Hf, Hp.
  - intros err Hp Hj. eexists. split; [|split].
    + unfold join. rewrite Eb, Hf, Hp, Hj. reflexivity.
    + done.
    + done.
  - intros c err Hp Hj Hr.
    exists (connection_destroy c (joinVoiceChannel c g ch st1)).
    assert (Hjv : sessions (joinVoiceChannel c g ch st1) = sessions st1 /\
                  store (joinVoiceChannel c g ch st1) = store st1 /\
                  calls (joinVoiceChannel c g ch st1)
                  = calls st1 ++ [CallJoinVoiceChannel g ch]).
    { unfold joinVoiceChannel. simpl. by destruct (connections st1 !! c). }
    destruct Hjv as (Hjs & Hjst & Hjc).
    split; [|split; [|split; [|split]]].
    + unfold join. rewrite Eb, Hf, Hp, Hj, Hr. reflexivity.
    + apply sessions_connection_destroy_None. by rewrite Hjs.
    + unfold connection_destroy. rewrite store_connection_destroyed. simpl.
      by rewrite Hjst.
    + apply connection_destroy_not_live.
    + unfold connection_destroy. rewrite calls_connection_destroyed. simpl.
      rewrite Hjc. by rewrite <- app_assoc.
Qed.

Lemma join_gives_up_cleanly_witness :
  exists st',
    join {| fetchChannel_result := Fulfilled (Some (voice_channel_of (str "g1")));
            getPlugin_result := true;
            joinVoiceChannel_result := Returned 1%nat;
            entersState_result := Rejected (str "AbortError");
            resolveAgentRoute_result := example_route |}
         (join_params "g1" "c1") (new_manager example_config None)
    = (Returned (failed_to_join (str "AbortError")), st') /\
    sessions st' !! str "g1" = None /\
    ~ conn_live 1 st'.
Proof.
  destruct (proj2 (proj2 (join_gives_up_cleanly
              {| fetchChannel_result := Fulfilled (Some (voice_channel_of (str "g1")));
                 getPlugin_result := true;
                 joinVoiceChannel_result := Returned 1%nat;
                 entersState_result := Rejected (str "AbortError");
                 resolveAgentRoute_result := example_route |}
              (join_params "g1" "c1") (new_manager example_config None)
              (reach_new _ _ _)
              (looks_channel_up_new example_config None "g1" "c1" eq_refl
                 ltac:(discriminate) ltac:(discriminate))
              (channel_accepted_example (str "g1") 1)))
            1%nat (str "AbortError") eq_refl eq_refl eq_refl)
    as (st' & Hj & Hs & _ & Hl & _).
  by exists st'.
Defined.

(** *** What the answer of [join] says *)

Lemma no_session_when_disabled st g r e :
  wf st -> voiceEnabled st = false -> sessions_get g st <> Some (r, e).
Proof.
  intros Hwf Hd H. destruct (registered_facts st g r e Hwf H) as (Hen & _). congruence.
Qed.

Lemma join_ready_registers g ch c u route st :
  sessions_get g (snd (join_ready g ch c (Fulfilled u) route st))
  = Some (length (store st), new_session g ch route c (length (store st))).
Proof.
  unfold join_ready, sessions_get. cbn [snd].
  change (store (set_status c Ready st)) with (store st).
  cbn [sessions set_sessions]. rewrite lookup_insert_eq.
  cbn [store set_sessions add_listeners set_connections set_store call set_players
       set_status].
  rewrite lookup_app_r by done. by rewrite Nat.sub_diag.
Qed.

Lemma join_begin_unregisters params st g ch st1 :
  wf st -> join_begin params st = (Await (g, ch), st1) -> sessions st1 !! g = None.
Proof.
  intros Hwf. unfold join_begin. destruct (negb (voiceEnabled st)); [done|].
  destruct (_ || _); [done|].
  destruct (sessions_get _ st) as [[r e]|] eqn:Eg.
  - destruct (bool_decide _); [done|]. intros [= <- <- <-].
    unfold leave. cbn [leave_guildId leave_channelId]. rewrite trim_idem, Eg.
    cbn [truthy_opt andb snd]. simpl. apply lookup_delete_eq.
  - intros [= <- <- <-]. simpl. by apply sessions_get_None.
Qed.

Lemma join_fetched_done g ch fetched plugin joined st res st2 :
  join_fetched g ch fetched plugin joined st = (Done (Returned res), st2) ->
  ok res = false /\ st2 = st.
Proof.
  unfold join_fetched. destruct (catch_with fetched None) as [info|].
  - destruct (match info_type info with Some _ => _ | None => _ end);
      [by intros [= <- <-]|].
    destruct (_ && _); [by intros [= <- <-]|].
    destruct (negb plugin); [by intros [= <- <-]|].
    by destruct joined.
  - by intros [= <- <-].
Qed.

Lemma join_fetched_await g ch fetched plugin joined st c st2 :
  join_fetched g ch fetched plugin joined st = (Await c, st2) ->
  st2 = joinVoiceChannel c g ch st.
Proof.
  unfold join_fetched. destruct (catch_with fetched None) as [info|]; [|done].
  destruct (match info_type info with Some _ => _ | None => _ end); [done|].
  destruct (_ && _); [done|]. destruct (negb plugin); [done|].
  destruct joined; [|done]. by intros [= <- <-].
Qed.

Lemma sessions_joinVoiceChannel c g ch st :
  sessions (joinVoiceChannel c g ch st) = sessions st.
Proof. unfold joinVoiceChannel. simpl. by destruct (connections st !! c). Qed.

(** X16.  The answer of [join] is true to the registry: when [join] returns,
    its result says [ok] exactly when the guild is registered, after the
    call, with a session on the channel that was asked for; and then the
    result carries the guild id and the channel id, trimmed. *)
Theorem join_answer_is_true (env : JoinEnv) (params : JoinParams) (st st' : State)
  (res : VoiceOperationResult) :
  reachable st ->
  join env params st = (Returned res, st') ->
  let g := trim (join_guildId params) in
  let ch := trim (join_channelId params) in
  (ok res = true <->
   exists r e, sessions_get g st' = Some (r, e) /\ channelId e = ch) /\
  (ok res = true -> res_guildId res = Some g /\ res_channelId res = Some ch).
Proof.
  intros Hreach Hj g ch. pose proof (reachable_wf st Hreach) as Hwf.
  unfold join in Hj.
  destruct (join_begin params st) as [[res0|[g0 ch0]] st1] eqn:Eb.
  - injection Hj as -> ->. unfold join_begin in Eb. fold g ch in Eb.
    destruct (voiceEnabled st) eqn:Hen; simpl in Eb.
    + destruct (negb (truthy g) || negb (truthy ch)) eqn:Hm.
      * injection Eb as <- <-. simpl. split; [|done]. split; [done|].
        intros (r & e & Hs & Hch).
        destruct (registered_facts st g r e Hwf Hs) as (_ & _ & [_ Hg] & [_ Hc]).
        rewrite Hch in Hc.
        destruct g; [done|]. by destruct ch.
      * destruct (sessions_get g st) as [[r e]|] eqn:Eg; [|done].
        destruct (bool_decide (channelId e = ch)) eqn:Hd; [|done].
        apply bool_decide_eq_true in Hd.
        injection Eb as <- <-. simpl. split; [|done]. split; [|done].
        intros _. by exists r, e.
    + injection Eb as <- <-. simpl. split; [|done]. split; [done|].
      intros (r & e & Hs & _). exfalso. by apply (no_session_when_disabled st g r e).
  - destruct (join_begin_await params st g0 ch0 st1 Eb) as (Hen & -> & -> & Hg & Hc).
    fold g ch in Hj, Eb.
    pose proof (join_begin_unregisters params st g ch st1 Hwf Eb) as Hs1.
    destruct (join_fetched g ch _ _ _ st1) as [[resf|c] st2] eqn:Ef.
    + injection Hj as -> ->.
      destruct (join_fetched_done _ _ _ _ _ _ _ _ Ef) as [Hok ->].
      rewrite Hok. split; [|done]. split; [done|].
      intros (r & e & Hs & _). exfalso. apply sessions_get_Some in Hs as [Hs _]. congruence.
    + apply join_fetched_await in Ef. subst st2.
      destruct (entersState_result env) as [u|err].
      * pose proof (join_ready_registers g ch c u (resolveAgentRoute_result env)
                      (joinVoiceChannel c g ch st1)) as Hreg.
        rewrite Hj in Hreg. simpl in Hreg.
        injection Hj as <- <-. simpl. split; [|done]. split; [|done].
        intros _. eexists _, _. split; [exact Hreg|done].
      * simpl in Hj. injection Hj as <- <-. simpl. split; [|done]. split; [done|].
        intros (r & e & Hs & _). exfalso. apply sessions_get_Some in Hs as [Hs _].
        rewrite sessions_connection_destroy_None in Hs; [done|].
        by rewrite sessions_joinVoiceChannel.
Qed.

Lemma join_answer_is_true_witness :
  exists r e, sessions_get (str "g1") example_joined = Some (r, e) /\
              channelId e = str "c1".
Proof.
  refine (proj1 (proj1 (join_answer_is_true (example_join_env (str "g1") 1)
                          (join_params "g1" "c1") (new_manager example_config None)
                          example_joined (joined_channel (str "g1") (str "c1"))
                          (reach_new _ _ _) _)) _).
  - vm_compute. reflexivity.
  - reflexivity.
Defined.

Lemma listening_inv_same st st' :
  connections st' = connections st ->
  (forall g r, sessions st' !! g = Some r -> sessions st !! g = Some r) ->
  Forall2 entry_same (store st) (store st') ->
  listening_inv st -> listening_inv st'.
Proof.
  intros Hc Hs Hst [HL HR]. split.
  - intros r e' He'.
    destruct (Forall2_lookup_r _ _ _ _ _ Hst He') as (e & He & Hg & _ & Hco & _).
    rewrite Hc, Hco, Hg. by apply (HL r e).
  - intros g r e' Hg He'.
    destruct (Forall2_lookup_r _ _ _ _ _ Hst He') as (e & He & _ & _ & Hco & _).
    rewrite Hco. apply (conn_live_ext _ st st' Hc). by apply (HR g r e); [apply Hs|].
Qed.

Lemma listening_inv_quiet st st' : quiet st st' -> listening_inv st -> listening_inv st'.
Proof.
  intros (Hs & Hc & _ & _ & Hst). apply listening_inv_same; [done| |done].
  intros g r. by rewrite Hs.
Qed.

Lemma Forall2_entry_same_refl (s : list VoiceSessionEntry) : Forall2 entry_same s s.
Proof. apply Forall2_same_length_lookup. split; [done|]. intros i x y -> [= ->]. reflexivity. Qed.

Lemma listening_inv_kill c co st :
  wf st -> listening_inv st -> connections st !! c = Some co ->
  listening_inv (deletes (on_destroyed co)
                   (set_connections (insert c (with_status Destroyed co)) st)).
Proof.
  intros (_ & W1 & _) [HL HR] Hc.
  destruct (deletes_fields (on_destroyed co)
              (set_connections (insert c (with_status Destroyed co)) st))
    as (Hconn & Hstore & _).
  simpl in Hconn, Hstore. split.
  - intros r e He. rewrite Hstore in He. rewrite Hconn.
    destruct (HL r e He) as (co' & Hco' & H1 & H2 & H3).
    destruct (decide (connection e = c)) as [Heq|Hne].
    + rewrite Heq in *. rewrite Hc in Hco'. injection Hco' as <-.
      rewrite lookup_insert_eq. by eexists.
    + rewrite lookup_insert_ne by done. by eexists.
  - intros g r e Hg He. rewrite Hstore in He.
    apply deletes_lookup in Hg as [Hg Hnot]. simpl in Hg.
    destruct (HR g r e Hg He) as (co' & Hco' & Hlive).
    destruct (decide (connection e = c)) as [Heq|Hne].
    + exfalso. apply Hnot.
      destruct (HL r e He) as (co2 & Hco2 & _ & _ & H3).
      rewrite Heq, Hc in Hco2. injection Hco2 as <-.
      destruct (W1 g r Hg) as (e2 & He2 & <-). rewrite He in He2. by injection He2 as <-.
    + exists co'. split; [|done]. rewrite Hconn. by rewrite lookup_insert_ne.
Qed.

Lemma listening_inv_connection_destroyed c st :
  wf st -> listening_inv st -> listening_inv (connection_destroyed c st).
Proof.
  intros Hwf Hinv. unfold connection_destroyed.
  destruct (connections st !! c) as [co|] eqn:Hc; [|done].
  destruct (status co); try done; by apply listening_inv_kill.
Qed.

Lemma listening_inv_call c st : listening_inv st -> listening_inv (call c st).
Proof. apply listening_inv_quiet, quiet_call. Qed.

Lemma listening_inv_connection_destroy c st :
  wf st -> listening_inv st -> listening_inv (connection_destroy c st).
Proof.
  intros Hwf Hinv. unfold connection_destroy.
  apply listening_inv_connection_destroyed.
  - eapply wf_preserved; [done | apply wf_frame_call].
  - by apply listening_inv_call.
Qed.

Lemma listening_inv_stop e st : wf st -> listening_inv st -> listening_inv (stop e st).
Proof.
  intros Hwf Hinv. unfold stop. apply listening_inv_connection_destroy.
  - eapply wf_preserved; [done | apply wf_frame_player_stop].
  - eapply listening_inv_quiet; [apply quiet_player_stop | done].
Qed.

Lemma listening_inv_delete g st :
  listening_inv st -> listening_inv (set_sessions (delete g) st).
Proof.
  apply listening_inv_same; [done| |apply Forall2_entry_same_refl].
  intros g' r. simpl. rewrite lookup_delete_Some. by intros [_ ?].
Qed.

Lemma listening_inv_clear st :
  listening_inv st -> listening_inv (set_sessions (fun _ => ∅) st).
Proof.
  apply listening_inv_same; [done| |apply Forall2_entry_same_refl].
  intros g' r. simpl. by rewrite lookup_empty.
Qed.

Lemma listening_inv_leave params st :
  wf st -> listening_inv st -> listening_inv (snd (leave params st)).
Proof.
  intros Hwf Hinv. unfold leave.
  destruct (sessions_get _ st) as [[r e]|]; [|done].
  destruct (_ && _); [done|]. simpl.
  apply listening_inv_delete. by apply listening_inv_stop.
Qed.

Lemma listening_inv_set_status c s st :
  s <> Destroyed -> listening_inv st -> listening_inv (set_status c s st).
Proof.
  intros Hs [HL HR]. unfold set_status.
  destruct (connections st !! c) as [co|] eqn:Hc.
  - split.
    + intros r e He. simpl in *. rewrite Hc.
      destruct (HL r e He) as (co' & Hco' & H1 & H2 & H3).
      destruct (decide (connection e = c)) as [Heq|Hne].
      * rewrite Heq in *. rewrite Hc in Hco'. injection Hco' as <-.
        rewrite lookup_insert_eq. by eexists.
      * rewrite lookup_insert_ne by done. by eexists.
    + intros g r e Hg He. simpl in *.
      destruct (HR g r e Hg He) as (co' & Hco' & Hlive).
      unfold conn_live. simpl. rewrite Hc.
      destruct (decide (connection e = c)) as [Heq|Hne].
      * rewrite Heq, lookup_insert_eq. eexists. split; [reflexivity|]. exact Hs.
      * rewrite lookup_insert_ne by done. by eexists.
  - split.
    + intros r e He. simpl in *. rewrite Hc. by apply HL.
    + intros g r e Hg He. simpl in *.
      destruct (HR g r e Hg He) as (co' & Hco' & Hlive).
      exists co'. simpl. by rewrite Hc.
Qed.

Lemma listening_inv_joinVoiceChannel c g ch st :
  listening_inv st -> listening_inv (joinVoiceChannel c g ch st).
Proof.
  intros [HL HR]. unfold joinVoiceChannel. simpl.
  destruct (connections st !! c) as [co|] eqn:Hc.
  - by apply listening_inv_call.
  - split.
    + intros r e He. simpl in *.
      destruct (HL r e He) as (co' & Hco' & H).
      exists co'. split; [|done]. rewrite lookup_insert_ne; [done|].
      intros Heq. rewrite <- Heq in Hco'. congruence.
    + intros g' r e Hg He. simpl in *.
      destruct (HR g' r e Hg He) as (co' & Hco' & Hlive).
      exists co'. split; [|done]. simpl. rewrite lookup_insert_ne; [done|].
      intros Heq. rewrite <- Heq in Hco'. congruence.
Qed.

Lemma listening_inv_join_ready_ok g ch c u route st :
  listening_inv st -> is_Some (connections st !! c) ->
  listening_inv (snd (join_ready g ch c (Fulfilled u) route st)).
Proof.
  intros [HL HR] [co0 Hc0]. destruct u.
  destruct (join_ready_fields g ch c route st _ Hc0) as (Hconn & Hstore & Hsess).
  split.
  - intros r e He. rewrite Hstore in He. rewrite Hconn.
    apply lookup_app_Some in He as [He|[Hlen He]].
    + destruct (HL r e He) as (co' & Hco' & H1 & H2 & H3).
      destruct (decide (connection e = c)) as [Heq|Hne].
      * rewrite Heq in *. rewrite Hc0 in Hco'. injection Hco' as <-.
        rewrite lookup_insert_eq. eexists. split; [done|]. simpl.
        rewrite !elem_of_app. auto.
      * rewrite lookup_insert_ne by done. by eexists.
    + destruct (r - length (store st))%nat as [|n] eqn:En; simpl in He; [|by destruct n].
      injection He as <-. simpl. rewrite lookup_insert_eq.
      eexists. split; [done|]. simpl. rewrite !elem_of_app, !list_elem_of_singleton.
      split; [right; lia | auto].
  - intros g' r e Hg He. rewrite Hstore in He. rewrite Hsess in Hg.
    unfold conn_live. rewrite Hconn.
    destruct (decide (connection e = c)) as [Heq|Hne].
    { rewrite Heq, lookup_insert_eq. eexists. split; [reflexivity|]. done. }
    rewrite lookup_insert_ne by done.
    apply lookup_app_Some in He as [He|[Hlen He]].
    + destruct (decide (g' = g)) as [->|Hg'].
      * rewrite lookup_insert_eq in Hg. injection Hg as <-.
        apply lookup_lt_Some in He. lia.
      * rewrite lookup_insert_ne in Hg by done. by apply (HR g' r e).
    + destruct (r - length (store st))%nat as [|n] eqn:En; simpl in He; [|by destruct n].
      injection He as <-. simpl in Hne. done.
Qed.

Lemma listening_inv_join_begin params st :
  wf st -> listening_inv st -> listening_inv (snd (join_begin params st)).
Proof.
  intros Hwf Hinv. unfold join_begin.
  destruct (negb (voiceEnabled st)); [done|]. destruct (_ || _); [done|].
  destruct (sessions_get _ st) as [[r e]|]; [|by apply listening_inv_call].
  destruct (bool_decide _); [done|]. simpl.
  apply listening_inv_call. by apply listening_inv_leave.
Qed.

Lemma listening_inv_join_teardown params st :
  wf st -> listening_inv st -> listening_inv (snd (join_teardown params st)).
Proof.
  intros Hwf Hinv. unfold join_teardown.
  destruct (negb (voiceEnabled st)); [done|]. destruct (_ || _); [done|].
  destruct (sessions_get _ st) as [[r e]|]; [|done].
  destruct (bool_decide _); [done|]. simpl.
  by apply listening_inv_leave.
Qed.

Lemma listening_inv_join_fetched g ch fetched plugin joined st :
  listening_inv st ->
  listening_inv (snd (join_fetched g ch fetched plugin joined st)).
Proof.
  intros Hinv. unfold join_fetched.
  destruct (catch_with fetched None) as [info|]; [|done].
  destruct (match info_type info with Some _ => _ | None => _ end); [done|].
  destruct (_ && _); [done|]. destruct (negb plugin); [done|].
  destruct joined; simpl; [by apply listening_inv_joinVoiceChannel|].
  by apply listening_inv_call.
Qed.

Lemma joinVoiceChannel_known c g ch st :
  is_Some (connections (joinVoiceChannel c g ch st) !! c).
Proof.
  unfold joinVoiceChannel. simpl.
  destruct (connections st !! c) as [co|] eqn:Hc; simpl; [by rewrite Hc|].
  by rewrite lookup_insert_eq.
Qed.

Lemma listening_inv_join_ready g ch c ready route st :
  wf st -> listening_inv st ->
  (forall u, ready = Fulfilled u -> is_Some (connections st !! c)) ->
  listening_inv (snd (join_ready g ch c ready route st)).
Proof.
  intros Hwf Hinv Hk. destruct ready as [u|err].
  - apply listening_inv_join_ready_ok; [done | by eapply Hk].
  - simpl. by apply listening_inv_connection_destroy.
Qed.

Lemma listening_inv_join env params st :
  wf st -> listening_inv st -> listening_inv (snd (join env params st)).
Proof.
  intros Hwf Hinv. unfold join.
  pose proof (listening_inv_join_begin params st Hwf Hinv) as H1.
  pose proof (wf_preserved _ _ Hwf (wf_frame_join_begin params st)) as Hwf1.
  destruct (join_begin params st) as [[res|[g ch]] st1]; [done|]. simpl in H1, Hwf1.
  pose proof (listening_inv_join_fetched g ch (fetchChannel_result env)
                (getPlugin_result env) (joinVoiceChannel_result env) st1 H1) as H2.
  pose proof (wf_preserved _ _ Hwf1
                (wf_frame_join_fetched g ch (fetchChannel_result env)
                   (getPlugin_result env) (joinVoiceChannel_result env) st1)) as Hwf2.
  destruct (join_fetched g ch _ _ _ st1) as [[res|c] st2] eqn:Ef; [done|].
  simpl in H2, Hwf2. apply listening_inv_join_ready; [done|done|].
  intros _ _. apply join_fetched_await in Ef. subst st2. apply joinVoiceChannel_known.
Qed.

Lemma listening_inv_autoJoin_loop env entries : forall i seen st,
  wf st -> listening_inv st -> listening_inv (autoJoin_loop entries i seen env st).
Proof.
  induction entries as [|entry rest IH]; intros i seen st Hwf Hinv; [done|]. simpl.
  destruct (negb (truthy _)); [by apply IH|].
  destruct (bool_decide _).
  - apply IH; [|by apply listening_inv_call].
    eapply wf_preserved; [done | apply wf_frame_call].
  - pose proof (listening_inv_join (env i)
                  {| join_guildId := auto_guildId entry;
                     join_channelId := auto_channelId entry |} st Hwf Hinv) as H1.
    pose proof (wf_join (env i)
                  {| join_guildId := auto_guildId entry;
                     join_channelId := auto_channelId entry |} st Hwf) as Hwf1.
    destruct (join _ _ st) as [[res|err] st1]; [by apply IH | done].
Qed.

Lemma listening_inv_autoJoin env st :
  wf st -> listening_inv st -> listening_inv (autoJoin env st).
Proof.
  intros Hwf Hinv. unfold autoJoin.
  destruct (negb (voiceEnabled st)); [done|]. destruct (autoJoinTask st); [done|].
  eapply listening_inv_quiet; [apply quiet_set_autoJoinTask|].
  apply listening_inv_autoJoin_loop.
  - by apply wf_set_autoJoinTask.
  - eapply listening_inv_quiet; [apply quiet_set_autoJoinTask | done].
Qed.

Lemma listening_inv_destroy_loop l : forall st,
  wf st -> listening_inv st -> wf (destroy_loop l st) /\ listening_inv (destroy_loop l st).
Proof.
  induction l as [|[g r0] l IH]; intros st Hwf Hinv; [done|].
  unfold destroy_loop. simpl. fold (destroy_loop l).
  destruct (sessions st !! g) as [r|]; [|by apply IH].
  destruct (store st !! r) as [e|]; [|by apply IH].
  apply IH; [|by apply listening_inv_stop].
  eapply wf_preserved; [done | apply wf_frame_stop].
Qed.

Lemma listening_inv_destroy st :
  wf st -> listening_inv st -> listening_inv (destroy st).
Proof.
  intros Hwf Hinv. unfold destroy. apply listening_inv_clear.
  by apply (listening_inv_destroy_loop (map_to_list (sessions st)) st).
Qed.

Lemma listening_inv_on_connection_disconnected c st :
  listening_inv st -> listening_inv (on_connection_disconnected c st).
Proof.
  intros Hinv. unfold on_connection_disconnected.
  destruct (connections st !! c) as [co|]; [|done].
  destruct (status co); try done; by apply listening_inv_set_status.
Qed.

Lemma listening_inv_disconnected_settled c g recovered st :
  wf st -> listening_inv st ->
  (forall s, recovered = Fulfilled s -> s = Signalling \/ s = Connecting) ->
  listening_inv (disconnected_settled c g recovered st).
Proof.
  intros Hwf Hinv Hs. destruct recovered as [s|err]; simpl.
  - apply listening_inv_set_status; [|done].
    by destruct (Hs s eq_refl) as [-> | ->].
  - apply listening_inv_connection_destroy.
    + eapply wf_preserved; [done | apply wf_frame_delete].
    + by apply listening_inv_delete.
Qed.

Lemma listening_inv_new_manager cfg bot : listening_inv (new_manager cfg bot).
Proof.
  split.
  - intros r e H. simpl in H. by rewrite lookup_nil in H.
  - intros g r e H. simpl in H. by rewrite lookup_empty in H.
Qed.

Lemma listening_inv_run op st :
  wf st -> listening_inv st -> admissible op st -> listening_inv (run op st).
Proof.
  intros Hwf Hinv Hadm. destruct op; simpl in Hadm; simpl run.
  - eapply listening_inv_quiet; [apply quiet_setBotUserId | done].
  - by apply listening_inv_join.
  - by apply listening_inv_leave.
  - by apply listening_inv_autoJoin.
  - by apply listening_inv_destroy.
  - by apply listening_inv_join_begin.
  - by apply listening_inv_join_fetched.
  - destruct Hadm as (_ & _ & _ & Hl). apply listening_inv_join_ready; [done|done|].
    intros u Hu. destruct (Hl u Hu) as (co & Hco & _). by eexists.
  - by apply listening_inv_connection_destroyed.
  - by apply listening_inv_on_connection_disconnected.
  - destruct Hadm as [_ Hs]. by apply listening_inv_disconnected_settled.
  - eapply listening_inv_quiet; [apply quiet_set_players | done].
  - eapply listening_inv_quiet; [apply quiet_speaking_begin | done].
  - eapply listening_inv_quiet; [apply quiet_speaking_decoded | done].
  - eapply listening_inv_quiet; [apply quiet_speaking_written | done].
  - eapply listening_inv_quiet; [apply quiet_processSegment | done].
  - eapply listening_inv_quiet; [apply quiet_playback_begin | done].
  - destruct Hadm as (e & ev & He & Hstep).
    eapply listening_inv_quiet; [|done]. apply quiet_update_entry.
    intros e' He'. rewrite He in He'. inversion He'; subst e'.
    apply entry_same_processingQueue. by eapply queue_rel_step.
  - destruct Hadm as (e & ev & He & Hstep).
    eapply listening_inv_quiet; [|done]. apply quiet_update_entry.
    intros e' He'. rewrite He in He'. inversion He'; subst e'.
    apply entry_same_playbackQueue. by eapply queue_rel_step.
  - by apply listening_inv_join_teardown.
  - by apply listening_inv_call.
  - eapply listening_inv_quiet; [apply quiet_speaking_setup | done].
Qed.

Lemma reachable_listening_inv st : reachable st -> listening_inv st.
Proof.
  induction 1 as [cfg bot|op st Hr IH Hadm]; [apply listening_inv_new_manager|].
  apply listening_inv_run; [by apply reachable_wf | done | done].
Qed.

(** X17.  The registry holds sessions that are connected: however calls
    overlap, the connection of a registered session is not destroyed, and
    every session object, registered or not, has its three listeners on
    its connection. *)
Theorem registered_sessions_are_connected (st : State) :
  reachable st ->
  (forall g r e, sessions_get g st = Some (r, e) ->
     guildId e = g /\ conn_live (connection e) st) /\
  (forall r e, store st !! r = Some e ->
     exists co, connections st !! connection e = Some co /\
                r ∈ on_speaking_start co /\
                guildId e ∈ on_disconnected co /\
                guildId e ∈ on_destroyed co).
Proof.
  intros Hreach. destruct (reachable_listening_inv st Hreach) as [HL HR].
  split; [|exact HL].
  intros g r e Hs. split.
  - by destruct (registered_facts st g r e (reachable_wf st Hreach) Hs) as (_ & ? & _).
  - apply sessions_get_Some in Hs as [Hg He]. by apply (HR g r e).
Qed.

Lemma registered_sessions_are_connected_witness :
  exists e, sessions_get (str "g1") example_rejoined = Some (1%nat, e) /\
            conn_live (connection e) example_rejoined.
Proof.
  eexists. split; [vm_compute; reflexivity|].
  refine (proj2 (proj1 (registered_sessions_are_connected example_rejoined _)
                   (str "g1") 1%nat _ _)).
  - exact (reachable_undisturbed_reachable _ reachable_example_rejoined).
  - vm_compute. reflexivity.
Defined.

Lemma registered_listens st g r e :
  reachable st -> sessions_get g st = Some (r, e) ->
  exists co, connections st !! connection e = Some co /\ status co <> Destroyed /\
             g ∈ on_destroyed co.
Proof.
  intros Hreach Hs. destruct (reachable_listening_inv st Hreach) as [HL HR].
  destruct (registered_facts st g r e (reachable_wf st Hreach) Hs) as (_ & Hg & _).
  apply sessions_get_Some in Hs as [Hs He].
  destruct (HR g r e Hs He) as (co & Hco & Hlive).
  destruct (HL r e He) as (co' & Hco' & _ & _ & H3).
  rewrite Hco in Hco'. injection Hco' as <-. rewrite Hg in H3. by exists co.
Qed.

Lemma connection_destroyed_unregisters c co st g :
  connections st !! c = Some co -> status co <> Destroyed -> g ∈ on_destroyed co ->
  sessions (connection_destroyed c st) !! g = None.
Proof.
  intros Hc Hl Hg. unfold connection_destroyed. rewrite Hc.
  assert (H : sessions (deletes (on_destroyed co)
                (set_connections (insert c (with_status Destroyed co)) st)) !! g = None).
  { destruct (sessions _ !! g) as [r|] eqn:E; [|done].
    apply deletes_lookup in E as [_ E]. done. }
  by destruct (status co).
Qed.

(** X18.  When the connection of a registered session is lost, the session
    leaves the registry.  When the library destroys the connection, the
    guild is unregistered at once.  When the connection drops and does not
    get back to signalling or connecting in time, the guild is unregistered
    and the connection is destroyed; when it does get back, the session
    stays registered. *)
Theorem connection_loss_unregisters (st : State) (g : jsstr) (r : nat)
  (e : VoiceSessionEntry) :
  reachable st -> sessions_get g st = Some (r, e) ->
  let c := connection e in
  (sessions (on_connection_destroyed c st) !! g = None /\
   ~ conn_live c (on_connection_destroyed c st) /\
   store (on_connection_destroyed c st) = store st) /\
  (forall err,
     let st' := disconnected_settled c g (Rejected err) st in
     sessions st' !! g = None /\ ~ conn_live c st' /\
     calls st' = calls st ++ [CallConnectionDestroy c]) /\
  (forall s, s = Signalling \/ s = Connecting ->
     let st' := disconnected_settled c g (Fulfilled s) st in
     sessions_get g st' = Some (r, e) /\ conn_live c st').
Proof.
  intros Hreach Hs c.
  destruct (registered_listens st g r e Hreach Hs) as (co & Hco & Hlive & Hg).
  fold c in Hco. split; [|split].
  - unfold on_connection_destroyed. split; [|split].
    + by apply (connection_destroyed_unregisters c co).
    + intros H. by apply connection_destroyed_not_live in H as [_ H].
    + apply store_connection_destroyed.
  - intros err st'. subst st'. simpl. split; [|split].
    + apply sessions_connection_destroy_None. simpl. apply lookup_delete_eq.
    + apply connection_destroy_not_live.
    + unfold connection_destroy. by rewrite calls_connection_destroyed.
  - intros s Hsig st'. subst st'. simpl. split.
    + unfold sessions_get, set_status. simpl. exact Hs.
    + unfold conn_live, set_status. simpl. rewrite Hco, lookup_insert_eq.
      eexists. split; [done|]. simpl. by destruct Hsig as [-> | ->].
Qed.

Lemma connection_loss_unregisters_witness :
  sessions (on_connection_destroyed 1 example_joined) !! str "g1" = None.
Proof.
  assert (He : exists e, sessions_get (str "g1") example_joined = Some (0%nat, e) /\
                         connection e = 1%nat)
    by (eexists; split; [vm_compute; reflexivity | reflexivity]).
  destruct He as (e & He & Hc). rewrite <- Hc.
  exact (proj1 (proj1 (connection_loss_unregisters example_joined (str "g1") 0 e
                         (reachable_undisturbed_reachable _ reachable_example_joined)
                         He))).
Defined.

Lemma store_destroy_loop l : forall st, store (destroy_loop l st) = store st.
Proof.
  unfold destroy_loop.
  induction l as [|gr l IH]; intros st; simpl; [done|].
  rewrite IH. destruct (sessions st !! gr.1) as [r|]; [|done].
  destruct (store st !! r) as [e|]; [apply store_stop | done].
Qed.

(** X19.  After [destroy] the registry is empty, [status] lists nothing and
    the session objects are as they were.  On a manager whose steps were
    all undisturbed ([undisturbed]: every call of [join] and [autoJoin] ran
    from start to end with nothing else happening in its waits,
    [joinVoiceChannel] always handed out a new connection, and every wait
    of a [Disconnected] listener ended while its connection was still
    [Disconnected]), no session object is live afterwards.  The conditions
    are needed: a session that is live and out of the registry is not
    stopped ([late_timeout_two_live]). *)
Theorem destroy_leaves_nothing (st : State) :
  sessions (destroy st) = ∅ /\
  status_of (destroy st) = [] /\
  store (destroy st) = store st /\
  (reachable_undisturbed st -> forall r, ~ live r (destroy st)).
Proof.
  assert (Hs : sessions (destroy st) = ∅) by reflexivity.
  split; [done|]. split; [|split].
  - unfold status_of. rewrite Hs. by rewrite map_to_list_empty.
  - unfold destroy. simpl. apply store_destroy_loop.
  - intros Hreach r (e & He & Hl).
    pose proof (reachable_undisturbed_inv st Hreach) as Hinv.
    destruct (seq_inv_destroy st Hinv) as (_ & S2 & _).
    specialize (S2 r e He Hl). rewrite Hs in S2. by rewrite lookup_empty in S2.
Qed.

Lemma destroy_leaves_nothing_witness : ~ live 1 (destroy example_rejoined).
Proof.
  exact (proj2 (proj2 (proj2 (destroy_leaves_nothing example_rejoined)))
           reachable_example_rejoined 1%nat).
Defined.

Lemma length_omap_total {A B} (f : A -> option B) (l : list A) :
  Forall (fun a => is_Some (f a)) l -> length (omap f l) = length l.
Proof.
  induction 1 as [|a l [b Hb] _ IH]; [done|]. simpl. rewrite Hb. simpl. f_equal. exact IH.
Qed.

(** X20.  [status] lists the registry: however calls overlap, it returns one
    result for each registered guild, all of them [ok], each with the guild
    id under which the session is registered and the channel of the
    session. *)
Theorem status_lists_the_registry (st : State) :
  reachable st ->
  (forall res, res ∈ status_of st <->
     exists g r e, sessions_get g st = Some (r, e) /\ guildId e = g /\
                   res = connected_result e) /\
  length (status_of st) = size (sessions st) /\
  Forall (fun res => ok res = true) (status_of st).
Proof.
  intros Hreach. pose proof (reachable_wf st Hreach) as Hwf.
  assert (Hin : forall res, res ∈ status_of st <->
            exists g r e, sessions_get g st = Some (r, e) /\ guildId e = g /\
                          res = connected_result e).
  { intros res. unfold status_of. rewrite list_elem_of_omap. split.
    - intros ([g r] & Hgr & Hres). apply elem_of_map_to_list in Hgr. simpl in Hres.
      destruct (store st !! r) as [e|] eqn:He; [|done]. injection Hres as <-.
      exists g, r, e. split; [by apply sessions_get_Some|]. split; [|done].
      by destruct (registered_facts st g r e Hwf) as (_ & ? & _);
        [apply sessions_get_Some|].
    - intros (g & r & e & Hs & _ & ->). apply sessions_get_Some in Hs as [Hg He].
      exists (g, r). split; [by apply elem_of_map_to_list|]. simpl. by rewrite He. }
  split; [exact Hin|]. split.
  - unfold status_of. rewrite length_omap_total; [by rewrite length_map_to_list|].
    apply Forall_forall. intros [g r] Hgr. apply elem_of_map_to_list in Hgr.
    destruct Hwf as (_ & W1 & _). destruct (W1 g r Hgr) as (e & He & _).
    simpl. rewrite He. by eexists.
  - apply Forall_forall. intros res Hres. apply Hin in Hres as (g & r & e & _ & _ & ->).
    reflexivity.
Qed.

Lemma status_lists_the_registry_witness : length (status_of example_rejoined) = 1%nat.
Proof.
  rewrite (proj1 (proj2 (status_lists_the_registry example_rejoined
                           (reachable_undisturbed_reachable _
                              reachable_example_rejoined)))).
  vm_compute. reflexivity.
Defined.

Lemma store_extends_refl st : store_extends st st.
Proof. intros r e He. exists e. split; [done | reflexivity]. Qed.

Lemma store_extends_trans st1 st2 st3 :
  store_extends st1 st2 -> store_extends st2 st3 -> store_extends st1 st3.
Proof.
  intros H12 H23 r e He. destruct (H12 r e He) as (e2 & He2 & Hs2).
  destruct (H23 r e2 He2) as (e3 & He3 & Hs3). exists e3. split; [done|].
  by etransitivity.
Qed.

Lemma store_extends_frame st st' : wf_frame st st' -> store_extends st st'.
Proof.
  intros (_ & _ & _ & Hst) r e He.
  destruct (Forall2_lookup_l _ _ _ _ _ Hst He) as (e' & He' & Hs). by exists e'.
Qed.

Lemma store_join_ready_ok g ch c u route st :
  store (snd (join_ready g ch c (Fulfilled u) route st))
  = store st ++ [new_session g ch route c (length (store st))].
Proof. reflexivity. Qed.

Lemma sessions_join_ready_ok g ch c u route st :
  sessions (snd (join_ready g ch c (Fulfilled u) route st))
  = <[g := length (store st)]> (sessions st).
Proof. reflexivity. Qed.

Lemma store_extends_join_ready g ch c ready route st :
  store_extends st (snd (join_ready g ch c ready route st)).
Proof.
  destruct ready as [u|err].
  - intros r e He. exists e. split; [|reflexivity].
    rewrite store_join_ready_ok. by apply lookup_app_l_Some.
  - simpl. apply store_extends_frame, wf_frame_connection_destroy.
Qed.

Lemma store_extends_join env params st : store_extends st (snd (join env params st)).
Proof.
  unfold join.
  pose proof (store_extends_frame _ _ (wf_frame_join_begin params st)) as H1.
  destruct (join_begin params st) as [[res|[g ch]] st1]; [done|]. simpl in H1.
  pose proof (store_extends_frame _ _
                (wf_frame_join_fetched g ch (fetchChannel_result env)
                   (getPlugin_result env) (joinVoiceChannel_result env) st1)) as H2.
  destruct (join_fetched g ch _ _ _ st1) as [[res|c] st2].
  - by eapply store_extends_trans.
  - simpl in H2. eapply store_extends_trans; [done|].
    eapply store_extends_trans; [done|]. apply store_extends_join_ready.
Qed.

Lemma sessions_join_fetched g ch fetched plugin joined st :
  sessions (snd (join_fetched g ch fetched plugin joined st)) = sessions st.
Proof.
  unfold join_fetched. destruct (catch_with fetched None) as [info|]; [|done].
  destruct (match info_type info with Some _ => _ | None => _ end); [done|].
  destruct (_ && _); [done|]. destruct (negb plugin); [done|].
  destruct joined; [|done]. simpl. apply sessions_joinVoiceChannel.
Qed.

Lemma join_begin_done params st res st1 :
  join_begin params st = (Done res, st1) -> st1 = st.
Proof.
  unfold join_begin. destruct (negb (voiceEnabled st)); [by intros [= _ <-]|].
  destruct (_ || _); [by intros [= _ <-]|].
  destruct (sessions_get _ st) as [[r e]|]; [|done].
  destruct (bool_decide _); [by intros [= _ <-] | done].
Qed.

(** A session that [join] leaves registered for its guild is on the channel
    that was asked for, unless the call has changed nothing. *)
Lemma join_session_channel env params st r e :
  wf st ->
  sessions_get (trim (join_guildId params)) (snd (join env params st)) = Some (r, e) ->
  channelId e = trim (join_channelId params) \/
  sessions_get (trim (join_guildId params)) st = Some (r, e).
Proof.
  intros Hwf. unfold join.
  set (g := trim (join_guildId params)). set (ch := trim (join_channelId params)).
  destruct (join_begin params st) as [[res0|[g0 ch0]] st1] eqn:Eb.
  - apply join_begin_done in Eb. subst st1. by right.
  - destruct (join_begin_await params st g0 ch0 st1 Eb) as (Hen & -> & -> & _).
    fold g ch in Eb |- *.
    pose proof (join_begin_unregisters params st g ch st1 Hwf Eb) as Hs1.
    pose proof (sessions_join_fetched g ch (fetchChannel_result env)
                  (getPlugin_result env) (joinVoiceChannel_result env) st1) as Hsf.
    destruct (join_fetched g ch _ _ _ st1) as [[resf|c] st2] eqn:Ef.
    + simpl in *. intros Hs. apply sessions_get_Some in Hs as [Hs _]. congruence.
    + simpl in Hsf. destruct (entersState_result env) as [u|err].
      * rewrite join_ready_registers. intros [= <- <-]. by left.
      * simpl. intros Hs. apply sessions_get_Some in Hs as [Hs _].
        rewrite sessions_connection_destroy_None in Hs; [done|]. congruence.
Qed.

(** [join] leaves the other guilds as they are, or unregistered. *)
Lemma join_other_guilds env params st g r :
  g <> trim (join_guildId params) ->
  sessions (snd (join env params st)) !! g = Some r -> sessions st !! g = Some r.
Proof.
  intros Hne. unfold join.
  pose proof (wf_frame_join_begin params st) as (H1 & _).
  pose proof (join_begin_await params st) as Hawait.
  destruct (join_begin params st) as [[res0|[g0 ch0]] st1] eqn:Eb; [by apply H1|].
  destruct (Hawait g0 ch0 st1 eq_refl) as (_ & -> & -> & _). simpl in H1.
  pose proof (sessions_join_fetched (trim (join_guildId params))
                (trim (join_channelId params)) (fetchChannel_result env)
                (getPlugin_result env) (joinVoiceChannel_result env) st1) as Hsf.
  destruct (join_fetched _ _ _ _ _ st1) as [[resf|c] st2] eqn:Ef; simpl in Hsf.
  - simpl. rewrite Hsf. by apply H1.
  - destruct (entersState_result env) as [u|err].
    + rewrite sessions_join_ready_ok, lookup_insert_ne by done. rewrite Hsf. by apply H1.
    + simpl. intros H. apply H1. rewrite <- Hsf.
      unfold connection_destroy in H. by apply sessions_connection_destroyed in H.
Qed.

Lemma after_join env params st g r e1 :
  wf st ->
  sessions_get g (snd (join env params st)) = Some (r, e1) ->
  (exists e0, sessions_get g st = Some (r, e0) /\ channelId e0 = channelId e1) \/
  (g = trim (join_guildId params) /\ channelId e1 = trim (join_channelId params)).
Proof.
  intros Hwf Hs. destruct (decide (g = trim (join_guildId params))) as [->|Hne].
  - destruct (join_session_channel env params st r e1 Hwf Hs) as [H|H].
    + by right.
    + left. by exists e1.
  - left. apply sessions_get_Some in Hs as [Hg He1].
    apply (join_other_guilds env params st g r Hne) in Hg.
    destruct Hwf as (_ & W1 & _). destruct (W1 g r Hg) as (e0 & He0 & _).
    destruct (store_extends_join env params st r e0 He0) as (e1' & He1' & Hsame).
    rewrite He1 in He1'. injection He1' as <-.
    exists e0. split; [by apply sessions_get_Some|].
    by destruct Hsame as (_ & -> & _).
Qed.

Lemma autoJoin_loop_sessions env entries : forall i seen st g r e,
  wf st ->
  sessions_get g (autoJoin_loop entries i seen env st) = Some (r, e) ->
  (exists e0, sessions_get g st = Some (r, e0) /\ channelId e0 = channelId e) \/
  ((g ∉ seen) /\
   exists entry, first_entry_for g entries = Some entry /\
                 channelId e = trim (auto_channelId entry)).
Proof.
  induction entries as [|en rest IH]; intros i seen st g r e Hwf Hs.
  - left. by exists e.
  - assert (Hg : g <> []).
    { pose proof (wf_autoJoin_loop env (en :: rest) i seen st Hwf) as Hwf'.
      by destruct (registered_facts _ g r e Hwf' Hs) as (_ & _ & [_ ?] & _). }
    simpl in Hs. unfold first_entry_for. simpl find.
    destruct (truthy (trim (auto_guildId en))) eqn:Hty; simpl negb in Hs;
      cbv iota in Hs.
    + destruct (bool_decide (trim (auto_guildId en) ∈ seen)) eqn:Hseen.
      * apply bool_decide_eq_true in Hseen.
        destruct (IH _ _ _ g r e
                    (wf_preserved _ _ Hwf (wf_frame_call _ st)) Hs)
          as [A|[Hn (entry & Hf & Hc)]]; [by left|].
        right. split; [done|]. exists entry. split; [|done].
        rewrite bool_decide_false; [done|]. intros Heq. apply Hn. by rewrite <- Heq.
      * apply bool_decide_eq_false in Hseen.
        pose proof (wf_join (env i) {| join_guildId := auto_guildId en;
                                       join_channelId := auto_channelId en |} st Hwf)
          as Hwf1.
        pose proof (after_join (env i) {| join_guildId := auto_guildId en;
                                          join_channelId := auto_channelId en |} st g r)
          as Hafter.
        destruct (join (env i) _ st) as [[res|err] st1]; simpl in Hwf1, Hafter.
        -- destruct (IH (S i) ({[trim (auto_guildId en)]} ∪ seen) st1 g r e Hwf1 Hs)
             as [(e1 & Hs1 & Hc1)|[Hn (entry & Hf & Hc)]].
           ++ destruct (Hafter e1 Hwf Hs1) as [(e0 & Hs0 & Hc0)|[-> Hch]].
              ** left. exists e0. split; [done|]. congruence.
              ** right. split; [done|]. exists en.
                 rewrite bool_decide_true by done. split; [done|]. congruence.
           ++ right. apply not_elem_of_union in Hn as [Hn1 Hn2].
              apply not_elem_of_singleton in Hn1. split; [done|].
              exists entry. split; [|done]. by rewrite bool_decide_false.
        -- destruct (Hafter e Hwf Hs) as [A|[-> Hch]]; [by left|].
           right. split; [done|]. exists en. by rewrite bool_decide_true.
    + destruct (IH _ _ _ g r e Hwf Hs) as [A|[Hn (entry & Hf & Hc)]]; [by left|].
      right. split; [done|]. exists entry. split; [|done].
      rewrite bool_decide_false; [done|]. intros Heq. apply Hg. rewrite <- Heq.
      by destruct (trim (auto_guildId en)).
Qed.

Lemma autoJoin_sessions env st g r e :
  wf st ->
  sessions_get g (autoJoin env st) = Some (r, e) ->
  (exists e0, sessions_get g st = Some (r, e0) /\ channelId e0 = channelId e) \/
  exists entry, first_entry_for g (autoJoin_entries_of st) = Some entry /\
                channelId e = trim (auto_channelId entry).
Proof.
  intros Hwf. unfold autoJoin.
  destruct (negb (voiceEnabled st)); [intros Hs; left; by exists e|].
  destruct (autoJoinTask st); [intros Hs; left; by exists e|].
  intros Hs.
  change (sessions_get g (autoJoin_loop (autoJoin_entries_of st) 0 ∅ env
                            (set_autoJoinTask true st)) = Some (r, e)) in Hs.
  destruct (autoJoin_loop_sessions env _ _ _ _ g r e (wf_set_autoJoinTask true st Hwf) Hs)
    as [A|[_ B]]; [by left | by right].
Qed.

(** X21.  [autoJoin] joins a guild once, for its first entry: a guild that
    had no session before [autoJoin] and has one after it is on the channel
    of the first entry of the list for that guild; and a guild that no entry
    names is not joined. *)
Theorem autoJoin_first_entry_wins (env : nat -> JoinEnv) (st : State) (g : jsstr) :
  reachable st ->
  (forall r e, sessions st !! g = None ->
     sessions_get g (autoJoin env st) = Some (r, e) ->
     exists entry, first_entry_for g (autoJoin_entries_of st) = Some entry /\
                   channelId e = trim (auto_channelId entry)) /\
  (forall r, first_entry_for g (autoJoin_entries_of st) = None ->
     sessions (autoJoin env st) !! g = Some r -> sessions st !! g = Some r).
Proof.
  intros Hreach. pose proof (reachable_wf st Hreach) as Hwf. split.
  - intros r e Hn Hs.
    destruct (autoJoin_sessions env st g r e Hwf Hs) as [(e0 & Hs0 & _)|B]; [|done].
    apply sessions_get_Some in Hs0 as [Hs0 _]. congruence.
  - intros r Hf Hs.
    pose proof (wf_autoJoin env st Hwf) as (_ & W1 & _).
    destruct (W1 g r Hs) as (e & He & _).
    destruct (autoJoin_sessions env st g r e Hwf) as [(e0 & Hs0 & _)|(entry & B & _)].
    + by apply sessions_get_Some.
    + by apply sessions_get_Some in Hs0 as [? _].
    + congruence.
Qed.

Lemma autoJoin_first_entry_wins_witness :
  exists r e,
    sessions_get (str "g1")
      (autoJoin (fun i => example_join_env (str "g1") (S i))
         (new_manager autoJoin_config None)) = Some (r, e) /\
    channelId e = str "c1".
Proof.
  eexists _, _. split; [vm_compute; reflexivity|].
  destruct (proj1 (autoJoin_first_entry_wins (fun i => example_join_env (str "g1") (S i))
                     (new_manager autoJoin_config None) (str "g1") (reach_new _ _ _))
              0%nat _ eq_refl eq_refl)
    as (entry & Hf & Hc).
  injection Hf as <-. exact Hc.
Defined.

Lemma leave_when_registered g st r e :
  sessions_get (trim g) st = Some (r, e) ->
  leave {| leave_guildId := g; leave_channelId := None |} st
  = (left_channel (trim g) (channelId e), set_sessions (delete (trim g)) (stop e st)).
Proof. intros Hs. unfold leave. simpl. by rewrite Hs. Qed.

Lemma stop_destroys e st : ~ conn_live (connection e) (stop e st).
Proof. intros H. by apply stop_not_live in H as [_ H]. Qed.

(** X22.  The leave command ends the session of the guild it is used in: for
    a user who may use it, with the manager there, it replies "Left
    <#channel>." when the guild has a session, which is then unregistered
    with its connection destroyed, and "Not connected to a voice channel."
    when it has none, the manager staying as it is.  It never replies "Not
    connected to that voice channel.": it names no channel. *)
Theorem LeaveCommand_ends_session (access : VoiceCommandAccess) (g : jsstr)
  (st : State) :
  authorized_in access g ->
  (sessions_get (trim g) st = None ->
     LeaveCommand_run access true st = (str "Not connected to a voice channel.", st)) /\
  (forall r e, sessions_get (trim g) st = Some (r, e) ->
     exists st',
       LeaveCommand_run access true st = (str "Left <#" ++ channelId e ++ str ">.", st') /\
       sessions st' !! trim g = None /\
       ~ conn_live (connection e) st') /\
  fst (LeaveCommand_run access true st) <> str "Not connected to that voice channel.".
Proof.
  intros (Hok & Hg & Hne).
  assert (E : LeaveCommand_run access true st
              = let (result, st') :=
                  leave {| leave_guildId := g; leave_channelId := None |} st in
                (message result, st')).
  { unfold LeaveCommand_run. rewrite Hok, Hg. simpl. by destruct g. }
  assert (Hnone : sessions_get (trim g) st = None ->
            leave {| leave_guildId := g; leave_channelId := None |} st
            = (failure (str "Not connected to a voice channel."), st)).
  { intros Hs. unfold leave. simpl. by rewrite Hs. }
  split; [|split].
  - intros Hs. by rewrite E, (Hnone Hs).
  - intros r e Hs. rewrite E, (leave_when_registered g st r e Hs).
    eexists. split; [reflexivity|]. split.
    + simpl. apply lookup_delete_eq.
    + intros H. apply (stop_destroys e st).
      by apply (conn_live_ext (connection e) (stop e st)
                  (set_sessions (delete (trim g)) (stop e st))).
  - rewrite E. destruct (sessions_get (trim g) st) as [[r e]|] eqn:Hs.
    + rewrite (leave_when_registered g st r e Hs). simpl. discriminate.
    + rewrite (Hnone eq_refl). simpl. discriminate.
Qed.

Lemma example_access_authorized : authorized_in example_access (str "g1").
Proof. split; [reflexivity|]. split; [reflexivity | discriminate]. Qed.

Lemma LeaveCommand_ends_session_witness :
  exists st',
    LeaveCommand_run example_access true example_joined = (str "Left <#c1>.", st') /\
    sessions st' !! trim (str "g1") = None.
Proof.
  assert (He : exists e, sessions_get (trim (str "g1")) example_joined = Some (0%nat, e) /\
                         str "Left <#" ++ channelId e ++ str ">." = str "Left <#c1>.")
    by (eexists; split; [vm_compute; reflexivity | reflexivity]).
  destruct He as (e & He & Hc).
  destruct (proj1 (proj2 (LeaveCommand_ends_session example_access (str "g1")
                            example_joined example_access_authorized))
              0%nat e He) as (st' & Hr & Hs & _).
  exists st'. rewrite Hc in Hr. split; [exact Hr | exact Hs].
Defined.

Lemma join_with_lead sep (l : jsstr) (ls : list jsstr) c :
  head l = Some c -> head (join_with sep (l :: ls)) = Some c.
Proof. intros H. destruct l as [|c' l]; [done|]. simpl in *. by destruct ls. Qed.

(** X23.  The status command tells the registry: for a user who may use it,
    with the manager there, it replies "No active voice sessions." exactly
    when no guild is registered, and otherwise one line for each registered
    guild, with the channel and the guild of its session. *)
Theorem StatusCommand_tells_registry (access : VoiceCommandAccess) (st : State) :
  reachable st -> access_ok access = true ->
  (StatusCommand_run access true st = str "No active voice sessions."
   <-> sessions st = ∅) /\
  (sessions st <> ∅ ->
     StatusCommand_run access true st = join_with [10%N] (map status_line (status_of st)) /\
     length (map status_line (status_of st)) = size (sessions st) /\
     forall line, line ∈ map status_line (status_of st) <->
       exists g r e, sessions_get g st = Some (r, e) /\
         line = line_lead ++ str " <#" ++ channelId e
                ++ str "> (guild " ++ g ++ str ")").
Proof.
  intros Hreach Hok. pose proof (reachable_wf st Hreach) as Hwf.
  assert (Hlen : length (status_of st) = size (sessions st)).
  { unfold status_of. rewrite length_omap_total; [by rewrite length_map_to_list|].
    apply Forall_forall. intros [g r] Hgr. apply elem_of_map_to_list in Hgr.
    destruct Hwf as (_ & W1 & _). destruct (W1 g r Hgr) as (e & He & _).
    simpl. rewrite He. by eexists. }
  assert (E : StatusCommand_run access true st
              = if (length (status_of st) =? 0)%nat then str "No active voice sessions."
                else join_with [10%N] (map status_line (status_of st))).
  { unfold StatusCommand_run. by rewrite Hok. }
  assert (Hempty : sessions st = ∅ <-> length (status_of st) = 0%nat).
  { rewrite Hlen. split; [intros ->; apply map_size_empty | apply map_size_empty_inv]. }
  split.
  - rewrite E. split.
    + intros H. apply Hempty.
      destruct (status_of st) as [|res l]; [done|]. exfalso.
      change ((length (res :: l) =? 0)%nat) with false in H. cbv iota in H.
      change (map status_line (res :: l)) with (status_line res :: map status_line l) in H.
      assert (Hh : head (join_with [10%N] (status_line res :: map status_line l))
                   = Some 226%N) by (apply join_with_lead; reflexivity).
      rewrite H in Hh. discriminate Hh.
    + intros H. apply Hempty in H. by rewrite H.
  - intros Hne. assert (Hn : length (status_of st) <> 0%nat) by (by rewrite <- Hempty).
    apply Nat.eqb_neq in Hn. rewrite E, Hn. split; [done|]. split.
    + by rewrite length_map.
    + intros line. rewrite list_elem_of_fmap. split.
      * intros (res & -> & Hres). unfold status_of in Hres.
        apply list_elem_of_omap in Hres as ([g r] & Hgr & Hres).
        apply elem_of_map_to_list in Hgr. simpl in Hres.
        destruct (store st !! r) as [e|] eqn:He; [|done]. injection Hres as <-.
        assert (Hs : sessions_get g st = Some (r, e)) by (by apply sessions_get_Some).
        destruct (registered_facts st g r e Hwf Hs) as (_ & Hg & _).
        exists g, r, e. split; [done|]. unfold status_line. simpl. by rewrite Hg.
      * intros (g & r & e & Hs & ->).
        destruct (registered_facts st g r e Hwf Hs) as (_ & Hg & _).
        apply sessions_get_Some in Hs as [Hgr He].
        exists (connected_result e). split; [unfold status_line; simpl; by rewrite Hg|].
        unfold status_of. apply list_elem_of_omap. exists (g, r).
        split; [by apply elem_of_map_to_list|]. simpl. by rewrite He.
Qed.

Lemma StatusCommand_tells_registry_witness :
  StatusCommand_run example_access true (new_manager example_config None)
  = str "No active voice sessions.".
Proof.
  apply (proj1 (StatusCommand_tells_registry example_access
                  (new_manager example_config None) (reach_new _ _ _) eq_refl)).
  reflexivity.
Defined.

Lemma join_accepted env params st c u :
  wf st -> looks_channel_up params st ->
  channel_accepted (fetchChannel_result env) (trim (join_guildId params)) ->
  getPlugin_result env = true ->
  joinVoiceChannel_result env = Returned c ->
  entersState_result env = Fulfilled u ->
  exists st',
    join env params st
    = (Returned (joined_channel (trim (join_guildId params)) (trim (join_channelId params))),
       st') /\
    sessions_get (trim (join_guildId params)) st'
    = Some (length (store st),
            new_session (trim (join_guildId params)) (trim (join_channelId params))
              (resolveAgentRoute_result env) c (length (store st))).
Proof.
  intros Hwf Hl Hacc Hplug Hjoin Hready.
  destruct (looks_up_begin params st Hwf Hl) as (st1 & Eb & _ & Hst1 & _).
  set (g := trim (join_guildId params)) in *.
  set (ch := trim (join_channelId params)) in *.
  assert (Hf : join_fetched g ch (fetchChannel_result env) (getPlugin_result env)
                 (joinVoiceChannel_result env) st1
               = (Await c, joinVoiceChannel c g ch st1)).
  { rewrite (join_fetched_accepted g ch _ _ _ st1 Hacc). by rewrite Hplug, Hjoin. }
  assert (Hst2 : store (joinVoiceChannel c g ch st1) = store st).
  { unfold joinVoiceChannel. simpl. by destruct (connections st1 !! c). }
  exists (snd (join_ready g ch c (Fulfilled u) (resolveAgentRoute_result env)
                 (joinVoiceChannel c g ch st1))).
  split.
  - unfold join. rewrite Eb. fold g ch. rewrite Hf, Hready. reflexivity.
  - rewrite join_ready_registers. by rewrite Hst2.
Qed.

(** X24.  The join command joins the channel it is given: for a user who may
    use it, a channel option of a voice type and the manager there, when the
    call gets to the channel lookup and the collaborators let it through,
    the reply is "Joined <#channel>." and the guild of the interaction is
    registered on that channel.  A user who may not use the command, and a
    channel option that is not of a voice type, do not reach the manager:
    the reply is the refusal and the manager stays as it is. *)
Theorem JoinCommand_joins (access : VoiceCommandAccess) (channel : ChannelOption)
  (env : JoinEnv) (st : State) :
  (forall g id c,
     reachable st ->
     authorized_in access g ->
     option_id channel = Some id ->
     isVoiceChannelType (option_type channel) = true ->
     looks_channel_up {| join_guildId := g; join_channelId := id |} st ->
     channel_accepted (fetchChannel_result env) (trim g) ->
     getPlugin_result env = true ->
     joinVoiceChannel_result env = Returned c ->
     entersState_result env = Fulfilled tt ->
     exists st' r e,
       JoinCommand_run access (Some channel) true env st
       = (Returned (str "Joined <#" ++ trim id ++ str ">."), st') /\
       sessions_get (trim g) st' = Some (r, e) /\ channelId e = trim id) /\
  (access_ok access = false ->
     forall manager,
       JoinCommand_run access (Some channel) manager env st
       = (Returned (refusal access), st)) /\
  (access_ok access = true -> is_Some (option_id channel) ->
     isVoiceChannelType (option_type channel) = false ->
     forall manager,
       JoinCommand_run access (Some channel) manager env st
       = (Returned (str "That is not a voice channel."), st)).
Proof.
  split; [|split].
  - intros g id c Hreach (Hok & Hg & Hne) Hid Hty Hl Hacc Hplug Hjoin Hready.
    destruct (join_accepted env {| join_guildId := g; join_channelId := id |} st c tt
                (reachable_wf st Hreach) Hl Hacc Hplug Hjoin Hready) as (st' & Ej & Hs).
    simpl in Ej, Hs. exists st'. eexists _, _.
    split; [|split; [exact Hs | reflexivity]].
    unfold JoinCommand_run. rewrite Hok, Hid, Hty, Hg.
    cbn [negb nullish truthy_opt default].
    assert (Htg : truthy g = true) by (by destruct g).
    rewrite Htg. cbn [negb]. change (Datatypes.id g) with g. by rewrite Ej.
  - intros Hok manager. unfold JoinCommand_run. by rewrite Hok.
  - intros Hok [id Hid] Hty manager. unfold JoinCommand_run. by rewrite Hok, Hid, Hty.
Qed.

Lemma JoinCommand_joins_witness :
  exists st' r e,
    JoinCommand_run example_access
      (Some {| option_id := Some (str "c1"); option_type := GuildVoice;
               option_guildId := None |})
      true (example_join_env (str "g1") 1) (new_manager example_config None)
    = (Returned (str "Joined <#" ++ trim (str "c1") ++ str ">."), st') /\
    sessions_get (trim (str "g1")) st' = Some (r, e) /\ channelId e = trim (str "c1").
Proof.
  apply (proj1 (JoinCommand_joins example_access
                  {| option_id := Some (str "c1"); option_type := GuildVoice;
                     option_guildId := None |}
                  (example_join_env (str "g1") 1) (new_manager example_config None))
           (str "g1") (str "c1") 1%nat).
  - apply reach_new.
  - apply example_access_authorized.
  - reflexivity.
  - reflexivity.
  - apply (looks_channel_up_new example_config None "g1" "c1");
      [reflexivity | discriminate | discriminate].
  - apply channel_accepted_example.
  - reflexivity.
  - reflexivity.
  - reflexivity.
Defined.

Lemma botUserId_deletes gs : forall st, botUserId (deletes gs st) = botUserId st.
Proof. induction gs as [|g gs IH]; intros st; [done|]. simpl. by rewrite IH. Qed.

Lemma botUserId_connection_destroyed c st :
  botUserId (connection_destroyed c st) = botUserId st.
Proof.
  unfold connection_destroyed. destruct (connections st !! c) as [co|]; [|done].
  destruct (status co); try done; by rewrite botUserId_deletes.
Qed.

Lemma botUserId_stop e st : botUserId (stop e st) = botUserId st.
Proof. unfold stop, connection_destroy. by rewrite botUserId_connection_destroyed. Qed.

Lemma botUserId_leave params st : botUserId (snd (leave params st)) = botUserId st.
Proof.
  unfold leave. destruct (sessions_get _ st) as [[r e]|]; [|done].
  destruct (_ && _); [done|]. simpl. apply botUserId_stop.
Qed.

Lemma botUserId_join_begin params st :
  botUserId (snd (join_begin params st)) = botUserId st.
Proof.
  unfold join_begin. destruct (negb (voiceEnabled st)); [done|].
  destruct (_ || _); [done|].
  destruct (sessions_get _ st) as [[r e]|]; [|done].
  destruct (bool_decide _); [done|]. simpl. apply botUserId_leave.
Qed.

Lemma botUserId_join_teardown params st :
  botUserId (snd (join_teardown params st)) = botUserId st.
Proof.
  unfold join_teardown. destruct (negb (voiceEnabled st)); [done|].
  destruct (_ || _); [done|].
  destruct (sessions_get _ st) as [[r e]|]; [|done].
  destruct (bool_decide _); [done|]. simpl. apply botUserId_leave.
Qed.

Lemma botUserId_joinVoiceChannel c g ch st :
  botUserId (joinVoiceChannel c g ch st) = botUserId st.
Proof. unfold joinVoiceChannel. simpl. by destruct (connections st !! c). Qed.

Lemma botUserId_join_fetched g ch fetched plugin joined st :
  botUserId (snd (join_fetched g ch fetched plugin joined st)) = botUserId st.
Proof.
  unfold join_fetched. destruct (catch_with fetched None) as [info|]; [|done].
  destruct (match info_type info with Some _ => _ | None => _ end); [done|].
  destruct (_ && _); [done|]. destruct (negb plugin); [done|].
  destruct joined; [|done]. simpl. apply botUserId_joinVoiceChannel.
Qed.

Lemma botUserId_join_ready g ch c ready route st :
  botUserId (snd (join_ready g ch c ready route st)) = botUserId st.
Proof.
  destruct ready as [u|err]; [reflexivity|]. simpl.
  unfold connection_destroy. by rewrite botUserId_connection_destroyed.
Qed.

Lemma botUserId_join env params st : botUserId (snd (join env params st)) = botUserId st.
Proof.
  unfold join. pose proof (botUserId_join_begin params st) as H1.
  destruct (join_begin params st) as [[res|[g ch]] st1]; [done|]. simpl in H1.
  pose proof (botUserId_join_fetched g ch (fetchChannel_result env)
                (getPlugin_result env) (joinVoiceChannel_result env) st1) as H2.
  destruct (join_fetched g ch _ _ _ st1) as [[res|c] st2]; simpl in H2 |- *;
    [congruence|].
  rewrite botUserId_join_ready. congruence.
Qed.

Lemma botUserId_autoJoin_loop env entries : forall i seen st,
  botUserId (autoJoin_loop entries i seen env st) = botUserId st.
Proof.
  induction entries as [|entry rest IH]; intros i seen st; [done|]. simpl.
  destruct (negb (truthy _)); [by apply IH|].
  destruct (bool_decide _); [by rewrite IH|].
  pose proof (botUserId_join (env i)
                {| join_guildId := auto_guildId entry;
                   join_channelId := auto_channelId entry |} st) as H.
  destruct (join _ _ st) as [[res|err] st1]; simpl in H; [|done]. by rewrite IH.
Qed.

Lemma botUserId_autoJoin env st : botUserId (autoJoin env st) = botUserId st.
Proof.
  unfold autoJoin. destruct (negb (voiceEnabled st)); [done|].
  destruct (autoJoinTask st); [done|]. simpl. by rewrite botUserId_autoJoin_loop.
Qed.

Lemma botUserId_destroy_loop l : forall st,
  botUserId (destroy_loop l st) = botUserId st.
Proof.
  unfold destroy_loop. induction l as [|[g r0] l IH]; intros st; [done|].
  simpl foldl. rewrite IH. simpl.
  destruct (sessions st !! g) as [r|]; [|done].
  destruct (store st !! r) as [e|]; [|done].
  apply botUserId_stop.
Qed.

Lemma botUserId_destroy st : botUserId (destroy st) = botUserId st.
Proof.
  unfold destroy. simpl. apply (botUserId_destroy_loop (map_to_list (sessions st))).
Qed.

Lemma botUserId_writeWavFile fs pcm st :
  botUserId (snd (writeWavFile fs pcm st)) = botUserId st.
Proof.
  unfold writeWavFile. destruct (mkdtemp_result fs); [|done].
  destruct (buildWavBuffer pcm); [|done]. by destruct (writeFile_result fs).
Qed.

Lemma botUserId_speaking_begin r u st :
  botUserId (snd (handleSpeakingStart_begin r u st)) = botUserId st.
Proof.
  unfold handleSpeakingStart_begin. destruct (store st !! r) as [e|]; [|done].
  destruct (_ || _); [done|]. destruct (_ && _); [done|]. simpl.
  by destruct (bool_decide _).
Qed.

Lemma botUserId_speaking_setup lib r u st :
  botUserId (snd (handleSpeakingStart_setup lib r u st)) = botUserId st.
Proof.
  unfold handleSpeakingStart_setup. destruct (store st !! r) as [e|]; [|done].
  destruct (_ || _); [done|]. destruct (_ && _); [done|]. cbv zeta.
  destruct (bool_decide _); [destruct (player_stop_result lib)|];
    try (destruct (receiver_subscribe_result lib)); done.
Qed.

Lemma botUserId_speaking_written r u pcm fs st :
  botUserId (snd (handleSpeakingStart_written r u pcm fs st)) = botUserId st.
Proof.
  unfold handleSpeakingStart_written.
  pose proof (botUserId_writeWavFile fs pcm st) as H.
  destruct (writeWavFile fs pcm st) as [[[file d]|err] st1]; simpl in H; [|done].
  by destruct (PrimFloat.ltb _ _).
Qed.

Lemma botUserId_processSegment env r seg st :
  botUserId (snd (processSegment env r seg st)) = botUserId st.
Proof.
  unfold processSegment. destruct (store st !! r) as [e|]; [|done].
  destruct (transcribeAudio env) as [transcript|]; [|done].
  destruct (negb (truthy_opt transcript)); [done|].
  destruct (agentCommand_result env) as [payloads|]; [|done].
  destruct (negb (truthy (replyText_of payloads))); [done|].
  destruct (negb (truthy (speakText_of _))); [done|].
  destruct (textToSpeech_result env) as [tts|]; [|done].
  by destruct (_ || _).
Qed.

Lemma botUserId_run op st :
  keeps_bot_id op -> botUserId (run op st) = botUserId st.
Proof.
  intros Hk. destruct op; simpl run.
  - unfold setBotUserId. by rewrite (Hk id eq_refl).
  - apply botUserId_join.
  - apply botUserId_leave.
  - apply botUserId_autoJoin.
  - apply botUserId_destroy.
  - apply botUserId_join_begin.
  - apply botUserId_join_fetched.
  - apply botUserId_join_ready.
  - apply botUserId_connection_destroyed.
  - unfold on_connection_disconnected. destruct (connections st !! c) as [co|]; [|done].
    by destruct (status co).
  - destruct recovered; [done|]. simpl. unfold connection_destroy.
    by rewrite botUserId_connection_destroyed.
  - done.
  - apply botUserId_speaking_begin.
  - unfold handleSpeakingStart_decoded. destruct decoded as [pcm|]; [|done].
    by destruct (length pcm =? 0)%nat.
  - apply botUserId_speaking_written.
  - apply botUserId_processSegment.
  - unfold playback_begin. by destruct (store st !! r).
  - done.
  - done.
  - apply botUserId_join_teardown.
  - done.
  - apply botUserId_speaking_setup.
Qed.

Lemma botUserId_run_all ops : forall st,
  Forall keeps_bot_id ops -> botUserId (run_all ops st) = botUserId st.
Proof.
  unfold run_all. induction ops as [|op ops IH]; intros st Hk; [done|].
  apply Forall_cons in Hk as [Hop Hk]. simpl foldl.
  rewrite IH by done. by apply botUserId_run.
Qed.

(** X25.  The manager does not capture its own voice: once it knows the bot's
    user id, whatever happens next, as long as [setBotUserId] is not given
    another id, the manager still knows that id and drops every "speaking
    started" signal that carries it.  [setBotUserId] with nothing or with
    the empty string leaves the manager as it is. *)
Theorem own_voice_is_not_captured (st : State) (u : jsstr) (ops : list Op) :
  botUserId st = Some u ->
  Forall keeps_bot_id ops ->
  let st' := run_all ops st in
  botUserId st' = Some u /\
  (forall r, handleSpeakingStart_begin r u st' = (Done (Returned tt), st')) /\
  (forall id, truthy_opt id = false -> setBotUserId id st' = st').
Proof.
  intros Hb Hk st'. assert (Hb' : botUserId st' = Some u).
  { unfold st'. by rewrite botUserId_run_all. }
  split; [done|]. split.
  - intros r. unfold handleSpeakingStart_begin. rewrite Hb'.
    destruct (store st' !! r) as [e|]; [|done].
    destruct (truthy u) eqn:Hu; [|done]. simpl.
    destruct (bool_decide (u ∈ activeSpeakers e)); [done|].
    cbn [truthy_opt]. rewrite Hu. by rewrite bool_decide_true.
  - intros id Hid. unfold setBotUserId. by rewrite Hid.
Qed.

Lemma own_voice_is_not_captured_witness :
  handleSpeakingStart_begin 0 (str "bot")
    (run_all [OpJoin (example_join_env (str "g1") 1) (join_params "g1" "c1");
              OpSetBotUserId None]
       (new_manager example_config (Some (str "bot"))))
  = (Done (Returned tt),
     run_all [OpJoin (example_join_env (str "g1") 1) (join_params "g1" "c1");
              OpSetBotUserId None]
       (new_manager example_config (Some (str "bot")))).
Proof.
  refine (proj1 (proj2 (own_voice_is_not_captured
                          (new_manager example_config (Some (str "bot"))) (str "bot")
                          [OpJoin (example_join_env (str "g1") 1) (join_params "g1" "c1");
                           OpSetBotUserId None] eq_refl _)) 0%nat).
  repeat constructor; intros id H; [discriminate H | by injection H as <-].
Defined.

Lemma leave_unregistered params st :
  sessions st !! trim (leave_guildId params) = None ->
  leave params st = (not_connected, st).
Proof.
  intros Hn. unfold leave, sessions_get. by rewrite Hn.
Qed.

(** X26.  [leave] is final: after a [leave] that has succeeded, the guild has
    no session, a second [leave] for it fails with "Not connected to a voice
    channel." and changes nothing, and the session that was left is not live
    any more.  On a manager whose steps were all undisturbed ([undisturbed]:
    every call of [join] and [autoJoin] ran from start to end with nothing
    else happening in its waits, [joinVoiceChannel] always handed out a new
    connection, and every wait of a [Disconnected] listener ended while its
    connection was still [Disconnected]), no session object of the guild at
    all is live any more. *)
Theorem leave_is_final (params : LeaveParams) (st : State) (r : nat)
  (e : VoiceSessionEntry) :
  let g := trim (leave_guildId params) in
  let st' := snd (leave params st) in
  sessions_get g st = Some (r, e) ->
  ok (fst (leave params st)) = true ->
  sessions st' !! g = None /\
  (forall channel,
     leave {| leave_guildId := leave_guildId params; leave_channelId := channel |} st'
     = (not_connected, st')) /\
  ~ live r st' /\
  (reachable_undisturbed st ->
   forall r' e', store st' !! r' = Some e' -> guildId e' = g ->
                 ~ conn_live (connection e') st').
Proof.
  intros g st' Hs Hok. subst st'.
  assert (Hn : sessions (snd (leave params st)) !! g = None).
  { unfold leave in Hok |- *. fold g in Hok |- *. rewrite Hs in Hok |- *.
    destruct (_ && _); [done|]. simpl. apply lookup_delete_eq. }
  split; [done|]. split; [|split].
  - intros channel. by apply leave_unregistered.
  - assert (He : store st !! r = Some e).
    { unfold sessions_get in Hs. destruct (sessions st !! g) as [r0|]; [|done].
      destruct (store st !! r0) as [e0|] eqn:E0; [|done]. by injection Hs as -> ->. }
    unfold leave in Hok |- *. fold g in Hok |- *. rewrite Hs in Hok |- *.
    destruct (_ && _); [done|]. simpl.
    intros (e' & He' & Hl).
    assert (Hst : store (set_sessions (delete g) (stop e st)) = store st)
      by apply store_stop.
    rewrite Hst, He in He'. injection He' as <-.
    assert (Hl' : conn_live (connection e) (stop e st)) by exact Hl.
    by apply stop_not_live in Hl' as [_ ?].
  - intros Hreach r' e' He' Hg Hlive.
    pose proof (seq_inv_leave params st (reachable_undisturbed_inv st Hreach))
      as (_ & S2 & _).
    specialize (S2 r' e' He' Hlive). rewrite Hg in S2. congruence.
Qed.

Lemma leave_is_final_witness :
  leave {| leave_guildId := str "g1"; leave_channelId := Some (str "c1") |}
    (snd (leave {| leave_guildId := str "g1"; leave_channelId := None |} example_joined))
  = (not_connected,
     snd (leave {| leave_guildId := str "g1"; leave_channelId := None |} example_joined)).
Proof.
  assert (He : exists e, sessions_get (trim (str "g1")) example_joined = Some (0%nat, e))
    by (eexists; vm_compute; reflexivity).
  destruct He as (e & He).
  refine (proj1 (proj2 (leave_is_final
                          {| leave_guildId := str "g1"; leave_channelId := None |}
                          example_joined 0 e He _)) (Some (str "c1"))).
  unfold leave. cbn [leave_guildId leave_channelId]. rewrite He. reflexivity.
Defined.
